(** * analog-tools generators: source patching, workspace scope, init-auth

    A shallow embedding of the text-surgery routines of the
    [@analog-tools/generator] package:

    - [utils/vite-config.ts]  : [removeComments], [findViteConfigPath],
                                [updateViteConfig]
    - [utils/workspace.ts]    : [getFieldValue], [getWorkspaceScope]
    - the init-auth generator : [getGeneratorVersion], [ensureAuthPackages],
                                [updateAppConfig], [updateViteConfig],
                                [findViteConfigPath], [initAuthGenerator]

    JavaScript strings are sequences of UTF-16 code units; they are
    modelled as [list N].  Regular expressions are given a backtracking
    semantics in continuation-passing style, following the ECMAScript
    matcher (greedy and lazy quantifiers, capture groups, the empty-check
    of the repeat matcher). *)

Set Warnings "-register-all".
From Stdlib Require Import String Ascii.
From Stdlib Require Import NArith ZArith List Bool Lia.
From stdpp Require Import base option list gmap.

Abbreviation length := List.length (only parsing).

Local Open Scope string_scope.
Local Open Scope nat_scope.
Local Open Scope list_scope.

(* ===================================================================== *)
(** ** JavaScript string primitives *)
(* ===================================================================== *)

Module JS.

(** A UTF-16 code unit. *)
Abbreviation char := N (only parsing).
Abbreviation str := (list N) (only parsing).

(** A literal of the source, given by its (ASCII) characters. *)
Definition lit (s : string) : str := List.map N_of_ascii (list_ascii_of_string s).

Definition ch (s : string) : char :=
  match s with
  | String a _ => N_of_ascii a
  | EmptyString => 0%N
  end.

Definition dquote : char := 34%N.

(** [WhiteSpace] and [LineTerminator] code units: the set stripped by
    [String.prototype.trim] and matched by the class escape [\s]. *)
Definition isWhiteSpace (c : char) : bool :=
  ((9 <=? c) && (c <=? 13) || (c =? 32) || (c =? 160) || (c =? 5760)
   || (8192 <=? c) && (c <=? 8202) || (c =? 8232) || (c =? 8233)
   || (c =? 8239) || (c =? 8287) || (c =? 12288) || (c =? 65279))%N.

(** [\w] : [A-Za-z0-9_]. *)
Definition isWordChar (c : char) : bool :=
  ((65 <=? c) && (c <=? 90) || (97 <=? c) && (c <=? 122)
   || (48 <=? c) && (c <=? 57) || (c =? 95))%N.

Definition isDigit (c : char) : bool := ((48 <=? c) && (c <=? 57))%N.

Fixpoint str_eqb (a b : str) : bool :=
  match a, b with
  | [], [] => true
  | x :: a', y :: b' => (x =? y)%N && str_eqb a' b'
  | _, _ => false
  end.

Fixpoint dropWhile (p : char -> bool) (s : str) : str :=
  match s with
  | [] => []
  | c :: t => if p c then dropWhile p t else s
  end.

Definition trimStart (s : str) : str := dropWhile isWhiteSpace s.

Fixpoint trimEnd (s : str) : str :=
  match s with
  | [] => []
  | c :: t =>
      match trimEnd t with
      | [] => if isWhiteSpace c then [] else [c]
      | t' => c :: t'
      end
  end.

Definition trim (s : str) : str := trimEnd (trimStart s).

Fixpoint startsWith (p s : str) : bool :=
  match p, s with
  | [], _ => true
  | x :: p', y :: s' => (x =? y)%N && startsWith p' s'
  | _ :: _, [] => false
  end.

Definition endsWith (p s : str) : bool := startsWith (rev p) (rev s).

(** [s.indexOf(p)]; [None] stands for the result [-1]. *)
Fixpoint indexOf (p s : str) : option nat :=
  if startsWith p s then Some 0
  else match s with
       | [] => None
       | _ :: t => option_map S (indexOf p t)
       end.

Definition includes (p s : str) : bool :=
  match indexOf p s with Some _ => true | None => false end.

(** [s.substring(a, b)] on non-negative arguments: both are clamped to
    the length and swapped when [a > b]. *)
Definition substring (a b : nat) (s : str) : str :=
  firstn (Nat.max a b - Nat.min a b) (skipn (Nat.min a b) s).

(** [s.substring(a)] and [s.slice(a)], [s.slice(0, a)] for [0 <= a]. *)
Definition substringFrom (a : nat) (s : str) : str := skipn a s.
Definition sliceTo (a : nat) (s : str) : str := firstn a s.

(** [items.join(sep)]. *)
Fixpoint join (sep : str) (items : list str) : str :=
  match items with
  | [] => []
  | [x] => x
  | x :: rest => x ++ sep ++ join sep rest
  end.

(** [s.split(',')] for a one-character separator: always at least one
    piece. *)
Fixpoint split (sep : char) (s : str) : list str :=
  match s with
  | [] => [[]]
  | c :: t =>
      if (c =? sep)%N then [] :: split sep t
      else match split sep t with
           | [] => [[c]]
           | p :: ps => (c :: p) :: ps
           end
  end.

End JS.

Import JS.

(* ===================================================================== *)
(** ** Regular expressions (ECMAScript backtracking semantics) *)
(* ===================================================================== *)

Module Regex.

Inductive re : Type :=
| Eps : re                          (* the empty pattern *)
| Chr : char -> re                  (* a pattern character *)
| Cls : (char -> bool) -> re        (* a character class or class escape *)
| Seq : re -> re -> re
| Alt : re -> re -> re              (* a|b *)
| Star : bool -> re -> re           (* a* (greedy) and a*? (lazy) *)
| Group : nat -> re -> re           (* the n-th capturing parenthesis *)
| Eoi : re.                         (* $ without the m flag *)

(** a+ , a+? *)
Definition Plus (greedy : bool) (a : re) : re := Seq a (Star greedy a).
(** a? *)
Definition Opt (a : re) : re := Alt a Eps.
(** A run of pattern characters. *)
Fixpoint Lit (s : str) : re :=
  match s with
  | [] => Eps
  | c :: t => Seq (Chr c) (Lit t)
  end.

(** Captures, most recent first. *)
Abbreviation caps := (list (nat * str)) (only parsing).

Fixpoint capture (i : nat) (c : caps) : option str :=
  match c with
  | [] => None
  | (j, v) :: c' => if Nat.eqb i j then Some v else capture i c'
  end.

Fixpoint groupsOf (r : re) : list nat :=
  match r with
  | Seq a b | Alt a b => groupsOf a ++ groupsOf b
  | Star _ a => groupsOf a
  | Group i a => i :: groupsOf a
  | _ => []
  end.

(** Number of capturing parentheses ([NcapturingParens]). *)
Definition ngroups (r : re) : nat := length (groupsOf r).

(** The repeat matcher resets the captures of the groups inside the atom
    at the start of every iteration. *)
Definition clearCaps (gs : list nat) (c : caps) : caps :=
  List.filter (fun p => negb (existsb (Nat.eqb (fst p)) gs)) c.

(** The repeat matcher for [min = 0], [max = infinity]: [iterate] runs
    the atom once, [n] bounds the number of iterations left (every
    iteration consumes input, so the length of the input is enough). *)
Fixpoint starLoop {R : Type}
    (iterate : str -> caps -> (str -> caps -> option R) -> option R)
    (greedy : bool) (k : str -> caps -> option R)
    (n : nat) (s : str) (c : caps) {struct n} : option R :=
  let iter :=
    match n with
    | 0 => None
    | S n' =>
        iterate s c
          (fun s' c' =>
             (* empty check: an iteration must consume input *)
             if length s' <? length s then starLoop iterate greedy k n' s' c'
             else None)
    end in
  if greedy then
    match iter with
    | Some x => Some x
    | None => k s c
    end
  else
    match k s c with
    | Some x => Some x
    | None => iter
    end.

(** The matcher [m(x, c)] of the specification: [s] is the input from the
    current position, [k] the continuation. *)
Fixpoint matchk {R : Type} (r : re) (s : str) (c : caps)
    (k : str -> caps -> option R) {struct r} : option R :=
  match r with
  | Eps => k s c
  | Chr x =>
      match s with
      | y :: t => if (x =? y)%N then k t c else None
      | [] => None
      end
  | Cls p =>
      match s with
      | y :: t => if p y then k t c else None
      | [] => None
      end
  | Seq a b => matchk a s c (fun s' c' => matchk b s' c' k)
  | Alt a b =>
      match matchk a s c k with
      | Some x => Some x
      | None => matchk b s c k
      end
  | Star greedy a =>
      starLoop (fun s c k => matchk a s (clearCaps (groupsOf a) c) k)
        greedy k (length s) s c
  | Group i a =>
      matchk a s c
        (fun s' c' => k s' ((i, firstn (length s - length s') s) :: c'))
  | Eoi =>
      match s with
      | [] => k s c
      | _ :: _ => None
      end
  end.

(** A successful match at the current position: the rest of the input
    and the captures. *)
Definition matchHere (r : re) (s : str) : option (str * caps) :=
  matchk r s [] (fun s' c => Some (s', c)).

Record MatchResult : Type := mkMatch {
  index : nat;            (* match.index *)
  matched : str;          (* match[0] *)
  groups : caps           (* match[1], match[2], ... *)
}.

(** [re.exec(s)] / [s.match(re)] for a regular expression without the
    [g] and [y] flags: the leftmost position at which the matcher
    succeeds. *)
Fixpoint execFrom (r : re) (i : nat) (s : str) : option MatchResult :=
  match matchHere r s with
  | Some (s', c) => Some (mkMatch i (firstn (length s - length s') s) c)
  | None =>
      match s with
      | [] => None
      | _ :: t => execFrom r (S i) t
      end
  end.

Definition exec (r : re) (s : str) : option MatchResult := execFrom r 0 s.

Definition test (r : re) (s : str) : bool :=
  match exec r s with Some _ => true | None => false end.

(** [match[i]]; a group that did not participate is [undefined]. *)
Definition group (m : MatchResult) (i : nat) : option str := capture i (groups m).

(** [GetSubstitution]: expansion of [$$], [$&], [$`], [$'] and [$n],
    [$nn] in a replacement string; [m] is the number of capture groups,
    and there are no named groups. *)
Fixpoint getSubstitution (matched_ before after : str) (m : nat) (c : caps)
    (tmpl : str) {struct tmpl} : str :=
  let capText (i : nat) : str :=
    match capture i c with Some v => v | None => [] end in
  match tmpl with
  | [] => []
  | x :: t =>
      if negb (x =? ch "$")%N then x :: getSubstitution matched_ before after m c t
      else
        match t with
        | [] => [x]
        | d :: t' =>
            if (d =? ch "$")%N then ch "$" :: getSubstitution matched_ before after m c t'
            else if (d =? ch "&")%N then matched_ ++ getSubstitution matched_ before after m c t'
            else if (d =? ch "`")%N then before ++ getSubstitution matched_ before after m c t'
            else if (d =? ch "'")%N then after ++ getSubstitution matched_ before after m c t'
            else if isDigit d then
              let i1 := N.to_nat (d - 48) in
              let one :=
                if (1 <=? i1) && (i1 <=? m)
                then capText i1 ++ getSubstitution matched_ before after m c t'
                else x :: d :: getSubstitution matched_ before after m c t' in
              match t' with
              | e :: t'' =>
                  if isDigit e then
                    let i2 := 10 * i1 + N.to_nat (e - 48) in
                    if m <? i2 then one
                    else if 1 <=? i2
                         then capText i2 ++ getSubstitution matched_ before after m c t''
                         else x :: d :: e :: getSubstitution matched_ before after m c t''
                  else one
              | [] => one
              end
            else x :: getSubstitution matched_ before after m c t
        end
  end.

(** [s.replace(re, fn)]: the first match is replaced by the result of the
    callback, applied to the match and its groups. *)
Definition replaceFn (r : re) (f : MatchResult -> str) (s : str) : str :=
  match exec r s with
  | None => s
  | Some m =>
      firstn (index m) s ++ f m ++ skipn (index m + length (matched m)) s
  end.

(** [s.replace(re, template)]. *)
Definition replaceStr (r : re) (tmpl : str) (s : str) : str :=
  replaceFn r
    (fun m => getSubstitution (matched m) (firstn (index m) s)
                (skipn (index m + length (matched m)) s) (ngroups r) (groups m) tmpl)
    s.

(** [s.replace(pattern, template)] with a string pattern: first
    occurrence, no captures; the template is still expanded. *)
Definition replaceString (pat tmpl : str) (s : str) : str :=
  match indexOf pat s with
  | None => s
  | Some i =>
      let after := skipn (i + length pat) s in
      firstn i s ++ getSubstitution pat (firstn i s) after 0 [] tmpl ++ after
  end.

(** [s.replace(re, template)] for a regular expression with the [g] flag:
    every match, scanning left to right; after an empty match the scan
    advances by one code unit.  [skip] counts the code units of the
    current match still to be dropped, [i] is the position in [whole]. *)
Fixpoint replaceAllFrom (r : re) (tmpl whole : str) (skip i : nat) (s : str)
    {struct s} : str :=
  match skip with
  | S skip' =>
      match s with
      | [] => []
      | _ :: t => replaceAllFrom r tmpl whole skip' (S i) t
      end
  | 0 =>
      match matchHere r s with
      | Some (s', c) =>
          let len := length s - length s' in
          let sub := getSubstitution (firstn len s) (firstn i whole)
                       (skipn (i + len) whole) (ngroups r) c tmpl in
          match s with
          | [] => sub
          | y :: t =>
              match len with
              | 0 => sub ++ y :: replaceAllFrom r tmpl whole 0 (S i) t
              | S len' => sub ++ replaceAllFrom r tmpl whole len' (S i) t
              end
          end
      | None =>
          match s with
          | [] => []
          | y :: t => y :: replaceAllFrom r tmpl whole 0 (S i) t
          end
      end
  end.

Definition replaceAll (r : re) (tmpl s : str) : str := replaceAllFrom r tmpl s 0 0 s.

Declare Scope re_scope.
Delimit Scope re_scope with re.
Notation "a ;; b" := (Seq a b) (at level 100, b at level 200) : re_scope.

(** Class escapes and classes used by the generators. *)
Definition ws : re := Cls isWhiteSpace.                       (* \s *)
Definition word : re := Cls isWordChar.                       (* \w *)
Definition any : re := Cls (fun _ => true).                   (* [\s\S] *)
Definition noneOf (cs : str) : re :=                          (* [^...] *)
  Cls (fun c => negb (existsb (N.eqb c) cs)).
Definition oneOf (cs : str) : re :=                           (* [...] *)
  Cls (fun c => existsb (N.eqb c) cs).

End Regex.

Import Regex.

(* ===================================================================== *)
(** ** library generator: utils/vite-config.ts *)
(* ===================================================================== *)

Module ViteConfig.

Definition nl : str := [10%N].
Definition backslash : char := 92%N.

Definition isQuote (c : char) : bool :=
  ((c =? ch "'") || (c =? dquote) || (c =? ch "`"))%N.

(** [removeComments]: the output is only ever appended to, so it is
    produced front to back; the three inner loops hand the rest of the
    input back to the outer loop. *)
Fixpoint removeComments (code : str) : str :=
  match code with
  | [] => []
  | c :: rest =>
      if isQuote c then
        (* stringDelimiter = c *)
        c :: (fix readString (l : str) : str :=
                match l with
                | [] => []
                | x :: l' =>
                    if (x =? backslash)%N then
                      match l' with
                      | y :: l'' => x :: y :: readString l''
                      | [] =>
                          (* code[i + 1] is undefined and is appended as text *)
                          x :: lit "undefined"
                      end
                    else if (x =? c)%N then x :: removeComments l'
                    else x :: readString l'
                end) rest
      else if startsWith (lit "//") code then
        (fix skipLine (l : str) : str :=
           match l with
           | [] => []
           | x :: l' =>
               if (x =? 10)%N then 10%N :: removeComments l'
               else skipLine l'
           end) rest
      else if startsWith (lit "/*") code then
        match rest with
        | [] => []
        | _ :: body =>
            (fix skipBlock (l : str) : str :=
               match l with
               | [] => []
               | x :: l' =>
                   match l' with
                   | [] =>
                       (* i = code.length - 1: the inner loop stops and the
                          outer loop appends the last code unit *)
                       removeComments l
                   | y :: l'' =>
                       if ((x =? ch "*") && (y =? ch "/"))%N then removeComments l''
                       else skipBlock l'
                   end
               end) body
        end
      else c :: removeComments rest
  end.

Record ScanState : Type := mkScan {
  depth : Z;
  endPos : nat;
  inString : bool;
  stringChar : option char      (* [None] is the empty string *)
}.

(** The body of the parenthesis-matching loop at one index, up to the
    test [depth === 0]. *)
Definition scanStep (prevChar : option char) (c : char) (st : ScanState) : ScanState :=
  (* Handle string literals *)
  let st1 :=
    if isQuote c
       && negb (match prevChar with Some p => (p =? backslash)%N | None => false end)
    then
      if negb (inString st) then mkScan (depth st) (endPos st) true (Some c)
      else if (match stringChar st with Some q => (c =? q)%N | None => false end)
           then mkScan (depth st) (endPos st) false None
           else st
    else st in
  if negb (inString st1) then
    let d1 := if (c =? ch "(")%N then (depth st1 + 1)%Z else depth st1 in
    let d2 := if (c =? ch ")")%N then (d1 - 1)%Z else d1 in
    mkScan d2 (endPos st1) (inString st1) (stringChar st1)
  else st1.

(** [for (let i = startPos; i < updatedContent.length && depth > 0; i++)]
    over the input from index [i] on; [prevChar] is [updatedContent[i - 1]]. *)
Fixpoint scanLoop (prevChar : option char) (l : str) (i : nat)
    (st : ScanState) {struct l} : ScanState :=
  match l with
  | [] => st
  | c :: l' =>
      if (depth st >? 0)%Z then
        let st' := scanStep prevChar c st in
        if (depth st' =? 0)%Z
        then mkScan (depth st') i (inString st') (stringChar st')
        else scanLoop (Some c) l' (S i) st'
      else st
  end.

Definition findClosingParen (content : str) (startPos : nat) : ScanState :=
  scanLoop (if 0 <? startPos then nth_error content (startPos - 1) else None)
    (skipn startPos content) startPos (mkScan 1 startPos false None).

Record Options : Type := mkOptions {
  addPages : option bool;
  addApi : option bool
}.

Definition noOptions : Options := mkOptions None None.

(** /analog\s*\(/ *)
Definition analogCallRegex : re :=
  (Lit (lit "analog") ;; Star true ws ;; Chr (ch "("))%re.

(** /additionalPagesDirs\s*:/ , /additionalAPIDirs\s*:/ , /liveReload\s*:/ *)
Definition hasPagesDirRegex : re :=
  (Lit (lit "additionalPagesDirs") ;; Star true ws ;; Chr (ch ":"))%re.
Definition hasApiDirRegex : re :=
  (Lit (lit "additionalAPIDirs") ;; Star true ws ;; Chr (ch ":"))%re.
Definition hasLiveReloadRegex : re :=
  (Lit (lit "liveReload") ;; Star true ws ;; Chr (ch ":"))%re.

(** /additionalPagesDirs:\s*\[(G)\]/ where the group G is [^\]]* *)
Definition pagesDirsArrayRegex : re :=
  (Lit (lit "additionalPagesDirs:") ;; Star true ws ;; Chr (ch "[") ;;
   Group 1 (Star true (noneOf (lit "]"))) ;; Chr (ch "]"))%re.

(** /additionalAPIDirs:\s*\[(G)\]/ where the group G is [^\]]* *)
Definition apiDirsArrayRegex : re :=
  (Lit (lit "additionalAPIDirs:") ;; Star true ws ;; Chr (ch "[") ;;
   Group 1 (Star true (noneOf (lit "]"))) ;; Chr (ch "]"))%re.

(** /\}\s*$/ *)
Definition closingBraceRegex : re :=
  (Chr (ch "}") ;; Star true ws ;; Eoi)%re.

(** /\s+/g *)
Definition whitespaceRuns : re := Plus true ws.

(** /\\/g *)
Definition backslashes : re := Chr backslash.

(** The replacer callback of the two array edits:
    [(match, dirs) => `<key>: [${existingDirs}${dirFormatted}]`]. *)
Definition appendDir (key dirFormatted : str) (m : MatchResult) : str :=
  let dirs := match group m 1 with Some d => d | None => [] end in
  let existingDirs :=
    if 0 <? length (trim dirs) then trim dirs ++ lit ", " else [] in
  key ++ lit ": [" ++ existingDirs ++ dirFormatted ++ lit "]".

(** [trimmedInner.length > 0 && !trimmedInner.endsWith(',')] *)
Definition needsCommaAfter (innerContent : str) : bool :=
  let trimmedInner := trim innerContent in
  (0 <? length trimmedInner) && negb (endsWith (lit ",") trimmedInner).

Definition comma (needsComma : bool) : str := if needsComma then lit "," else [].

(** [s.substring(1, s.length - 1)] *)
Definition stripBraces (s : str) : str := substring 1 (length s - 1) s.

Definition hasBraces (s : str) : bool :=
  startsWith (lit "{") s && endsWith (lit "}") s.

(** The options object written into an empty [analog()] call. *)
Definition freshOptions (shouldAddPages shouldAddApi : bool)
    (pagesDirFormatted apiDirFormatted : str) : str :=
  let newOptions :=
    [lit "liveReload: true"]
    ++ (if shouldAddPages
        then [lit "additionalPagesDirs: [" ++ pagesDirFormatted ++ lit "]"]
        else [])
    ++ (if shouldAddApi
        then [lit "additionalAPIDirs: [" ++ apiDirFormatted ++ lit "]"]
        else []) in
  if 0 <? length newOptions
  then lit "{" ++ nl ++ lit "        "
       ++ join (lit "," ++ nl ++ lit "        ") newOptions
       ++ nl ++ lit "      }"
  else lit "{}".

(** The [else] branch: [analog()] has existing content. *)
Definition extendOptions (shouldAddPages shouldAddApi : bool)
    (pagesDirFormatted apiDirFormatted analogContent : str) : str :=
  (* Remove outer braces if present *)
  let innerContent :=
    if hasBraces analogContent then stripBraces analogContent else analogContent in
  let hasPagesDir := test hasPagesDirRegex innerContent in
  let hasApiDir := test hasApiDirRegex innerContent in
  let hasLiveReload := test hasLiveReloadRegex innerContent in
  (* Add liveReload if not present *)
  let '(newAnalogContent, innerContent) :=
    if negb hasLiveReload then
      let newAnalogContent :=
        lit "{" ++ nl ++ innerContent ++ comma (needsCommaAfter innerContent)
        ++ nl ++ lit "        liveReload: true" ++ nl ++ lit "      }" in
      (newAnalogContent, stripBraces newAnalogContent)
    else (analogContent, innerContent) in
  let newAnalogContent :=
    if shouldAddPages && hasPagesDir then
      (* Add to existing additionalPagesDirs array *)
      replaceFn pagesDirsArrayRegex
        (appendDir (lit "additionalPagesDirs") pagesDirFormatted)
        analogContent
    else if shouldAddPages && negb hasPagesDir then
      (* Add new additionalPagesDirs at the end *)
      lit "{" ++ nl ++ innerContent ++ comma (needsCommaAfter innerContent)
      ++ nl ++ lit "        additionalPagesDirs: [" ++ pagesDirFormatted ++ lit "]"
      ++ nl ++ lit "      }"
    else newAnalogContent in
  (* Re-get the content after pages update *)
  let innerContent :=
    if hasBraces newAnalogContent then stripBraces newAnalogContent
    else newAnalogContent in
  if shouldAddApi && hasApiDir then
    (* Add to existing additionalAPIDirs array *)
    replaceFn apiDirsArrayRegex
      (appendDir (lit "additionalAPIDirs") apiDirFormatted)
      newAnalogContent
  else if shouldAddApi && negb hasApiDir then
    (* Add new additionalAPIDirs *)
    if startsWith (lit "{") newAnalogContent then
      replaceStr closingBraceRegex
        (comma (needsCommaAfter innerContent) ++ nl
         ++ lit "        additionalAPIDirs: [" ++ apiDirFormatted ++ lit "]"
         ++ nl ++ lit "      }")
        newAnalogContent
    else
      lit "{" ++ nl ++ innerContent ++ comma (needsCommaAfter innerContent)
      ++ nl ++ lit "        additionalAPIDirs: [" ++ apiDirFormatted ++ lit "]"
      ++ nl ++ lit "      }"
  else newAnalogContent.

(** [removeComments(analogContent).replace(/\s+/g, '')] is [''] or ['{}']. *)
Definition isEmptyCall (analogContent : str) : bool :=
  let contentWithoutCommentsAndWhitespace :=
    replaceAll whitespaceRuns [] (removeComments analogContent) in
  str_eqb contentWithoutCommentsAndWhitespace []
  || str_eqb contentWithoutCommentsAndWhitespace (lit "{}").

(** [flag !== false] *)
Definition notFalse (flag : option bool) : bool :=
  match flag with
  | Some false => false
  | _ => true
  end.

Section WithPath.

(** Node's [path.join]. *)
Variable path_join : list str -> str.

(** [path.join(libSrcRoot, ...segments).replace(/\\/g, '/')] *)
Definition dirUnder (libSrcRoot : str) (segments : list str) : str :=
  replaceAll backslashes (lit "/") (path_join (libSrcRoot :: segments)).

Definition updateViteConfig (content libSrcRoot : str) (options : Options) : str :=
  let updatedContent := content in
  (* Default to adding both if not specified *)
  let shouldAddPages := notFalse (addPages options) in
  let shouldAddApi := notFalse (addApi options) in
  (* Ensure paths use forward slashes *)
  let pagesDir := dirUnder libSrcRoot [lit "pages"] in
  let pagesDirFormatted := lit "'" ++ pagesDir ++ lit "'" in
  let apiDir := dirUnder libSrcRoot [lit "backend"; lit "api"] in
  let apiDirFormatted := lit "'" ++ apiDir ++ lit "'" in
  (* Find the analog() call and its content *)
  match exec analogCallRegex updatedContent with
  | None => updatedContent
  | Some analogMatch =>
      let startPos := index analogMatch + length (matched analogMatch) in
      (* Find the matching closing parenthesis *)
      let scan := findClosingParen updatedContent startPos in
      if negb (depth scan =? 0)%Z then updatedContent
      else
        let endPos := endPos scan in
        let analogContent := trim (substring startPos endPos updatedContent) in
        let newAnalogContent :=
          if isEmptyCall analogContent
          then freshOptions shouldAddPages shouldAddApi pagesDirFormatted apiDirFormatted
          else extendOptions shouldAddPages shouldAddApi
                 pagesDirFormatted apiDirFormatted analogContent in
        (* Replace the analog() call content *)
        let before := substring 0 startPos updatedContent in
        let after := substringFrom endPos updatedContent in
        before ++ newAnalogContent ++ after
  end.

End WithPath.

(** A stand-in for [path.join] on plain relative segments (nothing to
    normalise). *)
Definition joinSegments (parts : list str) : str := join (lit "/") parts.

End ViteConfig.

(* ===================================================================== *)
(** ** The Nx virtual file system and the devkit values *)
(* ===================================================================== *)

Module Devkit.

(** A completion: a value, or a thrown error with its message. *)
Inductive result (A : Type) : Type :=
| Ok (a : A)
| Throw (e : str).
Arguments Ok {A} a.
Arguments Throw {A} e.

(** Parsed JSON; [undefined] is the absence of a value ([None]). *)
Inductive Json : Type :=
| JNull
| JBool (b : bool)
| JNumber (n : Z)
| JString (s : str)
| JArray (items : list Json)
| JObject (fields : list (str * Json)).

(** [ToBoolean]. *)
Definition truthy (v : option Json) : bool :=
  match v with
  | None | Some JNull => false
  | Some (JBool b) => b
  | Some (JNumber n) => negb (n =? 0)%Z
  | Some (JString s) => negb (str_eqb s [])
  | Some (JArray _) | Some (JObject _) => true
  end.

Fixpoint lookupField (k : str) (fields : list (str * Json)) : option Json :=
  match fields with
  | [] => None
  | (k', v) :: rest => if str_eqb k k' then Some v else lookupField k rest
  end.

(** A canonical array index: decimal digits without a leading zero. *)
Fixpoint digitsValue (acc : nat) (s : str) : option nat :=
  match s with
  | [] => Some acc
  | c :: t => if isDigit c then digitsValue (10 * acc + N.to_nat (c - 48)) t else None
  end.

Definition arrayIndex (k : str) : option nat :=
  match k with
  | [] => None
  | [c] => digitsValue 0 [c]
  | c :: _ => if (c =? 48)%N then None else digitsValue 0 k
  end.

(** The own data properties of a parsed JSON value. *)
Definition ownProperty (v : Json) (k : str) : option Json :=
  match v with
  | JObject fields => lookupField k fields
  | JArray items =>
      if str_eqb k (lit "length") then Some (JNumber (Z.of_nat (length items)))
      else match arrayIndex k with
           | Some i => nth_error items i
           | None => None
           end
  | JString s =>
      if str_eqb k (lit "length") then Some (JNumber (Z.of_nat (length s)))
      else match arrayIndex k with
           | Some i => option_map (fun c => JString [c]) (nth_error s i)
           | None => None
           end
  | _ => None
  end.

(** [v[k]] / [v.k], as far as its value is a JSON value: a property
    inherited from a prototype is a function or an object and is [None]
    here.  Reading a property of [null] throws. *)
Definition getProp (v : Json) (k : str) : result (option Json) :=
  match v with
  | JNull => Throw (lit "TypeError: Cannot read properties of null")
  | _ => Ok (ownProperty v k)
  end.

(** [interface Tree] of [@nx/devkit], as far as the generators use it. *)
Class TreeOps (Tree : Type) : Type := {
  tree_exists : Tree -> str -> bool;
  (** [tree.read(p)?.toString('utf-8')]; [None] is [null] *)
  tree_read : Tree -> str -> option str;
  tree_write : Tree -> str -> str -> Tree;
  tree_children : Tree -> str -> list str
}.

Record ProjectConfiguration : Type := mkProject {
  root : str;
  projectType : option str
}.

End Devkit.

Import Devkit.

(* ===================================================================== *)
(** ** library generator: utils/workspace.ts *)
(* ===================================================================== *)

Module Workspace.

(** [getFieldValue(obj, fieldName, 'string')].  The [in] operator throws
    on a primitive that is not falsy. *)
Definition getFieldValue (obj : Json) (fieldName : str) : result (option str) :=
  if negb (truthy (Some obj)) then Ok None
  else
    match obj with
    | JObject _ | JArray _ =>
        (* a property that is absent and one that is not a string both
           give undefined *)
        match ownProperty obj fieldName with
        | Some (JString s) => Ok (Some s)
        | _ => Ok None
        end
    | _ => Throw (lit "TypeError: Cannot use 'in' operator")
    end.

(** [typeof name === 'string' && name.startsWith('@') && name.includes('/')]
    and then [name.substring(0, name.indexOf('/'))]. *)
Definition scopeOfName (name : option Json) : option str :=
  match name with
  | Some (JString name) =>
      if startsWith (lit "@") name && includes (lit "/") name then
        Some (substring 0 (match indexOf (lit "/") name with
                           | Some i => i
                           | None => 0 (* -1 is clamped to 0 *)
                           end) name)
      else None
  | _ => None
  end.

Section WithTree.

Context {Tree : Type} `{TreeOps Tree}.

(** [readNxJson] and [readJson] of [@nx/devkit]. *)
Variable readNxJson : Tree -> result Json.
Variable readJson : Tree -> str -> result Json.

(** The body of the inner [try]: the scope of one package.json, when its
    name has one; a throw is caught and the loop continues. *)
Definition scopeOfPackageJson (tree : Tree) (packageJsonPath : str) : option str :=
  match readJson tree packageJsonPath with
  | Throw _ => None
  | Ok packageJson =>
      match getProp packageJson (lit "name") with
      | Throw _ => None
      | Ok name => scopeOfName name
      end
  end.

(** [for (const child of dirChildren)] *)
Fixpoint scanChildren (tree : Tree) (dir : str) (dirChildren : list str) : option str :=
  match dirChildren with
  | [] => None
  | child :: rest =>
      let packageJsonPath := dir ++ lit "/" ++ child ++ lit "/package.json" in
      if tree_exists tree packageJsonPath then
        match scopeOfPackageJson tree packageJsonPath with
        | Some scope => Some scope
        | None => scanChildren tree dir rest
        end
      else scanChildren tree dir rest
  end.

(** [for (const dir of packageDirs)] *)
Fixpoint scanPackageDirs (tree : Tree) (packageDirs : list str) : option str :=
  match packageDirs with
  | [] => None
  | dir :: rest =>
      if tree_exists tree dir then
        match scanChildren tree dir (tree_children tree dir) with
        | Some scope => Some scope
        | None => scanPackageDirs tree rest
        end
      else scanPackageDirs tree rest
  end.

(** [getWorkspaceScope]; [None] is [null].  The logger calls are not
    modelled. *)
Definition getWorkspaceScope (tree : Tree) : option str :=
  let scopeFromNx :=
    match readNxJson tree with
    | Throw _ => None
    | Ok nxJson =>
        match getFieldValue nxJson (lit "npmScope") with
        | Throw _ => None
        | Ok v => v
        end
    end in
  match scopeFromNx with
  | Some scopeFromNx =>
      (* Ensure scope starts with @ *)
      Some (if startsWith (lit "@") scopeFromNx then scopeFromNx
            else lit "@" ++ scopeFromNx)
  | None =>
      (* Try to find any package with a scope in the packages directory *)
      match scanPackageDirs tree [lit "packages"; lit "libs"] with
      | Some scope => Some scope
      | None =>
          (* Fallback: try root package.json *)
          let fromRoot :=
            if tree_exists tree (lit "package.json") then
              match readJson tree (lit "package.json") with
              | Throw _ => None
              | Ok packageJson =>
                  match getProp packageJson (lit "name") with
                  | Throw _ => None
                  | Ok name => scopeOfName name
                  end
              end
            else None in
          fromRoot
      end
  end.

End WithTree.

End Workspace.

(* ===================================================================== *)
(** ** init-auth generator *)
(* ===================================================================== *)

Module InitAuth.

(** A generator step mutates the tree and returns a value or throws; the
    tree keeps the writes made before a throw. *)
Definition Gen (Tree A : Type) : Type := Tree -> Tree * result A.

Definition ret {Tree A : Type} (a : A) : Gen Tree A := fun t => (t, Ok a).
Definition throw {Tree A : Type} (e : str) : Gen Tree A := fun t => (t, Throw e).
Definition bind {Tree A B : Type} (m : Gen Tree A) (f : A -> Gen Tree B) : Gen Tree B :=
  fun t =>
    match m t with
    | (t', Ok a) => f a t'
    | (t', Throw e) => (t', Throw e)
    end.
Definition getTree {Tree : Type} : Gen Tree Tree := fun t => (t, Ok t).
Definition liftResult {Tree A : Type} (r : result A) : Gen Tree A := fun t => (t, r).

Notation "x <- m ;; k" := (bind m (fun x => k))
  (at level 100, m at next level, right associativity, only parsing).
Notation "m ;;; k" := (bind m (fun _ => k))
  (at level 100, right associativity, only parsing).

Definition nl : str := [10%N].
Definition quotes : str := [ch "'"; dquote].

(** One import statement of the import pattern of [updateAppConfig]:
    [import\s+{[^}]+}\s+from\s+Q[^Q]+Q;?\s*\n], Q a single or double
    quote. *)
Definition importLineRegex : re :=
  (Lit (lit "import") ;; Plus true ws ;; Chr (ch "{") ;;
   Plus true (noneOf (lit "}")) ;; Chr (ch "}") ;; Plus true ws ;;
   Lit (lit "from") ;; Plus true ws ;; oneOf quotes ;;
   Plus true (noneOf quotes) ;; oneOf quotes ;; Opt (Chr (ch ";")) ;;
   Star true ws ;; Chr 10%N)%re.

(** The import pattern: one or more import statements, each captured as
    group 1. *)
Definition importRegex : re := Plus true (Group 1 importLineRegex).

(** /providers:\s*\[([\s\S]*?)\]/ *)
Definition providersRegex : re :=
  (Lit (lit "providers:") ;; Star true ws ;; Chr (ch "[") ;;
   Group 1 (Star false any) ;; Chr (ch "]"))%re.

(** /,\s*\n\s*(\w+\([^)]*\)|provide\w+\([^)]*\))\s*,?\s*$/ *)
Definition lastProviderRegex : re :=
  (Chr (ch ",") ;; Star true ws ;; Chr 10%N ;; Star true ws ;;
   Group 1
     (Alt (Plus true word ;; Chr (ch "(") ;; Star true (noneOf (lit ")")) ;; Chr (ch ")"))
          (Lit (lit "provide") ;; Plus true word ;; Chr (ch "(") ;;
           Star true (noneOf (lit ")")) ;; Chr (ch ")"))) ;;
   Star true ws ;; Opt (Chr (ch ",")) ;; Star true ws ;; Eoi)%re.

(** /providers:\s*\[/ *)
Definition providersOpenRegex : re :=
  (Lit (lit "providers:") ;; Star true ws ;; Chr (ch "["))%re.

(** /withInterceptors\(\[(G)\]\)/ where the group G is [^\]]* *)
Definition interceptorsRegex : re :=
  (Lit (lit "withInterceptors([") ;; Group 1 (Star true (noneOf (lit "]"))) ;;
   Lit (lit "])"))%re.

(** /provideHttpClient\(([\s\S]*?)\)/ *)
Definition httpClientRegex : re :=
  (Lit (lit "provideHttpClient(") ;; Group 1 (Star false any) ;; Chr (ch ")"))%re.

(** /from\s+Q@angular\/common\/httpQ/ *)
Definition httpFromRegex : re :=
  (Lit (lit "from") ;; Plus true ws ;; oneOf quotes ;;
   Lit (lit "@angular/common/http") ;; oneOf quotes)%re.

(** /import\s+{([^}]+)}\s+from\s+Q@angular\/common\/httpQ/ *)
Definition httpImportRegex : re :=
  (Lit (lit "import") ;; Plus true ws ;; Chr (ch "{") ;;
   Group 1 (Plus true (noneOf (lit "}"))) ;; Chr (ch "}") ;; Plus true ws ;;
   Lit (lit "from") ;; Plus true ws ;; oneOf quotes ;;
   Lit (lit "@angular/common/http") ;; oneOf quotes)%re.

(** /ssr:\s*{\s*noExternal:\s*\[([\s\S]*?)\]/ *)
Definition noExternalRegex : re :=
  (Lit (lit "ssr:") ;; Star true ws ;; Chr (ch "{") ;; Star true ws ;;
   Lit (lit "noExternal:") ;; Star true ws ;; Chr (ch "[") ;;
   Group 1 (Star false any) ;; Chr (ch "]"))%re.

(** /ssr:\s*{/ and /build:\s*{/ *)
Definition ssrRegex : re :=
  (Lit (lit "ssr:") ;; Star true ws ;; Chr (ch "{"))%re.
Definition buildRegex : re :=
  (Lit (lit "build:") ;; Star true ws ;; Chr (ch "{"))%re.

Definition authImport : str :=
  lit "import { authInterceptor, provideAuthClient } from '@analog-tools/auth/angular';" ++ nl.

Definition groupText (m : MatchResult) (i : nat) : str :=
  match group m i with Some v => v | None => [] end.

(** Add auth imports: after the first run of brace imports, when there
    is one. *)
Definition addAuthImport (content : str) : str :=
  match exec importRegex content with
  | Some lastImportMatch =>
      let insertPosition := index lastImportMatch + length (matched lastImportMatch) in
      sliceTo insertPosition content ++ authImport ++ substringFrom insertPosition content
  | None => content
  end.

(** Add provideAuthClient() to providers ([providersContent] is the
    first group of the providers match). *)
Definition addProvideAuthClient (providersContent content : str) : str :=
  (* Check if provideAuthClient is already there *)
  if negb (includes (lit "provideAuthClient") providersContent) then
    (* Find the last provider before the closing bracket *)
    let updatedProviders :=
      replaceStr lastProviderRegex
        (lit "," ++ nl ++ lit "    $1," ++ nl ++ lit "    provideAuthClient(),")
        providersContent in
    (* If no match, it might be an empty or simple providers array *)
    if str_eqb updatedProviders providersContent then
      replaceStr providersOpenRegex
        (lit "providers: [" ++ nl ++ lit "    provideAuthClient(),") content
    else replaceString providersContent updatedProviders content
  else content.

(** Add authInterceptor to withInterceptors. *)
Definition addAuthInterceptor (content : str) : str :=
  match exec interceptorsRegex content with
  | Some interceptorsMatch =>
      let interceptorsContent := groupText interceptorsMatch 1 in
      if negb (includes (lit "authInterceptor") interceptorsContent) then
        let updatedInterceptors :=
          if 0 <? length (trim interceptorsContent)
          then trim interceptorsContent ++ lit ", authInterceptor"
          else lit "authInterceptor" in
        replaceStr interceptorsRegex
          (lit "withInterceptors([" ++ updatedInterceptors ++ lit "])") content
      else content
  | None =>
      (* If withInterceptors doesn't exist, we need to add it *)
      match exec httpClientRegex content with
      | Some httpClientMatch =>
          let httpClientContent := groupText httpClientMatch 1 in
          if includes (lit "withFetch()") httpClientContent then
            let content :=
              replaceStr httpClientRegex
                (lit "provideHttpClient(" ++ nl ++ lit "      withFetch()," ++ nl
                 ++ lit "      withInterceptors([authInterceptor])" ++ nl ++ lit "    )")
                content in
            (* Add withInterceptors import if not present *)
            if negb (includes (lit "withInterceptors") content) then
              let content :=
                replaceStr httpFromRegex (lit "from '@angular/common/http'") content in
              replaceFn httpImportRegex
                (fun m =>
                   let imports := groupText m 1 in
                   if negb (includes (lit "withInterceptors") imports)
                   then replaceString (lit "}") (lit ", withInterceptors}") (matched m)
                   else matched m)
                content
            else content
          else content
      | None => content
      end
  end.

(** The text written back by [updateAppConfig] for a file without the
    auth import. *)
Definition patchAppConfig (content : str) : str :=
  let content := addAuthImport content in
  match exec providersRegex content with
  | Some providersMatch =>
      let providersContent := groupText providersMatch 1 in
      addAuthInterceptor (addProvideAuthClient providersContent content)
  | None => content
  end.

Definition authLiteral : str := lit "'@analog-tools/auth'".
Definition authLiteralDouble : str := [dquote] ++ lit "@analog-tools/auth" ++ [dquote].

(** What [updateViteConfig] does with the text of vite.config: [None]
    when the literal is already in ssr.noExternal (the function returns
    without writing), else the text it writes. *)
Definition patchNoExternal (content : str) : option str :=
  match exec noExternalRegex content with
  | Some m =>
      let noExternalContent := groupText m 1 in
      (* Check if @analog-tools/auth is already in noExternal array specifically *)
      if includes authLiteral noExternalContent
         || includes authLiteralDouble noExternalContent
      then None
      else
        (* Parse existing items, handling both string formats and whitespace *)
        let items :=
          List.filter (fun item => 0 <? length item)
            (List.map trim (split (ch ",") noExternalContent)) in
        (* Add the new item *)
        let items := items ++ [authLiteral] in
        let itemsStr := join (lit ", ") items in
        Some (replaceStr noExternalRegex
                (lit "ssr: {" ++ nl ++ lit "      noExternal: [" ++ itemsStr ++ lit "]")
                content)
  | None =>
      (* If ssr.noExternal doesn't exist, add it *)
      if includes (lit "ssr:") content then
        Some (replaceStr ssrRegex
                (lit "ssr: {" ++ nl ++ lit "      noExternal: ['@analog-tools/auth'],")
                content)
      else
        (* Add ssr section before build section *)
        match exec buildRegex content with
        | Some buildMatch =>
            let insertPos := index buildMatch in
            let ssrConfig :=
              nl ++ lit "    ssr: {" ++ nl ++ lit "      noExternal: ['@analog-tools/auth'],"
              ++ nl ++ lit "    }," ++ nl ++ nl ++ lit "    " in
            Some (sliceTo insertPos content ++ ssrConfig ++ substringFrom insertPos content)
        | None => Some content
        end
  end.

Definition authConfigContent : str :=
  lit "import { AnalogAuthConfig } from '@analog-tools/auth';

export const authConfig: AnalogAuthConfig = {
  issuer: process.env['AUTH_ISSUER'] || '',
  clientId: process.env['AUTH_CLIENT_ID'] || '',
  clientSecret: process.env['AUTH_CLIENT_SECRET'] || '',
  audience: process.env['AUTH_AUDIENCE'] || '',
  scope: process.env['AUTH_SCOPE'] || 'openid profile email',
  callbackUri: process.env['AUTH_CALLBACK_URL'] || '',
  unprotectedRoutes: [],

  sessionStorage: {
    type: 'redis',
    config: {
      url: process.env['REDIS_URL'] || 'redis://localhost:6379',
      sessionSecret: process.env['SESSION_SECRET'] || 'default-dev-secret',
      ttl: 86400, // 24 hours
    },
  },
};
".

Definition authMiddlewareContent : str :=
  lit "import { useAnalogAuth } from '@analog-tools/auth';
import { defineEventHandler, H3Event } from 'h3';
import { authConfig } from '../../auth.config';

/**
 * Authentication middleware for protected API routes
 * To be used with Analog.js middleware structure
 */
export default defineEventHandler(async (event: H3Event) => {
  return useAnalogAuth(authConfig, event);
});
".

Definition requiredPackages : list str :=
  [lit "@analog-tools/auth"; lit "@analog-tools/inject";
   lit "@analog-tools/logger"; lit "@analog-tools/session"].

Section WithTree.

Context {Tree : Type} `{TreeOps Tree}.

(** The install task returned by [addDependenciesToPackageJson]. *)
Variable Task : Type.

(** Functions of [@nx/devkit] and [JSON.parse]. *)
Variable readJson : Tree -> str -> result Json.
Variable readProjectConfiguration : Tree -> str -> result ProjectConfiguration.
Variable addDependenciesToPackageJson :
  list (str * Json) -> list (str * Json) -> Gen Tree Task.
Variable formatFiles : Gen Tree unit.
Variable joinPathFragments : list str -> str.
Variable JSON_parse : str -> result Json.

Definition write (path content : str) : Gen Tree unit :=
  fun t => (tree_write t path content, Ok tt).

(** [tree.read(path)!.toString('utf-8')] *)
Definition readText (path : str) : Gen Tree str :=
  fun t =>
    match tree_read t path with
    | Some s => (t, Ok s)
    | None => (t, Throw (lit "TypeError: Cannot read properties of null"))
    end.

(** The version of one package.json, when the file exists and the
    value is truthy. *)
Definition versionAt (tree : Tree) (path : str) : result (option Json) :=
  if tree_exists tree path then
    match readJson tree path with
    | Throw e => Throw e
    | Ok generatorPackageJson =>
        match getProp generatorPackageJson (lit "version") with
        | Throw e => Throw e
        | Ok v => Ok (if truthy v then v else None)
        end
    end
  else Ok None.

Definition getGeneratorVersion (tree : Tree) : Json :=
  match versionAt tree (lit "node_modules/@analog-tools/generator/package.json") with
  | Throw _ => JString (lit "latest")
  | Ok (Some v) => v
  | Ok None =>
      match versionAt tree (lit "packages/generator/package.json") with
      | Throw _ => JString (lit "latest")
      | Ok (Some v) => v
      | Ok None => JString (lit "latest")
      end
  end.

(** [(deps && deps[pkg])] *)
Definition listed (deps : option Json) (pkg : str) : bool :=
  truthy deps
  && match deps with
     | Some d => truthy (ownProperty d pkg)
     | None => false
     end.

Definition jsonIs (v : option Json) (s : str) : bool :=
  match v with
  | Some (JString x) => str_eqb x s
  | _ => false
  end.

(** [ensureAuthPackages]; [None] is [null]. *)
Definition ensureAuthPackages : Gen Tree (option Task) :=
  tree <- getTree ;;
  if negb (tree_exists tree (lit "package.json")) then ret None
  else
    text <- readText (lit "package.json") ;;
    packageJson <- liftResult (JSON_parse text) ;;
    name <- liftResult (getProp packageJson (lit "name")) ;;
    (* Check if we're in the analog-tools monorepo itself *)
    let isAnalogToolsRepo :=
      jsonIs name (lit "analog-tools") || jsonIs name (lit "@analog-tools/root") in
    if isAnalogToolsRepo then ret None
    else
      let dependencies := ownProperty packageJson (lit "dependencies") in
      let devDependencies := ownProperty packageJson (lit "devDependencies") in
      let missingPackages :=
        List.filter
          (fun pkg => negb (listed dependencies pkg || listed devDependencies pkg))
          requiredPackages in
      if length missingPackages =? 0 then ret None
      else
        let version := getGeneratorVersion tree in
        (* Add packages with the same version as the generator *)
        let dependencies := List.map (fun pkg => (pkg, version)) missingPackages in
        task <- addDependenciesToPackageJson dependencies [] ;;
        ret (Some task).

(** [updateAppConfig] *)
Definition updateAppConfig (appConfigPath : str) : Gen Tree unit :=
  tree <- getTree ;;
  if negb (tree_exists tree appConfigPath) then ret tt
  else
    content <- readText appConfigPath ;;
    (* Check if auth imports already exist *)
    let hasAuthImport := includes (lit "@analog-tools/auth/angular") content in
    if hasAuthImport then ret tt
    else write appConfigPath (patchAppConfig content).

(** [updateViteConfig]: add @analog-tools/auth to noExternal. *)
Definition updateViteConfig (viteConfigPath : str) : Gen Tree unit :=
  tree <- getTree ;;
  if negb (tree_exists tree viteConfigPath) then ret tt
  else
    content <- readText viteConfigPath ;;
    match patchNoExternal content with
    | None => ret tt
    | Some content' => write viteConfigPath content'
    end.

(** [possiblePaths.find((p) => tree.exists(p)) || null] *)
Definition findViteConfigPath (tree : Tree) (projectRoot : str) : option str :=
  let possiblePaths :=
    [joinPathFragments [projectRoot; lit "vite.config.ts"];
     joinPathFragments [projectRoot; lit "vite.config.mts"];
     joinPathFragments [projectRoot; lit "vite.config.js"];
     joinPathFragments [projectRoot; lit "vite.config.mjs"]] in
  match List.find (fun p => tree_exists tree p) possiblePaths with
  | Some p => if 0 <? length p then Some p else None
  | None => None
  end.

Definition mustBeApplication (project : str) (projectType : option str) : str :=
  lit "Project " ++ [dquote] ++ project ++ [dquote]
  ++ lit " must be an application. Found " ++ [dquote]
  ++ match projectType with Some t => t | None => lit "unknown" end
  ++ [dquote] ++ lit ".".

(** Steps 0 to 4 of [initAuthGenerator], after the project type check. *)
Definition initAuthSteps (projectRoot : str) : Gen Tree (option Task) :=
    (* Step 0: Ensure required packages are installed *)
    installTask <- ensureAuthPackages ;;
    (* Step 1: Create auth.config.ts in src/ *)
    let authConfigPath := joinPathFragments [projectRoot; lit "src/auth.config.ts"] in
    write authConfigPath authConfigContent ;;;
    (* Step 2: Generate auth middleware in src/server/middleware/ *)
    let middlewarePath := joinPathFragments [projectRoot; lit "src/server/middleware"] in
    let authMiddlewarePath := joinPathFragments [middlewarePath; lit "auth.ts"] in
    write authMiddlewarePath authMiddlewareContent ;;;
    (* Step 3: Update app.config.ts *)
    let appConfigPath := joinPathFragments [projectRoot; lit "src/app/app.config.ts"] in
    updateAppConfig appConfigPath ;;;
    (* Step 4: Update vite.config.ts *)
    tree <- getTree ;;
    match findViteConfigPath tree projectRoot with
    | Some viteConfigPath => updateViteConfig viteConfigPath
    | None => ret tt
    end ;;;
    formatFiles ;;;
    ret installTask.

(** [initAuthGenerator(tree, options)] with [options.project = project]. *)
Definition initAuthGenerator (project : str) : Gen Tree (option Task) :=
  tree <- getTree ;;
  projectConfig <- liftResult (readProjectConfiguration tree project) ;;
  let projectRoot := root projectConfig in
  if negb (match projectType projectConfig with
           | Some t => str_eqb t (lit "application")
           | None => false
           end)
  then throw (mustBeApplication project (projectType projectConfig))
  else initAuthSteps projectRoot.

End WithTree.

End InitAuth.

(* ===================================================================== *)
(** ** An in-memory tree *)
(* ===================================================================== *)

Module MemTree.

(** Files by path. *)
Abbreviation Files := (gmap (list N) (list N)) (only parsing).

(** The first path segment of [p] below directory [dir], if [p] lies
    below it. *)
Definition childOf (dir p : str) : option str :=
  if startsWith (dir ++ lit "/") p then
    let below := skipn (length dir + 1) p in
    Some (match indexOf (lit "/") below with
          | Some i => firstn i below
          | None => below
          end)
  else None.

Fixpoint dedup (l : list str) : list str :=
  match l with
  | [] => []
  | x :: t => x :: List.filter (fun y => negb (str_eqb x y)) (dedup t)
  end.

Definition children (files : Files) (dir : str) : list str :=
  dedup (omap (fun kv => childOf dir (fst kv)) (map_to_list files)).

Definition exists_ (files : Files) (p : str) : bool :=
  match files !! p with
  | Some _ => true
  | None => 0 <? length (children files p)
  end.

#[global] Instance memTreeOps : TreeOps Files := {|
  tree_exists := exists_;
  tree_read := fun files p => files !! p;
  tree_write := fun files p content => <[p := content]> files;
  tree_children := children
|}.

(** Stand-ins for the devkit functions, on plain relative paths. *)
Definition joinPathFragments (parts : list str) : str := join (lit "/") parts.

Definition formatFiles : InitAuth.Gen Files unit := InitAuth.ret tt.

Definition addDependenciesToPackageJson (deps devDeps : list (str * Json))
  : InitAuth.Gen Files unit := InitAuth.ret tt.

End MemTree.

(* ===================================================================== *)
(** ** Vocabulary of the statements *)
(* ===================================================================== *)

Module Vocabulary.

Import ViteConfig.

(** Code units the parenthesis scan passes over without a change of
    state: no quote, no parenthesis, no backslash. *)
Definition inert (c : N) : bool :=
  negb (isQuote c) && negb (c =? ch "(")%N && negb (c =? ch ")")%N
  && negb (c =? backslash)%N.

(** The body of a string literal opened by [q], as the scan sees it: a
    [q] inside the body comes right after a backslash, and the closing
    quote does not. [prev] is the code unit before the body. *)
Fixpoint closesOnlyAtEnd (q prev : N) (body : list N) : bool :=
  match body with
  | [] => negb (prev =? backslash)%N
  | c :: t => (negb (c =? q)%N || (prev =? backslash)%N) && closesOnlyAtEnd q c t
  end.

(** The text of a block comment between its delimiters: it does not
    close the comment, and the parenthesis scan passes over it. *)
Definition commentBody (c : list N) : bool :=
  forallb inert c && negb (includes (lit "*/") c).

(** Argument lists that hold nothing: white space only (the call
    [analog()] included), an empty object literal, or one block comment. *)
Inductive EmptyArgs : list N -> Prop :=
| EmptyArgs_blank (w : list N) :
    forallb isWhiteSpace w = true -> EmptyArgs w
| EmptyArgs_braces (w1 w2 w3 : list N) :
    forallb isWhiteSpace w1 = true -> forallb isWhiteSpace w2 = true ->
    forallb isWhiteSpace w3 = true ->
    EmptyArgs (w1 ++ lit "{" ++ w2 ++ lit "}" ++ w3)
| EmptyArgs_comment (w1 c w2 : list N) :
    forallb isWhiteSpace w1 = true -> commentBody c = true ->
    forallb isWhiteSpace w2 = true ->
    EmptyArgs (w1 ++ lit "/*" ++ c ++ lit "*/" ++ w2).









(** Text without the replacement pattern character. *)
Definition plain (c : N) : bool := negb (c =? ch "$")%N.

(** The items of the captured noExternal array: the pieces between
    commas, trimmed, without the empty ones. *)
Definition itemsOf (noExternalContent : list N) : list (list N) :=
  List.filter (fun item => 0 <? length item)
    (List.map trim (split (ch ",") noExternalContent)).

(** Patterns made of literal text, optional white space and single
    characters, such as "ssr:\s*{": the steps of the pattern, the
    regular expression they stand for (followed by [r]), and the text
    left after the steps have consumed a prefix of the input. *)
Inductive step : Type :=
| SLit (p : list N)
| SWs
| SChr (c : N).

Fixpoint stepsRe (st : list step) (r : re) : re :=
  match st with
  | [] => r
  | SLit p :: st' => Seq (Lit p) (stepsRe st' r)
  | SWs :: st' => Seq (Star true ws) (stepsRe st' r)
  | SChr c :: st' => Seq (Chr c) (stepsRe st' r)
  end.

Fixpoint runSteps (st : list step) (s : list N) : option (list N) :=
  match st with
  | [] => Some s
  | SLit p :: st' => if startsWith p s then runSteps st' (skipn (length p) s) else None
  | SWs :: st' => runSteps st' (dropWhile isWhiteSpace s)
  | SChr c :: st' =>
      match s with
      | x :: t => if (c =? x)%N then runSteps st' t else None
      | [] => None
      end
  end.

(** Optional white space is followed by a step that starts with a code
    unit that is not white space; [endOK] tells whether the steps may end
    with optional white space. *)
Fixpoint wfSteps (endOK : bool) (st : list step) : bool :=
  match st with
  | [] => true
  | SWs :: st' =>
      match st' with
      | [] => endOK
      | SLit (h :: _) :: _ => negb (isWhiteSpace h)
      | SChr c :: _ => negb (isWhiteSpace c)
      | _ => false
      end && wfSteps endOK st'
  | SLit p :: st' => (0 <? length p) && wfSteps endOK st'
  | SChr _ :: st' => wfSteps endOK st'
  end.

(** The code unit [h] is not white space and occurs in no step. *)
Fixpoint avoids (h : N) (st : list step) : bool :=
  match st with
  | [] => negb (isWhiteSpace h)
  | SLit p :: st' => negb (existsb (N.eqb h) p) && avoids h st'
  | SWs :: st' => avoids h st'
  | SChr c :: st' => negb (c =? h)%N && avoids h st'
  end.

(** The text up to the first [d], and the text after it. *)
Fixpoint cutAt (d : N) (s : list N) : option (list N * list N) :=
  match s with
  | [] => None
  | x :: t =>
      if (d =? x)%N then Some ([], t)
      else match cutAt d t with
           | Some (g, rest) => Some (x :: g, rest)
           | None => None
           end
  end.

(** The steps of /ssr:\s*{/ and of the pattern for ssr.noExternal up to
    the opening bracket of the array. *)
Definition ssrSteps : list step := [SLit (lit "ssr:"); SWs; SChr (ch "{")].

Definition noExternalSteps : list step :=
  ssrSteps ++ [SWs; SLit (lit "noExternal:"); SWs; SChr (ch "[")].

(** The steps of /analog\s*\(/, the options of a run that asks for the
    liveReload key only, and the object written into an empty call by
    such a run. *)
Definition analogCallSteps : list step :=
  [SLit (lit "analog"); SWs; SChr (ch "(")].

Definition liveReloadOnly : Options := mkOptions (Some false) (Some false).

Definition liveReloadObject : list N :=
  lit "{" ++ nl ++ lit "        liveReload: true" ++ nl ++ lit "      }".

(** The text of vite.config after the init-auth [updateViteConfig]. *)
Definition noExternalPatched (content : list N) : list N :=
  match InitAuth.patchNoExternal content with
  | Some content' => content'
  | None => content
  end.

(** A library project and an application project in the in-memory tree. *)
Definition sampleProjects (t : gmap (list N) (list N)) (project : list N)
  : result ProjectConfiguration :=
  if str_eqb project (lit "web")
  then Ok (mkProject (lit "apps/web") (Some (lit "application")))
  else if str_eqb project (lit "ui")
  then Ok (mkProject (lit "libs/ui") (Some (lit "library")))
  else Throw (lit "Cannot find configuration for the project").

Definition sampleTree : gmap (list N) (list N) :=
  <[lit "apps/web/vite.config.ts" := lit "export default { plugins: [analog()] }"]> ∅.

(** A workspace whose nx.json has no npmScope and whose packages carry
    scoped names. *)
Definition scopedPackages : gmap (list N) (list N) :=
  <[lit "packages/auth/package.json" := lit "{ name: @analog-tools/auth }"]>
  (<[lit "packages/notes/README.md" := lit "notes"]> ∅).

Definition samplePackageJson (t : gmap (list N) (list N)) (p : list N) : result Json :=
  if str_eqb p (lit "packages/auth/package.json")
  then Ok (JObject [(lit "name", JString (lit "@analog-tools/auth"))])
  else Throw (lit "Cannot read file").

(** A vite.config that already lists the auth package. *)
Definition satisfiedTree : gmap (list N) (list N) :=
  <[lit "apps/web/vite.config.ts" :=
      lit "export default { ssr: { noExternal: ['@analog-tools/auth', 'rxjs'] } }"]> ∅.

End Vocabulary.

Import Vocabulary.

(* ===================================================================== *)
(** ** library generator: finding vite.config *)
(* ===================================================================== *)

Module ViteConfigPath.

Section WithTree.

Context {Tree : Type} `{TreeOps Tree}.

(** Node's [path.join] and [readProjectConfiguration] of [@nx/devkit]. *)
Variable path_join : list str -> str.
Variable readProjectConfiguration : Tree -> str -> result ProjectConfiguration.

(** The common locations, in the order of the source. *)
Definition standardPaths (projectName : str) : list str :=
  [ (* Add common variations first *)
    lit "apps/" ++ projectName ++ lit "/vite.config.ts";
    lit "apps/" ++ projectName ++ lit "/vite.config.js";
    lit "apps/" ++ projectName ++ lit "/vite.config.mts";
    lit "apps/" ++ projectName ++ lit "/vite.config.mjs";
    projectName ++ lit "/vite.config.ts";
    projectName ++ lit "/vite.config.js";
    projectName ++ lit "/vite.config.mts";
    projectName ++ lit "/vite.config.mjs";
    (* Add root variations later as fallback *)
    lit "vite.config.ts";
    lit "vite.config.js";
    lit "vite.config.mts";
    lit "vite.config.mjs" ].

Definition projectRootPaths (projectRoot : str) : list str :=
  [ path_join [projectRoot; lit "vite.config.ts"];
    path_join [projectRoot; lit "vite.config.js"];
    path_join [projectRoot; lit "vite.config.mts"];
    path_join [projectRoot; lit "vite.config.mjs"] ].

(** [possiblePaths] after the [try] block: the paths under the project
    root are put in front when the configuration can be read and its
    root is not the empty string. *)
Definition possiblePaths (tree : Tree) (projectName : str) : list str :=
  match readProjectConfiguration tree projectName with
  | Ok projectConfig =>
      if 0 <? length (root projectConfig)
      then projectRootPaths (root projectConfig) ++ standardPaths projectName
      else standardPaths projectName
  | Throw _ => standardPaths projectName
  end.

(** [findViteConfigPath(tree, projectName)]; [None] is [null]. *)
Definition findViteConfigPath (tree : Tree) (projectName : str) : option str :=
  List.find (fun p => tree_exists tree p) (possiblePaths tree projectName).

End WithTree.

End ViteConfigPath.

(* ===================================================================== *)
(** ** Shapes of source text *)
(* ===================================================================== *)

Module Shapes.

Import ViteConfig.

(** The body of a string literal opened by [q], as [removeComments]
    reads it: a backslash takes the next code unit with it, and no
    other [q] occurs. *)
Fixpoint stringBody (q : N) (body : list N) : bool :=
  match body with
  | [] => true
  | x :: l =>
      if (x =? backslash)%N then
        match l with
        | _ :: l' => stringBody q l'
        | [] => false
        end
      else negb (x =? q)%N && stringBody q l
  end.

(** Text with no quote and no slash: nothing for [removeComments] to
    read as a string or as a comment. *)
Definition commentFree (s : list N) : bool :=
  forallb (fun c => negb (isQuote c) && negb (c =? ch "/")%N) s.

(** Argument text whose parentheses are balanced for the parenthesis
    scan: inert code units, string literals, and nested pairs of
    parentheses around such text. *)
Inductive Balanced : list N -> Prop :=
| Balanced_nil : Balanced []
| Balanced_inert (c : N) (s : list N) :
    inert c = true -> Balanced s -> Balanced (c :: s)
| Balanced_string (q : N) (body s : list N) :
    isQuote q = true -> closesOnlyAtEnd q q body = true -> Balanced s ->
    Balanced (q :: body ++ q :: s)
| Balanced_nested (a s : list N) :
    Balanced a -> Balanced s -> Balanced (ch "(" :: a ++ ch ")" :: s).

(** Argument text as it is written in a source file: code units other
    than quotes, parentheses and backslashes; string literals; pairs of
    parentheses around such text.  A string literal is a quote, a body
    in which a backslash takes the next code unit with it and the quote
    occurs only after such a backslash, and the same quote again.  A
    literal whose body ends in a backslash (an escaped one) is not
    among them. *)
Inductive CallArguments : list N -> Prop :=
| CallArguments_nil : CallArguments []
| CallArguments_code (c : N) (s : list N) :
    inert c = true -> CallArguments s -> CallArguments (c :: s)
| CallArguments_literal (q : N) (body s : list N) :
    isQuote q = true -> stringBody q body = true ->
    endsWith [backslash] body = false -> CallArguments s ->
    CallArguments (q :: body ++ q :: s)
| CallArguments_nested (a s : list N) :
    CallArguments a -> CallArguments s ->
    CallArguments (ch "(" :: a ++ ch ")" :: s).

(** Text made of white space and comments only; a line comment ends
    with its line feed. *)
Inductive Blank : list N -> Prop :=
| Blank_nil : Blank []
| Blank_space (c : N) (s : list N) :
    isWhiteSpace c = true -> Blank s -> Blank (c :: s)
| Blank_block (c s : list N) :
    includes (lit "*/") c = false -> Blank s ->
    Blank (lit "/*" ++ c ++ lit "*/" ++ s)
| Blank_line (c s : list N) :
    existsb (N.eqb 10%N) c = false -> Blank s ->
    Blank (lit "//" ++ c ++ nl ++ s).

(** [found] is the first of the candidates that exists in the tree,
    and nothing when none of them exists. *)
Definition firstExisting {Tree : Type} `{TreeOps Tree}
    (tree : Tree) (candidates : list (list N)) (found : option (list N)) : Prop :=
  match found with
  | Some p =>
      exists before after,
        candidates = before ++ p :: after /\ tree_exists tree p = true
        /\ forallb (fun q => negb (tree_exists tree q)) before = true
  | None => forallb (fun q => negb (tree_exists tree q)) candidates = true
  end.

(** The previous code unit is not a backslash. *)
Definition unescaped (prev : option N) : Prop :=
  match prev with Some p => (p =? backslash)%N | None => false end = false.

(** A package.json that exists and is read, with a name of the form
    [scope/rest], [scope] without a slash. *)
Definition namedBy {Tree : Type} `{TreeOps Tree}
    (readJson : Tree -> list N -> result Json)
    (tree : Tree) (packageJsonPath scope : list N) : Prop :=
  exists packageJson nm rest,
    tree_exists tree packageJsonPath = true
    /\ readJson tree packageJsonPath = Ok packageJson
    /\ getProp packageJson (lit "name") = Ok (Some (JString nm))
    /\ nm = scope ++ lit "/" ++ rest
    /\ includes (lit "/") scope = false.

(** A package.json that gives no scope: it cannot be read, or it has no
    name that is a string beginning with [@] and holding a slash. *)
Definition givesNoScope {Tree : Type} `{TreeOps Tree}
    (readJson : Tree -> list N -> result Json)
    (tree : Tree) (packageJsonPath : list N) : Prop :=
  forall packageJson nm,
    readJson tree packageJsonPath = Ok packageJson ->
    getProp packageJson (lit "name") = Ok (Some (JString nm)) ->
    startsWith (lit "@") nm && includes (lit "/") nm = false.

(** [\] becomes [/]. *)
Definition slashed (c : N) : N := if (c =? backslash)%N then ch "/" else c.

(** The leftmost ssr.noExternal array of the text lists the auth
    package, in single or in double quotes. *)
Definition listsAuth (content : list N) : Prop :=
  exists m,
    exec InitAuth.noExternalRegex content = Some m
    /\ (includes InitAuth.authLiteral (InitAuth.groupText m 1) = true
        \/ includes InitAuth.authLiteralDouble (InitAuth.groupText m 1) = true).

(** Two in-memory trees hold the same files outside the given paths. *)
Definition sameElsewhere (paths : list (list N)) (t t' : gmap (list N) (list N)) : Prop :=
  forall q, ~ In q paths -> t' !! q = t !! q.

(** A step that finishes or throws, leaving the tree [t']. *)
Definition leaves {A : Type} (m : InitAuth.Gen (gmap (list N) (list N)) A)
    (t t' : gmap (list N) (list N)) : Prop :=
  (exists a, m t = (t', Ok a)) \/ (exists e, m t = (t', Throw e)).

(** A tree whose root package.json is cut short, and the fields of a
    package.json that lists two of the four required packages. *)
Definition brokenPackageTree : gmap (list N) (list N) :=
  <[lit "package.json" := lit "{"]> sampleTree.

Definition partlyInstalled : list (list N * Json) :=
  [ (lit "name", JString (lit "shop"));
    (lit "dependencies", JObject [(lit "@analog-tools/auth", JString (lit "^1.0.0"))]);
    (lit "devDependencies", JObject [(lit "@analog-tools/logger", JString (lit "^1.0.0"))]) ].

(** A project root with vite.config.js and vite.config.mts, and no
    vite.config.ts. *)
Definition twoConfigsTree : gmap (list N) (list N) :=
  <[lit "apps/web/vite.config.js" := lit "export default {}"]>
  (<[lit "apps/web/vite.config.mts" := lit "export default {}"]> ∅).

(** A library project with a vite.config.mts of its own in a workspace
    with a vite.config.ts at the root. *)
Definition libraryConfigTree : gmap (list N) (list N) :=
  <[lit "libs/ui/vite.config.mts" := lit "export default {}"]>
  (<[lit "vite.config.ts" := lit "export default {}"]> ∅).

(** A workspace none of whose package.json files names a scope: the
    root package is called shop, packages/auth is called [@auth]
    without a slash, packages/notes has no package.json, and the
    package.json of libs/ui is cut short.  Its nx.json has no npmScope. *)
Definition unscopedWorkspace : gmap (list N) (list N) :=
  <[lit "package.json" := lit "{ name: shop }"]>
  (<[lit "packages/auth/package.json" := lit "{ name: @auth }"]>
   (<[lit "packages/notes/README.md" := lit "notes"]>
    (<[lit "libs/ui/package.json" := lit "{"]> ∅))).

Definition unscopedPackageJson (t : gmap (list N) (list N)) (p : list N) : result Json :=
  if str_eqb p (lit "package.json")
  then Ok (JObject [(lit "name", JString (lit "shop"))])
  else if str_eqb p (lit "packages/auth/package.json")
  then Ok (JObject [(lit "name", JString (lit "@auth"))])
  else Throw (lit "Unexpected end of JSON input").

Definition unscopedNxJson (t : gmap (list N) (list N)) : result Json :=
  Ok (JObject [(lit "defaultBase", JString (lit "main"))]).

(** A tree in which src/app/app.config.ts is a directory. *)
Definition appConfigDirectory : gmap (list N) (list N) :=
  <[lit "apps/web/src/app/app.config.ts/index.ts" := lit "export {}"]> ∅.

End Shapes.

Import Shapes.

(* ===================================================================== *)
(** * Properties *)
(* ===================================================================== *)

Import ViteConfig.

#[local] Arguments N.eqb !n !m : simpl nomatch.
#[local] Arguments N.leb !x !y : simpl nomatch.
#[local] Arguments lit : simpl never.
#[local] Arguments ch : simpl never.

(** Literals of the source are replaced by their code units. *)
Ltac eval_lits :=
  repeat match goal with
    | |- context [lit ?s] =>
        let v := eval vm_compute in (lit s) in change (lit s) with v
    | |- context [ch ?s] =>
        let v := eval vm_compute in (ch s) in change (ch s) with v
    end.

(** Concatenations are associated to the right. *)
Ltac norm_app := repeat (progress (simpl; rewrite <- ?app_assoc)).

(** ** Strings *)

Section StringFacts.

Lemma str_eqb_refl (a : list N) : str_eqb a a = true.
Proof. induction a as [|x a IH]; simpl; [reflexivity|]. now rewrite N.eqb_refl. Qed.

Lemma str_eqb_eq (a b : list N) : str_eqb a b = true <-> a = b.
Proof.
  split; [|intros ->; apply str_eqb_refl].
  revert b; induction a as [|x a IH]; intros [|y b]; simpl; try discriminate; auto.
  intros Hxy. apply andb_prop in Hxy as [Hx Hab].
  apply N.eqb_eq in Hx. f_equal; auto.
Qed.

Lemma str_eqb_neq (a b : list N) : str_eqb a b = false <-> a <> b.
Proof.
  split.
  - intros Hf Heq. apply str_eqb_eq in Heq. congruence.
  - intros Hne. destruct (str_eqb a b) eqn:E; [|reflexivity].
    apply str_eqb_eq in E. contradiction.
Qed.

Lemma startsWith_app (p s : list N) : startsWith p (p ++ s) = true.
Proof. induction p as [|x p IH]; simpl; [reflexivity|]. now rewrite N.eqb_refl. Qed.

Lemma startsWith_prefix (p s : list N) :
  startsWith p s = true -> exists t, s = p ++ t.
Proof.
  revert s; induction p as [|x p IH]; intros s; simpl.
  - intros _. now exists s.
  - destruct s as [|y s]; [discriminate|].
    intros Hxy. apply andb_prop in Hxy as [Hx Hp].
    apply N.eqb_eq in Hx. subst y.
    destruct (IH _ Hp) as [t ->]. now exists t.
Qed.

Lemma substring_from_zero (n : nat) (s : list N) : substring 0 n s = firstn n s.
Proof. unfold substring. now rewrite Nat.max_r, Nat.min_l, Nat.sub_0_r by lia. Qed.

Lemma substring_middle (a b c : list N) :
  substring (length a) (length a + length b) (a ++ b ++ c) = b.
Proof.
  unfold substring.
  rewrite Nat.max_r, Nat.min_l by lia.
  replace (length a + length b - length a) with (length b) by lia.
  rewrite drop_app_length.
  now rewrite take_app_length.
Qed.

End StringFacts.

(** ** The project type check of the init-auth generator *)

Section InitAuthFacts.

Import InitAuth.

Context {Tree : Type} `{TreeOps Tree}.
Variable Task : Type.
Variable readJson : Tree -> list N -> result Json.
Variable readProjectConfiguration : Tree -> list N -> result ProjectConfiguration.
Variable addDependenciesToPackageJson :
  list (list N * Json) -> list (list N * Json) -> Gen Tree Task.
Variable formatFiles : Gen Tree unit.
Variable joinPathFragments : list (list N) -> list N.
Variable JSON_parse : list N -> result Json.

(** C10.  A project whose [projectType] is not ['application'] makes
    [initAuthGenerator] throw with the tree exactly as it was: no file is
    created or modified before the check.  For an application the check
    passes and the outcome is that of steps 0 to 4. *)
Theorem initAuthGenerator_application_only
    (project : list N) (tree : Tree) (cfg : ProjectConfiguration) :
  readProjectConfiguration tree project = Ok cfg ->
  (projectType cfg <> Some (lit "application") ->
   initAuthGenerator Task readJson readProjectConfiguration
     addDependenciesToPackageJson formatFiles joinPathFragments JSON_parse
     project tree
   = (tree, Throw (mustBeApplication project (projectType cfg))))
  /\ (projectType cfg = Some (lit "application") ->
      initAuthGenerator Task readJson readProjectConfiguration
        addDependenciesToPackageJson formatFiles joinPathFragments JSON_parse
        project tree
      = initAuthSteps Task readJson addDependenciesToPackageJson formatFiles
          joinPathFragments JSON_parse (root cfg) tree).
Proof.
  intros Hcfg.
  unfold initAuthGenerator, bind, getTree, liftResult. rewrite Hcfg.
  split.
  - intros Hty. destruct (projectType cfg) as [t|] eqn:Et; simpl.
    + destruct (str_eqb t (lit "application")) eqn:E; simpl; [|reflexivity].
      apply str_eqb_eq in E. congruence.
    + reflexivity.
  - intros ->. simpl. reflexivity.
Qed.

End InitAuthFacts.

Lemma initAuthGenerator_application_only_witness :
  InitAuth.initAuthGenerator unit (fun _ _ => Throw []) sampleProjects
    MemTree.addDependenciesToPackageJson MemTree.formatFiles
    MemTree.joinPathFragments (fun _ => Throw []) (lit "ui") sampleTree
  = (sampleTree,
     Throw (InitAuth.mustBeApplication (lit "ui") (Some (lit "library"))))
  /\ InitAuth.initAuthGenerator unit (fun _ _ => Throw []) sampleProjects
       MemTree.addDependenciesToPackageJson MemTree.formatFiles
       MemTree.joinPathFragments (fun _ => Throw []) (lit "web") sampleTree
     = InitAuth.initAuthSteps unit (fun _ _ => Throw [])
         MemTree.addDependenciesToPackageJson MemTree.formatFiles
         MemTree.joinPathFragments (fun _ => Throw []) (lit "apps/web") sampleTree.
Proof.
  split.
  - apply (initAuthGenerator_application_only unit (fun _ _ => Throw []) sampleProjects
             MemTree.addDependenciesToPackageJson MemTree.formatFiles
             MemTree.joinPathFragments (fun _ => Throw []) (lit "ui") sampleTree
             (mkProject (lit "libs/ui") (Some (lit "library")))).
    + reflexivity.
    + simpl. discriminate.
  - apply (initAuthGenerator_application_only unit (fun _ _ => Throw []) sampleProjects
             MemTree.addDependenciesToPackageJson MemTree.formatFiles
             MemTree.joinPathFragments (fun _ => Throw []) (lit "web") sampleTree
             (mkProject (lit "apps/web") (Some (lit "application")))).
    + reflexivity.
    + reflexivity.
Defined.

(** ** The workspace scope *)

Section WorkspaceFacts.

Import Workspace.

Context {Tree : Type} `{TreeOps Tree}.
Variable readNxJson : Tree -> result Json.
Variable readJson : Tree -> list N -> result Json.

Lemma indexOf_slash_positive (name : list N) (i : nat) :
  startsWith (lit "@") name = true ->
  indexOf (lit "/") name = Some i -> 0 < i.
Proof.
  destruct name as [|c name]; [discriminate|].
  simpl. intros Hat.
  apply andb_prop in Hat as [Hat _]. apply N.eqb_eq in Hat. subst c.
  simpl. destruct (indexOf _ name); simpl; intros [= <-]; lia.
Qed.

Lemma scopeOfName_at (name : option Json) (scope : list N) :
  scopeOfName name = Some scope -> startsWith (lit "@") scope = true.
Proof.
  unfold scopeOfName.
  destruct name as [[| | |name| |]|]; try discriminate.
  destruct (startsWith (lit "@") name) eqn:Hat; [|discriminate].
  unfold includes. destruct (indexOf (lit "/") name) as [i|] eqn:Hi; [|discriminate].
  simpl. intros [= <-].
  pose proof (indexOf_slash_positive _ _ Hat Hi) as Hpos.
  rewrite substring_from_zero.
  destruct name as [|c name]; [discriminate|].
  destruct i as [|i]; [lia|]. exact Hat.
Qed.

End WorkspaceFacts.

Section WorkspaceScope.

Import Workspace.

Context {Tree : Type} `{TreeOps Tree}.
Variable readNxJson : Tree -> result Json.
Variable readJson : Tree -> list N -> result Json.

Lemma scopeOfPackageJson_at (tree : Tree) (p scope : list N) :
  scopeOfPackageJson readJson tree p = Some scope ->
  startsWith (lit "@") scope = true.
Proof.
  unfold scopeOfPackageJson.
  destruct (readJson tree p) as [packageJson|]; [|discriminate].
  destruct (getProp packageJson (lit "name")) as [name|]; [|discriminate].
  apply scopeOfName_at.
Qed.

Lemma scanChildren_at (tree : Tree) (dir : list N) (cs : list (list N)) (scope : list N) :
  scanChildren readJson tree dir cs = Some scope ->
  startsWith (lit "@") scope = true.
Proof.
  induction cs as [|child cs IH]; simpl; [discriminate|].
  destruct (tree_exists tree _); [|exact IH].
  destruct (scopeOfPackageJson readJson tree _) as [s|] eqn:E; [|exact IH].
  intros [= <-]. eapply scopeOfPackageJson_at; eauto.
Qed.

Lemma scanPackageDirs_at (tree : Tree) (dirs : list (list N)) (scope : list N) :
  scanPackageDirs readJson tree dirs = Some scope ->
  startsWith (lit "@") scope = true.
Proof.
  induction dirs as [|dir dirs IH]; simpl; [discriminate|].
  destruct (tree_exists tree dir); [|exact IH].
  destruct (scanChildren readJson tree dir _) as [s|] eqn:E; [|exact IH].
  intros [= <-]. eapply scanChildren_at; eauto.
Qed.

(** C9.  Whatever the tree holds, a scope returned by
    [getWorkspaceScope] (a result other than [null]) begins with ['@']. *)
Theorem getWorkspaceScope_starts_with_at (tree : Tree) (scope : list N) :
  getWorkspaceScope readNxJson readJson tree = Some scope ->
  exists rest, scope = ch "@" :: rest.
Proof.
  intros Hs.
  assert (Hat : startsWith (lit "@") scope = true).
  { revert Hs. unfold getWorkspaceScope.
    set (fromNx := match readNxJson tree with Ok _ => _ | Throw _ => _ end).
    destruct fromNx as [s|].
    - destruct (startsWith (lit "@") s) eqn:E; intros [= <-]; [exact E|reflexivity].
    - destruct (scanPackageDirs readJson tree _) as [s|] eqn:E.
      + intros [= <-]. eapply scanPackageDirs_at; eauto.
      + destruct (tree_exists tree (lit "package.json")); [|discriminate].
        destruct (readJson tree (lit "package.json")) as [packageJson|]; [|discriminate].
        destruct (getProp packageJson (lit "name")) as [name|]; [|discriminate].
        apply scopeOfName_at. }
  destruct (startsWith_prefix _ _ Hat) as [rest ->]. now exists rest.
Qed.

End WorkspaceScope.

Lemma getWorkspaceScope_starts_with_at_witness :
  Workspace.getWorkspaceScope (fun _ => Ok (JObject [])) samplePackageJson scopedPackages
  = Some (lit "@analog-tools")
  /\ exists rest, lit "@analog-tools" = ch "@" :: rest.
Proof.
  split; [vm_compute; reflexivity|].
  apply (getWorkspaceScope_starts_with_at (fun _ => Ok (JObject [])) samplePackageJson
           scopedPackages (lit "@analog-tools")).
  vm_compute. reflexivity.
Defined.

(** ** The Analog plugin options of vite.config *)

Section ViteConfigFacts.

Variable path_join : list (list N) -> list N.

(** The result of [updateViteConfig] once the call and its closing
    parenthesis are found. *)
Lemma updateViteConfig_found (content libSrcRoot : list N) (options : Options)
    (m : MatchResult) :
  exec analogCallRegex content = Some m ->
  let startPos := index m + length (matched m) in
  let scan := findClosingParen content startPos in
  depth scan = 0%Z ->
  let analogContent := trim (substring startPos (endPos scan) content) in
  let pagesDirFormatted := lit "'" ++ dirUnder path_join libSrcRoot [lit "pages"] ++ lit "'" in
  let apiDirFormatted :=
    lit "'" ++ dirUnder path_join libSrcRoot [lit "backend"; lit "api"] ++ lit "'" in
  updateViteConfig path_join content libSrcRoot options
  = firstn startPos content
    ++ (if isEmptyCall analogContent
        then freshOptions (notFalse (addPages options)) (notFalse (addApi options))
               pagesDirFormatted apiDirFormatted
        else extendOptions (notFalse (addPages options)) (notFalse (addApi options))
               pagesDirFormatted apiDirFormatted analogContent)
    ++ skipn (endPos scan) content.
Proof.
  intros Hm startPos scan Hd. unfold updateViteConfig. rewrite Hm.
  fold startPos. fold scan. rewrite Hd. simpl.
  rewrite substring_from_zero. reflexivity.
Qed.

(** C4.  When the marker [analog(] does not occur, or the depth counter
    of the parenthesis scan has not returned to zero at the end of the
    input, [updateViteConfig] returns its input unchanged. *)
Theorem updateViteConfig_unbalanced_unchanged
    (content libSrcRoot : list N) (options : Options) :
  exec analogCallRegex content = None
  \/ (exists m, exec analogCallRegex content = Some m
        /\ depth (findClosingParen content (index m + length (matched m))) <> 0%Z) ->
  updateViteConfig path_join content libSrcRoot options = content.
Proof.
  intros [Hnone | [m [Hm Hd]]]; unfold updateViteConfig.
  - now rewrite Hnone.
  - rewrite Hm.
    destruct (depth (findClosingParen content (index m + length (matched m))) =? 0)%Z eqn:E.
    + apply Z.eqb_eq in E. contradiction.
    + reflexivity.
Qed.

(** C7.  An empty call [analog()] is populated with the keys in the order
    liveReload, additionalPagesDirs, additionalAPIDirs, each on a line of
    its own. *)
Theorem empty_call_key_order (libSrcRoot : list N) (options : Options) :
  updateViteConfig path_join (lit "analog()") libSrcRoot options
  = lit "analog({" ++ nl ++ lit "        liveReload: true"
    ++ (if notFalse (addPages options)
        then lit "," ++ nl ++ lit "        additionalPagesDirs: ['"
             ++ dirUnder path_join libSrcRoot [lit "pages"] ++ lit "']"
        else [])
    ++ (if notFalse (addApi options)
        then lit "," ++ nl ++ lit "        additionalAPIDirs: ['"
             ++ dirUnder path_join libSrcRoot [lit "backend"; lit "api"] ++ lit "']"
        else [])
    ++ nl ++ lit "      })".
Proof.
  rewrite (updateViteConfig_found (lit "analog()") libSrcRoot options
             (mkMatch 0 (lit "analog(") [])); [|reflexivity|reflexivity].
  change (isEmptyCall _) with true. cbv iota.
  unfold freshOptions, nl.
  destruct (notFalse (addPages options)), (notFalse (addApi options));
    eval_lits; norm_app; reflexivity.
Qed.

End ViteConfigFacts.

Lemma updateViteConfig_unbalanced_unchanged_witness :
  updateViteConfig joinSegments (lit "export default defineConfig({ plugins: [] })")
    (lit "libs/notes/src") noOptions
  = lit "export default defineConfig({ plugins: [] })"
  /\ updateViteConfig joinSegments (lit "plugins: [analog({ vite: { x: (1 } }]")
       (lit "libs/notes/src") noOptions
     = lit "plugins: [analog({ vite: { x: (1 } }]".
Proof.
  split.
  - apply (updateViteConfig_unbalanced_unchanged joinSegments).
    left. vm_compute. reflexivity.
  - apply (updateViteConfig_unbalanced_unchanged joinSegments).
    right. exists (mkMatch 10 (lit "analog(") []). split.
    + vm_compute. reflexivity.
    + vm_compute. discriminate.
Defined.

(** C5.  With [additionalPagesDirs] already present and [liveReload]
    absent, the pages edit starts again from the original argument text:
    the [liveReload: true] key inserted just before is lost. *)
Theorem pages_edit_discards_liveReload :
  updateViteConfig joinSegments (lit "analog({ additionalPagesDirs: ['a'] })")
    (lit "libs/notes/src") (mkOptions (Some true) (Some false))
  = lit "analog({ additionalPagesDirs: ['a', 'libs/notes/src/pages'] })"
  /\ includes (lit "liveReload")
       (updateViteConfig joinSegments (lit "analog({ additionalPagesDirs: ['a'] })")
          (lit "libs/notes/src") (mkOptions (Some true) (Some false))) = false
  /\ includes (lit "liveReload: true")
       (updateViteConfig joinSegments (lit "analog({ additionalAPIDirs: ['a'] })")
          (lit "libs/notes/src") (mkOptions (Some false) (Some true))) = true.
Proof. vm_compute. auto. Qed.

(** ** Whitespace and trimming *)

Section TrimFacts.

Lemma trimStart_blank_app (w s : list N) :
  forallb isWhiteSpace w = true -> trimStart (w ++ s) = trimStart s.
Proof.
  unfold trimStart. induction w as [|x w IH]; simpl; [reflexivity|].
  intros Hw. apply andb_prop in Hw as [Hx Hw]. rewrite Hx. auto.
Qed.

Lemma trimStart_solid (x : N) (s : list N) :
  isWhiteSpace x = false -> trimStart (x :: s) = x :: s.
Proof. unfold trimStart. simpl. now intros ->. Qed.

Lemma trimEnd_blank (w : list N) :
  forallb isWhiteSpace w = true -> trimEnd w = [].
Proof.
  induction w as [|x w IH]; simpl; [reflexivity|].
  intros Hw. apply andb_prop in Hw as [Hx Hw]. now rewrite IH, Hx.
Qed.

Lemma trimEnd_solid_blank (s w : list N) (y : N) :
  isWhiteSpace y = false -> forallb isWhiteSpace w = true ->
  trimEnd (s ++ y :: w) = s ++ [y].
Proof.
  intros Hy Hw. induction s as [|x s IH]; simpl.
  - now rewrite (trimEnd_blank w Hw), Hy.
  - rewrite IH. destruct s; reflexivity.
Qed.

Lemma trim_blank (w : list N) : forallb isWhiteSpace w = true -> trim w = [].
Proof.
  intros Hw. unfold trim.
  rewrite <- (app_nil_r w), (trimStart_blank_app w [] Hw). reflexivity.
Qed.

(** Trimming keeps exactly the text between the first and the last code
    unit that is not white space. *)
Lemma trim_padded (w1 w2 s : list N) (x y : N) :
  forallb isWhiteSpace w1 = true -> forallb isWhiteSpace w2 = true ->
  isWhiteSpace x = false -> isWhiteSpace y = false ->
  trim (w1 ++ (x :: s ++ [y]) ++ w2) = x :: s ++ [y].
Proof.
  intros H1 H2 Hx Hy. unfold trim.
  rewrite (trimStart_blank_app w1 _ H1).
  change ((x :: s ++ [y]) ++ w2) with (x :: (s ++ [y]) ++ w2).
  rewrite (trimStart_solid x _ Hx).
  rewrite <- app_assoc.
  apply (trimEnd_solid_blank (x :: s) w2 y Hy H2).
Qed.

Lemma trim_single (w1 w2 : list N) (x : N) :
  forallb isWhiteSpace w1 = true -> forallb isWhiteSpace w2 = true ->
  isWhiteSpace x = false ->
  trim (w1 ++ x :: w2) = [x].
Proof.
  intros H1 H2 Hx. unfold trim.
  rewrite (trimStart_blank_app w1 _ H1), (trimStart_solid x _ Hx).
  apply (trimEnd_solid_blank [] w2 x Hx H2).
Qed.

End TrimFacts.

(** ** The matcher *)

Section MatcherFacts.

Context {R : Type}.
Implicit Types (k : list N -> list (nat * list N) -> option R).

Lemma clearCaps_nil (c : list (nat * list N)) : clearCaps [] c = c.
Proof.
  unfold clearCaps. induction c as [|p c IH]; [reflexivity|].
  change (p :: List.filter (fun q => negb (existsb (Nat.eqb (fst q)) [])) c = p :: c).
  now f_equal.
Qed.

Lemma matchk_Lit (p s : list N) (c : list (nat * list N)) k :
  matchk (Lit p) s c k = if startsWith p s then k (skipn (length p) s) c else None.
Proof.
  revert s; induction p as [|x p IH]; intros s; simpl; [reflexivity|].
  destruct s as [|y s]; [reflexivity|].
  destruct (N.eqb_spec x y) as [->|Hne]; simpl; [apply IH|reflexivity].
Qed.

Lemma matchk_Lit_app (p s : list N) (c : list (nat * list N)) k :
  matchk (Lit p) (p ++ s) c k = k s c.
Proof. now rewrite matchk_Lit, startsWith_app, drop_app_length. Qed.

(** A greedy star over a character class takes the longest run, provided
    the continuation, when it fails after the longest run, also fails
    inside it. *)
Lemma starLoop_class_greedy (p : N -> bool)
    (it : list N -> list (nat * list N) ->
          (list N -> list (nat * list N) -> option R) -> option R)
    k (n : nat) (s : list N) (c : list (nat * list N)) :
  (forall s c k', it s c k' = match s with
                              | y :: t => if p y then k' t c else None
                              | [] => None
                              end) ->
  (forall x t c', p x = true ->
     k (dropWhile p t) c' = None -> k (x :: t) c' = None) ->
  length s <= n ->
  starLoop it true k n s c = k (dropWhile p s) c.
Proof.
  intros Hit Hk. revert n c. induction s as [|x t IH]; intros n c Hn.
  - destruct n; simpl; [reflexivity|]. now rewrite Hit.
  - destruct n as [|n]; [simpl in Hn; lia|].
    simpl starLoop. rewrite Hit. simpl dropWhile.
    destruct (p x) eqn:Hp; [|reflexivity].
    replace (length t <? S (length t)) with true
      by (symmetry; apply Nat.ltb_lt; lia).
    rewrite IH by (simpl in Hn; lia).
    destruct (k (dropWhile p t) c) eqn:E; [reflexivity|].
    now apply Hk.
Qed.

Lemma matchk_star_class (p : N -> bool) k (s : list N) (c : list (nat * list N)) :
  (forall x t c', p x = true ->
     k (dropWhile p t) c' = None -> k (x :: t) c' = None) ->
  matchk (Star true (Cls p)) s c k = k (dropWhile p s) c.
Proof.
  intros Hk. simpl matchk. apply starLoop_class_greedy with (p := p); auto.
  intros s0 c0 k'. simpl. now rewrite clearCaps_nil.
Qed.

Lemma dropWhile_shorter (p : N -> bool) (s : list N) :
  length (dropWhile p s) <= length s.
Proof.
  induction s as [|x s IH]; simpl; [lia|]. destruct (p x); simpl; lia.
Qed.




End MatcherFacts.

(** ** The parenthesis scan *)

Section ScannerFacts.

Lemma inert_not_quote (c : N) : inert c = true -> isQuote c = false.
Proof.
  unfold inert. intros Hc.
  repeat (apply andb_prop in Hc as [Hc ?]). now apply negb_true_iff.
Qed.

Lemma whitespace_inert (c : N) : isWhiteSpace c = true -> inert c = true.
Proof.
  unfold isWhiteSpace, inert, isQuote, backslash, dquote. eval_lits.
  intros Hws.
  destruct (N.eqb_spec c 39) as [->|_]; [discriminate|].
  destruct (N.eqb_spec c 34) as [->|_]; [discriminate|].
  destruct (N.eqb_spec c 96) as [->|_]; [discriminate|].
  destruct (N.eqb_spec c 40) as [->|_]; [discriminate|].
  destruct (N.eqb_spec c 41) as [->|_]; [discriminate|].
  destruct (N.eqb_spec c 92) as [->|_]; [discriminate|].
  reflexivity.
Qed.

Lemma scanStep_inert (prev : option N) (c : N) (st : ScanState) :
  inString st = false -> inert c = true -> scanStep prev c st = st.
Proof.
  intros Hs Hc. unfold scanStep.
  rewrite (inert_not_quote c Hc). simpl. rewrite Hs. simpl.
  unfold inert in Hc. repeat (apply andb_prop in Hc as [Hc ?]).
  repeat match goal with
         | H : negb _ = true |- _ => apply negb_true_iff in H
         end.
  repeat match goal with
         | H : (c =? _)%N = false |- _ => rewrite H
         end.
  destruct st; simpl in *; subst; reflexivity.
Qed.

Lemma last_cons_default (x : N) (p : list N) (d : option N) :
  List.last (List.map Some (x :: p)) d = List.last (List.map Some p) (Some x).
Proof.
  revert x d. induction p as [|y p IH]; intros x d; [reflexivity|].
  change (List.last (List.map Some (y :: p)) d = List.last (List.map Some (y :: p)) (Some x)).
  now rewrite !IH.
Qed.

(** The scan passes over a run of inert code units. *)
Lemma scanLoop_inert (p rest : list N) (prev : option N) (i : nat) (st : ScanState) :
  forallb inert p = true -> inString st = false -> (0 < depth st)%Z ->
  scanLoop prev (p ++ rest) i st
  = scanLoop (List.last (List.map Some p) prev) rest (i + length p) st.
Proof.
  revert prev i. induction p as [|x p IH]; intros prev i Hp Hs Hd.
  - simpl. now rewrite Nat.add_0_r.
  - apply andb_prop in Hp as [Hx Hp].
    rewrite last_cons_default. simpl app. simpl scanLoop.
    replace (depth st >? 0)%Z with true by (symmetry; apply Z.gtb_lt; lia).
    rewrite (scanStep_inert prev x st Hs Hx).
    replace (depth st =? 0)%Z with false by (symmetry; apply Z.eqb_neq; lia).
    rewrite IH by assumption. f_equal. simpl. lia.
Qed.

(** At depth one and outside a string, a closing parenthesis ends the scan. *)
Lemma scanLoop_close (rest : list N) (prev : option N) (i : nat) (st : ScanState) :
  inString st = false -> depth st = 1%Z ->
  scanLoop prev (ch ")" :: rest) i st = mkScan 0 i false (stringChar st).
Proof.
  intros Hs Hd. destruct st as [d e s q]. simpl in Hs, Hd. subst. reflexivity.
Qed.

(** Inside a string, nothing but the closing quote changes the state. *)
Lemma scanLoop_string_body (q : N) (body rest : list N) (prev : N) (i : nat)
    (st : ScanState) :
  isQuote q = true -> closesOnlyAtEnd q prev body = true ->
  inString st = true -> stringChar st = Some q -> (0 < depth st)%Z ->
  scanLoop (Some prev) (body ++ q :: rest) i st
  = scanLoop (Some q) rest (i + length body + 1)
      (mkScan (depth st) (endPos st) false None).
Proof.
  intros Hq. revert prev i. induction body as [|x body IH]; intros prev i Hb Hs Hc Hd.
  - simpl in Hb. simpl app. simpl scanLoop.
    replace (depth st >? 0)%Z with true by (symmetry; apply Z.gtb_lt; lia).
    unfold scanStep. rewrite Hq, Hb, Hs, Hc, N.eqb_refl. simpl.
    unfold isQuote in Hq.
    assert (Hp1 : (q =? ch "(")%N = false).
    { destruct (N.eqb_spec q (ch "(")) as [->|]; [discriminate Hq|reflexivity]. }
    assert (Hp2 : (q =? ch ")")%N = false).
    { destruct (N.eqb_spec q (ch ")")) as [->|]; [discriminate Hq|reflexivity]. }
    rewrite Hp1, Hp2.
    replace (depth st =? 0)%Z with false by (symmetry; apply Z.eqb_neq; lia).
    f_equal. lia.
  - simpl in Hb. apply andb_prop in Hb as [Hx Hb].
    simpl app. simpl scanLoop.
    replace (depth st >? 0)%Z with true by (symmetry; apply Z.gtb_lt; lia).
    assert (Hstep : scanStep (Some prev) x st = st).
    { unfold scanStep. rewrite Hs, Hc. simpl.
      destruct (isQuote x); simpl; [|now rewrite Hs].
      destruct (prev =? backslash)%N eqn:Hp; simpl; [now rewrite Hs|].
      rewrite orb_false_r in Hx. apply negb_true_iff in Hx. rewrite Hx.
      now rewrite Hs. }
    rewrite Hstep.
    replace (depth st =? 0)%Z with false by (symmetry; apply Z.eqb_neq; lia).
    rewrite IH by assumption. f_equal. simpl. lia.
Qed.

(** An opening quote that does not follow a backslash starts a string. *)
Lemma scanLoop_open (q : N) (rest : list N) (prev : option N) (i : nat)
    (st : ScanState) :
  isQuote q = true ->
  match prev with Some p => (p =? backslash)%N | None => false end = false ->
  inString st = false -> (0 < depth st)%Z ->
  scanLoop prev (q :: rest) i st
  = scanLoop (Some q) rest (S i) (mkScan (depth st) (endPos st) true (Some q)).
Proof.
  intros Hq Hp Hs Hd. simpl scanLoop.
  replace (depth st >? 0)%Z with true by (symmetry; apply Z.gtb_lt; lia).
  unfold scanStep. rewrite Hq, Hp, Hs. simpl.
  replace (depth st =? 0)%Z with false by (symmetry; apply Z.eqb_neq; lia).
  reflexivity.
Qed.

Lemma last_inert_not_backslash (p : list N) (d : N) :
  forallb inert p = true -> (d =? backslash)%N = false ->
  match List.last (List.map Some p) (Some d) with
  | Some x => (x =? backslash)%N
  | None => false
  end = false.
Proof.
  revert d. induction p as [|x p IH]; intros d Hp Hd; [exact Hd|].
  apply andb_prop in Hp as [Hx Hp]. rewrite last_cons_default.
  apply IH; [exact Hp|].
  unfold inert in Hx. apply andb_prop in Hx as [_ Hx]. now apply negb_true_iff.
Qed.

End ScannerFacts.

(** C3 (as stated) fails: comments are not recognised by the scan.  The
    closing parenthesis inside the block comment at index 21 is taken for
    the end of the call, which closes at index 27. *)
Lemma scanner_counts_parenthesis_in_comment :
  let content := lit "analog({ vite: {} /* ) */ })" in
  substring 18 25 content = lit "/* ) */"
  /\ nth_error content 27 = Some (ch ")")
  /\ findClosingParen content 7 = mkScan 0 21 false None
  /\ endPos (findClosingParen content 7) <> 27.
Proof. vm_compute. repeat split; discriminate. Qed.

(** ** Comment removal and the emptiness test *)

Section EmptinessFacts.

(** Text without quotes and slashes has no comment or string to read. *)
Lemma removeComments_plain (s : list N) :
  forallb (fun c => negb (isQuote c) && negb (c =? ch "/")%N) s = true ->
  removeComments s = s.
Proof.
  induction s as [|c s IH]; [reflexivity|].
  intros Hs. apply andb_prop in Hs as [Hc Hs].
  apply andb_prop in Hc as [Hq Hsl].
  apply negb_true_iff in Hq. apply negb_true_iff in Hsl.
  cbn [removeComments]. rewrite Hq.
  assert (H1 : startsWith (lit "//") (c :: s) = false).
  { eval_lits. simpl. rewrite N.eqb_sym. revert Hsl. eval_lits. now intros ->. }
  assert (H2 : startsWith (lit "/*") (c :: s) = false).
  { eval_lits. simpl. rewrite N.eqb_sym. revert Hsl. eval_lits. now intros ->. }
  rewrite H1, H2. now rewrite IH.
Qed.

Lemma removeComments_block_step (x y : N) (l : list N) :
  removeComments (ch "/" :: ch "*" :: x :: y :: l)
  = if ((x =? ch "*") && (y =? ch "/"))%N then removeComments l
    else removeComments (ch "/" :: ch "*" :: y :: l).
Proof. reflexivity. Qed.

(** A block comment is removed whole. *)
Lemma removeComments_block (c : list N) :
  includes (lit "*/") c = false ->
  removeComments (lit "/*" ++ c ++ lit "*/") = [].
Proof.
  change (lit "/*" ++ c ++ lit "*/") with (ch "/" :: ch "*" :: c ++ [ch "*"; ch "/"]).
  induction c as [|x c IH]; intros Hc; [reflexivity|].
  assert (Hrest : includes (lit "*/") c = false /\ startsWith (lit "*/") (x :: c) = false).
  { revert Hc. unfold includes. cbn [indexOf].
    destruct (startsWith (lit "*/") (x :: c)); [discriminate|].
    destruct (indexOf (lit "*/") c); [discriminate|]. auto. }
  destruct Hrest as [Hc' Hx].
  destruct c as [|y c].
  - change (removeComments (ch "/" :: ch "*" :: x :: ch "*" :: [ch "/"])
            = []).
    rewrite removeComments_block_step.
    change (ch "*" =? ch "/")%N with false. rewrite andb_false_r. reflexivity.
  - simpl app. rewrite removeComments_block_step.
    replace ((x =? ch "*") && (y =? ch "/"))%N with false.
    + apply IH. exact Hc'.
    + symmetry. revert Hx. eval_lits. simpl.
      rewrite (N.eqb_sym 42 x), (N.eqb_sym 47 y), andb_true_r. auto.
Qed.

Lemma getSubstitution_nil (m b a : list N) (n : nat) (c : list (nat * list N)) :
  getSubstitution m b a n c [] = [].
Proof. reflexivity. Qed.

Lemma dropWhile_skipn (p : N -> bool) (s : list N) :
  skipn (length s - length (dropWhile p s)) s = dropWhile p s.
Proof.
  induction s as [|x s IH]; [reflexivity|].
  simpl dropWhile. destruct (p x).
  - pose proof (dropWhile_shorter p s).
    replace (length (x :: s) - length (dropWhile p s))
      with (S (length s - length (dropWhile p s))) by (simpl; lia).
    exact IH.
  - now rewrite Nat.sub_diag.
Qed.

Lemma filter_dropWhile (p : N -> bool) (s : list N) :
  List.filter (fun c => negb (p c)) (dropWhile p s)
  = List.filter (fun c => negb (p c)) s.
Proof.
  induction s as [|x s IH]; [reflexivity|].
  simpl. destruct (p x) eqn:E; simpl; [exact IH|]. now rewrite E.
Qed.

Lemma matchHere_whitespaceRuns (s : list N) :
  matchHere whitespaceRuns s
  = match s with
    | y :: t => if isWhiteSpace y then Some (dropWhile isWhiteSpace t, []) else None
    | [] => None
    end.
Proof.
  unfold matchHere, whitespaceRuns, Plus, ws.
  destruct s as [|y t]; [reflexivity|].
  change (matchk (Seq (Cls isWhiteSpace) (Star true (Cls isWhiteSpace))) (y :: t) []
            (fun s' c => Some (s', c)))
    with (if isWhiteSpace y
          then matchk (Star true (Cls isWhiteSpace)) t [] (fun s' c => Some (s', c))
          else None).
  destruct (isWhiteSpace y); [|reflexivity].
  apply matchk_star_class. discriminate.
Qed.

(** Once a match is found, the scan resumes after it. *)
Lemma replaceAllFrom_skip (r : re) (tmpl whole : list N) (k i : nat) (s : list N) :
  k <= length s ->
  replaceAllFrom r tmpl whole k i s = replaceAllFrom r tmpl whole 0 (i + k) (skipn k s).
Proof.
  revert i s. induction k as [|k IH]; intros i s Hk.
  - now rewrite Nat.add_0_r.
  - destruct s as [|x s]; [simpl in Hk; lia|].
    simpl replaceAllFrom at 1. rewrite IH by (simpl in Hk; lia).
    simpl skipn. f_equal. lia.
Qed.

Lemma strip_whitespace_from (n : nat) (s whole : list N) (i : nat) :
  length s <= n ->
  replaceAllFrom whitespaceRuns [] whole 0 i s
  = List.filter (fun c => negb (isWhiteSpace c)) s.
Proof.
  revert s i. induction n as [|n IH]; intros s i Hle.
  - destruct s; [reflexivity|simpl in Hle; lia].
  - destruct s as [|y t]; [reflexivity|].
    cbn [replaceAllFrom]. rewrite matchHere_whitespaceRuns.
    destruct (isWhiteSpace y) eqn:Hy.
    + pose proof (dropWhile_shorter isWhiteSpace t) as Hd.
      replace (length (y :: t) - length (dropWhile isWhiteSpace t))
        with (S (length t - length (dropWhile isWhiteSpace t))) by (simpl; lia).
      rewrite getSubstitution_nil. cbn [app].
      rewrite replaceAllFrom_skip by lia.
      rewrite dropWhile_skipn.
      rewrite IH by (simpl in Hle; lia).
      cbn [List.filter]. rewrite Hy. cbn [negb]. apply filter_dropWhile.
    + cbn [List.filter]. rewrite Hy. cbn [negb]. f_equal.
      apply IH. simpl in Hle; lia.
Qed.

(** Deleting the white space runs deletes every white space code unit. *)
Lemma strip_whitespace_filter (s : list N) :
  replaceAll whitespaceRuns [] s
  = List.filter (fun c => negb (isWhiteSpace c)) s.
Proof. unfold replaceAll. now apply (strip_whitespace_from (length s)). Qed.

Lemma filter_blank (w : list N) :
  forallb isWhiteSpace w = true ->
  List.filter (fun c => negb (isWhiteSpace c)) w = [].
Proof.
  induction w as [|x w IH]; [reflexivity|].
  intros Hw. apply andb_prop in Hw as [Hx Hw]. simpl. rewrite Hx. simpl. auto.
Qed.

Lemma whitespace_plain (w : list N) :
  forallb isWhiteSpace w = true ->
  forallb (fun c => negb (isQuote c) && negb (c =? ch "/")%N) w = true.
Proof.
  induction w as [|x w IH]; [reflexivity|].
  intros Hw. apply andb_prop in Hw as [Hx Hw]. simpl. rewrite (IH Hw), andb_true_r.
  rewrite (inert_not_quote x (whitespace_inert x Hx)). simpl.
  apply negb_true_iff. destruct (N.eqb_spec x (ch "/")) as [->|]; [discriminate Hx|reflexivity].
Qed.

(** The three shapes of an empty argument list are classified as empty,
    and the scan passes over them. *)
Lemma emptyArgs_isEmptyCall (args : list N) :
  EmptyArgs args -> isEmptyCall (trim args) = true.
Proof.
  intros [w Hw | w1 w2 w3 H1 H2 H3 | w1 c w2 H1 Hc H2].
  - rewrite (trim_blank w Hw). reflexivity.
  - replace (w1 ++ lit "{" ++ w2 ++ lit "}" ++ w3)
      with (w1 ++ (ch "{" :: w2 ++ [ch "}"]) ++ w3)
      by (simpl; now rewrite <- app_assoc).
    rewrite trim_padded by (auto; reflexivity).
    unfold isEmptyCall.
    rewrite removeComments_plain.
    + rewrite strip_whitespace_filter. simpl List.filter.
      change (isWhiteSpace (ch "{")) with false. simpl.
      rewrite List.filter_app, (filter_blank w2 H2). reflexivity.
    + simpl. rewrite forallb_app, (whitespace_plain w2 H2). reflexivity.
  - apply andb_prop in Hc as [_ Hc]. apply negb_true_iff in Hc.
    replace (w1 ++ lit "/*" ++ c ++ lit "*/" ++ w2)
      with (w1 ++ (ch "/" :: (ch "*" :: c ++ [ch "*"]) ++ [ch "/"]) ++ w2)
      by (simpl; rewrite <- !app_assoc; reflexivity).
    rewrite trim_padded by (auto; reflexivity).
    unfold isEmptyCall.
    replace (ch "/" :: (ch "*" :: c ++ [ch "*"]) ++ [ch "/"])
      with (lit "/*" ++ c ++ lit "*/")
      by (simpl; rewrite <- !app_assoc; reflexivity).
    rewrite (removeComments_block c Hc). reflexivity.
Qed.

Lemma blank_inert (w : list N) :
  forallb isWhiteSpace w = true -> forallb inert w = true.
Proof.
  induction w as [|x w IH]; [reflexivity|].
  intros Hw. apply andb_prop in Hw as [Hx Hw]. simpl.
  now rewrite (whitespace_inert x Hx), (IH Hw).
Qed.

Lemma emptyArgs_inert (args : list N) :
  EmptyArgs args -> forallb inert args = true.
Proof.
  intros [w Hw | w1 w2 w3 H1 H2 H3 | w1 c w2 H1 Hc H2].
  - now apply blank_inert.
  - rewrite !forallb_app, (blank_inert w1 H1), (blank_inert w2 H2), (blank_inert w3 H3).
    reflexivity.
  - apply andb_prop in Hc as [Hc _].
    rewrite !forallb_app, (blank_inert w1 H1), Hc, (blank_inert w2 H2). reflexivity.
Qed.

End EmptinessFacts.

Section EmptyCall.

Variable path_join : list (list N) -> list N.

(** A call whose arguments hold no quote and no parenthesis ends at the
    first closing parenthesis. *)
Lemma findClosingParen_inert (pre args tail : list N) :
  forallb inert args = true ->
  findClosingParen (pre ++ lit "(" ++ args ++ lit ")" ++ tail) (length pre + 1)
  = mkScan 0 (length pre + 1 + length args) false None.
Proof.
  intros Ha. unfold findClosingParen.
  replace (0 <? length pre + 1) with true by (symmetry; apply Nat.ltb_lt; lia).
  replace (length pre + 1 - 1) with (length pre) by lia.
  eval_lits.
  rewrite nth_error_app2, Nat.sub_diag by lia. cbn [nth_error].
  replace (pre ++ [40%N] ++ args ++ [41%N] ++ tail)
    with ((pre ++ [40%N]) ++ args ++ [41%N] ++ tail)
    by now rewrite <- app_assoc.
  replace (length pre + 1) with (length (pre ++ [40%N]))
    by (rewrite length_app; reflexivity).
  rewrite drop_app_length.
  rewrite scanLoop_inert by (auto; simpl; lia).
  cbn [app].
  now rewrite (scanLoop_close tail) by reflexivity.
Qed.

(** A call whose arguments hold no quote and no parenthesis: the text
    around the arguments is kept, and the arguments, trimmed, are
    populated or extended. *)
Lemma updateViteConfig_inert_call
    (pre args tail libSrcRoot : list N) (options : Options) :
  forallb inert args = true ->
  exec analogCallRegex (pre ++ lit "analog(" ++ args ++ lit ")" ++ tail)
  = Some (mkMatch (length pre) (lit "analog(") []) ->
  let pagesDirFormatted := lit "'" ++ dirUnder path_join libSrcRoot [lit "pages"] ++ lit "'" in
  let apiDirFormatted :=
    lit "'" ++ dirUnder path_join libSrcRoot [lit "backend"; lit "api"] ++ lit "'" in
  updateViteConfig path_join (pre ++ lit "analog(" ++ args ++ lit ")" ++ tail)
    libSrcRoot options
  = pre ++ lit "analog("
    ++ (if isEmptyCall (trim args)
        then freshOptions (notFalse (addPages options)) (notFalse (addApi options))
               pagesDirFormatted apiDirFormatted
        else extendOptions (notFalse (addPages options)) (notFalse (addApi options))
               pagesDirFormatted apiDirFormatted (trim args))
    ++ lit ")" ++ tail.
Proof.
  intros Hargs Hexec pagesDirFormatted apiDirFormatted.
  assert (Hscan : findClosingParen (pre ++ lit "analog(" ++ args ++ lit ")" ++ tail)
                    (length pre + length (lit "analog("))
                  = mkScan 0 (length (pre ++ lit "analog(") + length args) false None).
  { replace (pre ++ lit "analog(" ++ args ++ lit ")" ++ tail)
      with ((pre ++ lit "analog") ++ lit "(" ++ args ++ lit ")" ++ tail)
      by (rewrite <- app_assoc; reflexivity).
    replace (length pre + length (lit "analog("))
      with (length (pre ++ lit "analog") + 1)
      by (rewrite length_app; simpl; lia).
    rewrite (findClosingParen_inert _ args tail Hargs).
    f_equal. rewrite !length_app. simpl. lia. }
  rewrite (updateViteConfig_found path_join _ libSrcRoot options _ Hexec);
    cbn [index matched]; rewrite Hscan; [|reflexivity].
  cbn [endPos]. fold pagesDirFormatted. fold apiDirFormatted.
  replace (length pre + length (lit "analog(")) with (length (pre ++ lit "analog("))
    by (rewrite length_app; reflexivity).
  replace (pre ++ lit "analog(" ++ args ++ lit ")" ++ tail)
    with ((pre ++ lit "analog(") ++ args ++ lit ")" ++ tail)
    by (rewrite <- !app_assoc; reflexivity).
  rewrite substring_middle, take_app_length.
  replace (length (pre ++ lit "analog(") + length args)
    with (length ((pre ++ lit "analog(") ++ args))
    by (rewrite !length_app; reflexivity).
  rewrite (app_assoc (pre ++ lit "analog(") args (lit ")" ++ tail)), drop_app_length.
  rewrite <- !app_assoc. reflexivity.
Qed.

(** What the call [analog()] becomes. *)
Lemma updateViteConfig_bare_call (libSrcRoot : list N) (options : Options) :
  updateViteConfig path_join (lit "analog()") libSrcRoot options
  = lit "analog("
    ++ freshOptions (notFalse (addPages options)) (notFalse (addApi options))
         (lit "'" ++ dirUnder path_join libSrcRoot [lit "pages"] ++ lit "'")
         (lit "'" ++ dirUnder path_join libSrcRoot [lit "backend"; lit "api"] ++ lit "'")
    ++ lit ")".
Proof.
  now rewrite (updateViteConfig_found path_join (lit "analog()") libSrcRoot options
                 (mkMatch 0 (lit "analog(") [])).
Qed.

(** A call whose argument list is white space only, an empty object
    literal, or one block comment without quotes and parentheses is
    populated exactly as the call [analog()] is, whatever the options:
    the text around the call is kept, and the call becomes what
    [analog()] becomes. *)
Theorem empty_arguments_populated
    (pre args tail libSrcRoot : list N) (options : Options) :
  EmptyArgs args ->
  exec analogCallRegex (pre ++ lit "analog(" ++ args ++ lit ")" ++ tail)
  = Some (mkMatch (length pre) (lit "analog(") []) ->
  updateViteConfig path_join (pre ++ lit "analog(" ++ args ++ lit ")" ++ tail)
    libSrcRoot options
  = pre ++ updateViteConfig path_join (lit "analog()") libSrcRoot options ++ tail.
Proof.
  intros Hargs Hexec.
  rewrite (updateViteConfig_inert_call pre args tail libSrcRoot options
             (emptyArgs_inert args Hargs) Hexec).
  rewrite (emptyArgs_isEmptyCall args Hargs), updateViteConfig_bare_call.
  rewrite <- !app_assoc. reflexivity.
Qed.

End EmptyCall.

(** A comment, padded white space and an empty object literal between
    the parentheses. *)
Lemma empty_arguments_populated_witness :
  updateViteConfig joinSegments (lit "plugins: [analog(/* */)]") (lit "libs/notes/src")
    noOptions
  = lit "plugins: [" ++ updateViteConfig joinSegments (lit "analog()")
                          (lit "libs/notes/src") noOptions ++ lit "]"
  /\ updateViteConfig joinSegments (lit "plugins: [analog( { } )]") (lit "libs/notes/src")
       noOptions
     = lit "plugins: [" ++ updateViteConfig joinSegments (lit "analog()")
                             (lit "libs/notes/src") noOptions ++ lit "]".
Proof.
  split.
  - apply (empty_arguments_populated joinSegments (lit "plugins: [") (lit "/* */")
             (lit "]") (lit "libs/notes/src") noOptions).
    + apply (EmptyArgs_comment [] (lit " ") []); reflexivity.
    + vm_compute. reflexivity.
  - apply (empty_arguments_populated joinSegments (lit "plugins: [") (lit " { } ")
             (lit "]") (lit "libs/notes/src") noOptions).
    + apply (EmptyArgs_braces (lit " ") (lit " ") (lit " ")); reflexivity.
    + vm_compute. reflexivity.
Defined.

(** C6.  A call whose argument list is a comment with an apostrophe is
    not populated, although the emptiness test takes its arguments for
    empty: the apostrophe opens a string for the parenthesis scan, which
    runs to the end of the text with the depth at one, and the file is
    returned as it was before the emptiness test is reached. *)
Lemma comment_with_quote_not_populated :
  updateViteConfig joinSegments (lit "analog(/* it's empty */)") (lit "libs/notes/src")
    noOptions
  = lit "analog(/* it's empty */)"
  /\ updateViteConfig joinSegments (lit "analog(/* it's empty */)")
       (lit "libs/notes/src") noOptions
     <> updateViteConfig joinSegments (lit "analog()") (lit "libs/notes/src") noOptions
  /\ removeComments (lit "/* it's empty */") = []
  /\ isEmptyCall (lit "/* it's empty */") = true
  /\ findClosingParen (lit "analog(/* it's empty */)") 7 = mkScan 1 7 true (Some (ch "'")).
Proof. vm_compute. repeat split. discriminate. Qed.

(** ** Failure of the matcher does not depend on the continuation *)

Section MatcherFailure.




End MatcherFailure.

(** ** Character classes and single steps of the matcher *)

Section ImportFacts.

Import InitAuth.

Context {R : Type}.
Implicit Types (k : list N -> list (nat * list N) -> option R).

Lemma dropWhile_run (p : N -> bool) (run stop : list N) :
  forallb p run = true -> dropWhile p (run ++ stop) = dropWhile p stop.
Proof.
  intros Hrun. induction run as [|x run IH]; simpl; [reflexivity|].
  apply andb_prop in Hrun as [Hx Hrun]. rewrite Hx. auto.
Qed.


Lemma matchk_Seq (a b : re) (s : list N) (c : list (nat * list N)) k :
  matchk (Seq a b) s c k = matchk a s c (fun s' c' => matchk b s' c' k).
Proof. reflexivity. Qed.


Lemma matchk_Chr_eq (a : N) (t : list N) (c : list (nat * list N)) k :
  matchk (Chr a) (a :: t) c k = k t c.
Proof. cbn [matchk]. now rewrite N.eqb_refl. Qed.

Lemma matchk_Chr_neq (a x : N) (t : list N) (c : list (nat * list N)) k :
  a <> x -> matchk (Chr a) (x :: t) c k = None.
Proof.
  intros Hne. cbn [matchk]. destruct (N.eqb_spec a x); [contradiction|reflexivity].
Qed.


Lemma rejects_Chr (p : N -> bool) (a : N) (r : re) k :
  p a = false ->
  forall x t c', p x = true -> matchk (Seq (Chr a) r) (x :: t) c' k = None.
Proof.
  intros Ha x t c' Hx. rewrite matchk_Seq. apply matchk_Chr_neq. congruence.
Qed.

Lemma rejects_Lit (p : N -> bool) (l : list N) (r : re) k :
  match l with a :: _ => p a | [] => true end = false ->
  forall x t c', p x = true -> matchk (Seq (Lit l) r) (x :: t) c' k = None.
Proof.
  intros Ha x t c' Hx. destruct l as [|a l]; [discriminate|].
  rewrite matchk_Seq. cbn [Lit]. rewrite matchk_Seq.
  apply matchk_Chr_neq. congruence.
Qed.



End ImportFacts.

(** ** The noExternal array of vite.config *)

Section NoExternalFacts.

Import InitAuth.

Lemma getSubstitution_plain (m b a : list N) (n : nat) (c : list (nat * list N))
    (tmpl : list N) :
  forallb plain tmpl = true -> getSubstitution m b a n c tmpl = tmpl.
Proof.
  induction tmpl as [|x t IH]; [reflexivity|].
  intros Ht. apply andb_prop in Ht as [Hx Ht].
  cbn [getSubstitution]. unfold plain in Hx. rewrite Hx. now rewrite IH.
Qed.

Lemma forallb_dropWhile (P p : N -> bool) (s : list N) :
  forallb P s = true -> forallb P (dropWhile p s) = true.
Proof.
  induction s as [|x s IH]; [reflexivity|].
  intros Hs. simpl. destruct (p x); [|exact Hs].
  apply andb_prop in Hs as [_ Hs]. auto.
Qed.

Lemma forallb_trimEnd (P : N -> bool) (s : list N) :
  forallb P s = true -> forallb P (trimEnd s) = true.
Proof.
  induction s as [|x s IH]; [reflexivity|].
  intros Hs. apply andb_prop in Hs as [Hx Hs]. specialize (IH Hs).
  simpl. destruct (trimEnd s) as [|y t].
  - destruct (isWhiteSpace x); simpl; [reflexivity|now rewrite Hx].
  - simpl. rewrite Hx. exact IH.
Qed.

Lemma forallb_trim (P : N -> bool) (s : list N) :
  forallb P s = true -> forallb P (trim s) = true.
Proof.
  intros Hs. unfold trim, trimStart. now apply forallb_trimEnd, forallb_dropWhile.
Qed.

Lemma forallb_split (P : N -> bool) (sep : N) (s : list N) :
  forallb P s = true -> forallb (forallb P) (split sep s) = true.
Proof.
  induction s as [|x s IH]; [reflexivity|].
  intros Hs. apply andb_prop in Hs as [Hx Hs]. specialize (IH Hs).
  simpl. destruct (x =? sep)%N; [exact IH|].
  destruct (split sep s) as [|p ps]; simpl; [now rewrite Hx|].
  simpl in IH. now rewrite Hx.
Qed.

Lemma forallb_join (P : N -> bool) (sep : list N) (items : list (list N)) :
  forallb P sep = true -> forallb (forallb P) items = true ->
  forallb P (join sep items) = true.
Proof.
  intros Hsep. induction items as [|x items IH]; [reflexivity|].
  intros Hi. apply andb_prop in Hi as [Hx Hi].
  simpl. destruct items as [|y items]; [exact Hx|].
  rewrite !forallb_app, Hx, Hsep. now apply IH.
Qed.

Lemma forallb_map_trim (P : N -> bool) (items : list (list N)) :
  forallb (forallb P) items = true ->
  forallb (forallb P) (List.map trim items) = true.
Proof.
  induction items as [|x items IH]; [reflexivity|].
  intros Hi. apply andb_prop in Hi as [Hx Hi]. simpl.
  now rewrite (forallb_trim P x Hx), IH.
Qed.

Lemma forallb_filter (P : list N -> bool) (f : list N -> bool) (items : list (list N)) :
  forallb P items = true -> forallb P (List.filter f items) = true.
Proof.
  induction items as [|x items IH]; [reflexivity|].
  intros Hi. apply andb_prop in Hi as [Hx Hi]. simpl.
  destruct (f x); simpl; [now rewrite Hx, IH|now apply IH].
Qed.

Lemma join_snoc (sep x : list N) (items : list (list N)) :
  join sep (items ++ [x])
  = match items with
    | [] => x
    | _ :: _ => join sep items ++ sep ++ x
    end.
Proof.
  induction items as [|y items IH]; [reflexivity|].
  destruct items as [|z items]; [reflexivity|].
  change (join sep ((y :: z :: items) ++ [x]))
    with (y ++ sep ++ join sep ((z :: items) ++ [x])).
  rewrite IH. change (join sep (y :: z :: items)) with (y ++ sep ++ join sep (z :: items)).
  now rewrite <- !app_assoc.
Qed.

(** The text written when the literal is absent from the captured
    array. *)
Lemma patchNoExternal_absent (content : list N) (m : MatchResult) :
  exec noExternalRegex content = Some m ->
  includes authLiteral (groupText m 1) || includes authLiteralDouble (groupText m 1)
  = false ->
  forallb plain (groupText m 1) = true ->
  patchNoExternal content
  = Some (firstn (index m) content
          ++ (lit "ssr: {" ++ nl ++ lit "      noExternal: ["
              ++ join (lit ", ") (itemsOf (groupText m 1) ++ [authLiteral]) ++ lit "]")
          ++ skipn (index m + length (matched m)) content).
Proof.
  intros Hm Hout Hplain. unfold patchNoExternal. rewrite Hm, Hout.
  fold (itemsOf (groupText m 1)).
  unfold replaceStr, replaceFn. rewrite Hm.
  rewrite getSubstitution_plain; [reflexivity|].
  rewrite !forallb_app.
  assert (Hitems : forallb plain
                     (join (lit ", ") (itemsOf (groupText m 1) ++ [authLiteral])) = true).
  { apply forallb_join; [reflexivity|].
    rewrite forallb_app. apply andb_true_intro. split; [|reflexivity].
    apply forallb_filter, forallb_map_trim, forallb_split. exact Hplain. }
  rewrite Hitems. reflexivity.
Qed.

Context {Tree : Type} `{TreeOps Tree}.

(** C2 (as amended).  For the array ssr.noExternal: when the quoted
    literal is in the array captured by the pattern, [updateViteConfig]
    writes nothing and the tree is unchanged; when it is absent (and the
    array holds no replacement pattern character), the match is replaced
    by [ssr: { noExternal: [items, literal]] with a comma and a space
    before the literal only when the array had items. *)
Theorem noExternal_noop_or_append (content : list N) (m : MatchResult) :
  exec noExternalRegex content = Some m ->
  (includes authLiteral (groupText m 1) || includes authLiteralDouble (groupText m 1)
   = true ->
   patchNoExternal content = None
   /\ forall (tree : Tree) (viteConfigPath : list N),
        tree_exists tree viteConfigPath = true ->
        tree_read tree viteConfigPath = Some content ->
        updateViteConfig viteConfigPath tree = (tree, Ok tt))
  /\ (includes authLiteral (groupText m 1) || includes authLiteralDouble (groupText m 1)
      = false ->
      forallb plain (groupText m 1) = true ->
      patchNoExternal content
      = Some (firstn (index m) content
              ++ lit "ssr: {" ++ nl ++ lit "      noExternal: ["
              ++ match itemsOf (groupText m 1) with
                 | [] => authLiteral
                 | _ :: _ => join (lit ", ") (itemsOf (groupText m 1))
                             ++ lit ", " ++ authLiteral
                 end
              ++ lit "]"
              ++ skipn (index m + length (matched m)) content)).
Proof.
  intros Hm. split.
  - intros Hin. assert (Hp : patchNoExternal content = None).
    { unfold patchNoExternal. now rewrite Hm, Hin. }
    split; [exact Hp|].
    intros tree path Hex Hread.
    unfold updateViteConfig, bind, getTree, readText, ret.
    rewrite Hex. cbn [negb]. now rewrite Hread, Hp.
  - intros Hout Hplain. rewrite (patchNoExternal_absent content m Hm Hout Hplain).
    rewrite join_snoc. rewrite <- !app_assoc.
    destruct (itemsOf (groupText m 1)); rewrite <- ?app_assoc; reflexivity.
Qed.

End NoExternalFacts.

(** A vite.config with the literal in the array, and one without. *)
Lemma noExternal_noop_or_append_witness :
  InitAuth.updateViteConfig (lit "apps/web/vite.config.ts") satisfiedTree
  = (satisfiedTree, Ok tt)
  /\ InitAuth.patchNoExternal (lit "ssr: { noExternal: ['zone.js' , 'rxjs'] },")
     = Some (lit "ssr: {
      noExternal: ['zone.js', 'rxjs', '@analog-tools/auth'] },")
  /\ InitAuth.patchNoExternal (lit "ssr: { noExternal: [ ] },")
     = Some (lit "ssr: {
      noExternal: ['@analog-tools/auth'] },").
Proof.
  split; [|split].
  - apply (proj1 (noExternal_noop_or_append
                    (lit "export default { ssr: { noExternal: ['@analog-tools/auth', 'rxjs'] } }")
                    (mkMatch 17 (lit "ssr: { noExternal: ['@analog-tools/auth', 'rxjs']")
                       [(1, lit "'@analog-tools/auth', 'rxjs'")])
                    ltac:(vm_compute; reflexivity)));
      vm_compute; reflexivity.
  - apply (proj2 (noExternal_noop_or_append (Tree := gmap (list N) (list N))
                    (lit "ssr: { noExternal: ['zone.js' , 'rxjs'] },")
                    (mkMatch 0 (lit "ssr: { noExternal: ['zone.js' , 'rxjs']")
                       [(1, lit "'zone.js' , 'rxjs'")])
                    ltac:(vm_compute; reflexivity)));
      vm_compute; reflexivity.
  - apply (proj2 (noExternal_noop_or_append (Tree := gmap (list N) (list N))
                    (lit "ssr: { noExternal: [ ] },")
                    (mkMatch 0 (lit "ssr: { noExternal: [ ]") [(1, lit " ")])
                    ltac:(vm_compute; reflexivity)));
      vm_compute; reflexivity.
Defined.

(** C2 (as stated) fails for the arrays of the Analog plugin options:
    there is no presence test, a directory already listed is appended
    again; and a satisfied liveReload intent still trims the argument
    text. *)
Lemma listed_directory_appended_again :
  updateViteConfig joinSegments
    (lit "analog({ liveReload: true, additionalPagesDirs: ['libs/notes/src/pages'] })")
    (lit "libs/notes/src") (mkOptions (Some true) (Some false))
  = lit "analog({ liveReload: true, additionalPagesDirs: ['libs/notes/src/pages', 'libs/notes/src/pages'] })"
  /\ updateViteConfig joinSegments (lit "analog( { liveReload: true } )")
       (lit "libs/notes/src") (mkOptions (Some false) (Some false))
     = lit "analog({ liveReload: true })".
Proof. vm_compute. split; reflexivity. Qed.

(** ** Leftmost matches *)

Section ExecFacts.

Lemma execFrom_None (r : re) (i : nat) (s : list N) :
  execFrom r i s = None -> forall j, matchHere r (skipn j s) = None.
Proof.
  revert i. induction s as [|x s IH]; intros i Hex j.
  - cbn [execFrom] in Hex. destruct (matchHere r []) as [[s' c]|] eqn:E; [discriminate|].
    now rewrite drop_nil.
  - cbn [execFrom] in Hex.
    destruct (matchHere r (x :: s)) as [[s' c]|] eqn:E; [discriminate|].
    destruct j as [|j]; [exact E|]. cbn [skipn]. now apply (IH (S i)).
Qed.

(** The leftmost position at which the pattern matches is the one
    reported. *)
Lemma execFrom_found (r : re) (i : nat) (pre t t' : list N)
    (c : list (nat * list N)) :
  matchHere r t = Some (t', c) ->
  (forall j, j < length pre -> matchHere r (skipn j (pre ++ t)) = None) ->
  execFrom r i (pre ++ t)
  = Some (mkMatch (i + length pre) (firstn (length t - length t') t) c).
Proof.
  intros Hm. revert i. induction pre as [|x pre IH]; intros i Hnone.
  - cbn [app length]. rewrite Nat.add_0_r.
    destruct t as [|y t]; cbn [execFrom]; now rewrite Hm.
  - cbn [app execFrom].
    pose proof (Hnone 0 ltac:(simpl; lia)) as H0. cbn [skipn app] in H0. rewrite H0.
    rewrite IH.
    + f_equal. f_equal. simpl. lia.
    + intros j Hj. apply (Hnone (S j)). simpl. lia.
Qed.

Lemma execFrom_inv (r : re) (i : nat) (s : list N) (m : MatchResult) :
  execFrom r i s = Some m ->
  exists pre t t',
    s = pre ++ t /\ index m = i + length pre
    /\ matchHere r t = Some (t', groups m)
    /\ matched m = firstn (length t - length t') t
    /\ forall j, j < length pre -> matchHere r (skipn j s) = None.
Proof.
  revert i. induction s as [|x s IH]; intros i Hex.
  - cbn [execFrom] in Hex. destruct (matchHere r []) as [[s' c]|] eqn:E; [|discriminate].
    injection Hex as <-. exists [], [], s'. cbn. rewrite Nat.add_0_r.
    repeat split; auto. intros j Hj. lia.
  - cbn [execFrom] in Hex.
    destruct (matchHere r (x :: s)) as [[s' c]|] eqn:E.
    + injection Hex as <-. exists [], (x :: s), s'. cbn [app length index matched groups].
      rewrite Nat.add_0_r. repeat split; auto. intros j Hj. lia.
    + destruct (IH (S i) Hex) as (pre & t & t' & -> & Hi & Hm & Hmd & Hnone).
      exists (x :: pre), t, t'. repeat split; auto.
      * rewrite Hi. simpl. lia.
      * intros [|j] Hj; [exact E|]. cbn [skipn app]. apply Hnone. simpl in Hj. lia.
Qed.

End ExecFacts.

(** ** Patterns of literal text, white space and single characters *)

Section StepFacts.

Lemma matchk_steps {R : Type} (endOK : bool) (st : list step) (r : re) :
  wfSteps endOK st = true ->
  (endOK = true ->
   forall x t c' (k : list N -> list (nat * list N) -> option R),
     isWhiteSpace x = true -> matchk r (x :: t) c' k = None) ->
  forall (s : list N) (c : list (nat * list N))
         (k : list N -> list (nat * list N) -> option R),
    matchk (stepsRe st r) s c k
    = match runSteps st s with
      | Some s' => matchk r s' c k
      | None => None
      end.
Proof.
  intros Hwf Hend. induction st as [|[p| |a] st IH]; intros s c k.
  - reflexivity.
  - cbn [wfSteps] in Hwf. apply andb_prop in Hwf as [_ Hwf].
    cbn [stepsRe runSteps]. rewrite matchk_Seq, matchk_Lit.
    destruct (startsWith p s); [apply IH; exact Hwf|reflexivity].
  - cbn [wfSteps] in Hwf. apply andb_prop in Hwf as [Hnext Hwf].
    cbn [stepsRe runSteps]. rewrite matchk_Seq. unfold ws.
    rewrite matchk_star_class.
    + apply IH; exact Hwf.
    + intros x t c' Hx _.
      destruct st as [|[[|h p]| |b] st']; try discriminate.
      * cbn [stepsRe]. apply Hend; auto.
      * apply negb_true_iff in Hnext. cbn [stepsRe].
        apply rejects_Lit with (p := isWhiteSpace); auto.
      * apply negb_true_iff in Hnext. cbn [stepsRe].
        apply rejects_Chr with (p := isWhiteSpace); auto.
  - cbn [wfSteps] in Hwf.
    cbn [stepsRe runSteps]. rewrite matchk_Seq. cbn [matchk].
    destruct s as [|x t]; [reflexivity|].
    destruct (a =? x)%N; [apply IH; exact Hwf|reflexivity].
Qed.

Lemma runSteps_app (st1 st2 : list step) (s : list N) :
  runSteps (st1 ++ st2) s
  = match runSteps st1 s with
    | Some s' => runSteps st2 s'
    | None => None
    end.
Proof.
  revert s. induction st1 as [|[p| |a] st1 IH]; intros s; cbn [app runSteps].
  - reflexivity.
  - destruct (startsWith p s); [apply IH|reflexivity].
  - apply IH.
  - destruct s as [|x t]; [reflexivity|]. destruct (a =? x)%N; [apply IH|reflexivity].
Qed.

(** What the steps leave is a suffix of the input. *)
Lemma runSteps_suffix (st : list step) (s r : list N) :
  runSteps st s = Some r -> exists u, s = u ++ r.
Proof.
  revert s. induction st as [|[p| |a] st IH]; intros s; cbn [runSteps].
  - intros [= <-]. now exists [].
  - destruct (startsWith p s) eqn:Hp; [|discriminate].
    intros Hr. destruct (IH _ Hr) as [u Hu].
    exists (firstn (length p) s ++ u).
    rewrite <- app_assoc, <- Hu. now rewrite take_drop.
  - intros Hr. destruct (IH _ Hr) as [u Hu].
    pose proof (dropWhile_skipn isWhiteSpace s) as Hd.
    set (n := length s - length (dropWhile isWhiteSpace s)) in Hd.
    exists (firstn n s ++ u).
    rewrite <- app_assoc, <- Hu, <- Hd. now rewrite take_drop.
  - destruct s as [|x t]; [discriminate|].
    destruct (a =? x)%N; [|discriminate].
    intros Hr. destruct (IH _ Hr) as [u Hu]. exists (x :: u). now rewrite Hu.
Qed.

Lemma startsWith_app_long (p a z : list N) :
  startsWith p a = true -> startsWith p (a ++ z) = true.
Proof.
  revert a. induction p as [|x p IH]; intros a; [reflexivity|].
  destruct a as [|y a]; [discriminate|]. cbn [startsWith app].
  intros Hxy. apply andb_prop in Hxy as [Hx Hp]. rewrite Hx. cbn. now apply IH.
Qed.

Lemma startsWith_length (p a : list N) :
  startsWith p a = true -> length p <= length a.
Proof.
  revert a. induction p as [|x p IH]; intros a; [simpl; lia|].
  destruct a as [|y a]; [discriminate|]. cbn [startsWith].
  intros Hxy. apply andb_prop in Hxy as [_ Hp]. specialize (IH _ Hp). simpl. lia.
Qed.

Lemma dropWhile_app_solid (p : N -> bool) (a z : list N) :
  0 < length (dropWhile p a) -> dropWhile p (a ++ z) = dropWhile p a ++ z.
Proof.
  induction a as [|x a IH]; cbn [dropWhile app length]; [lia|].
  destruct (p x); [exact IH|reflexivity].
Qed.

(** Steps that succeed on a text succeed on every extension of it, and
    leave the extension untouched. *)
Lemma runSteps_extend (st : list step) (a a' z : list N) :
  wfSteps false st = true ->
  runSteps st a = Some a' -> runSteps st (a ++ z) = Some (a' ++ z).
Proof.
  revert a. induction st as [|[p| |b] st IH]; intros a Hwf; cbn [runSteps].
  - now intros [= <-].
  - cbn [wfSteps] in Hwf. apply andb_prop in Hwf as [_ Hwf].
    destruct (startsWith p a) eqn:Hp; [|discriminate].
    rewrite (startsWith_app_long p a z Hp).
    rewrite skipn_app.
    replace (length p - length a) with 0 by (apply startsWith_length in Hp; lia).
    cbn [skipn]. now apply IH.
  - cbn [wfSteps] in Hwf. apply andb_prop in Hwf as [Hnext Hwf].
    intros Hr.
    assert (Hpos : 0 < length (dropWhile isWhiteSpace a)).
    { destruct (dropWhile isWhiteSpace a) as [|y t]; [|simpl; lia].
      destruct st as [|[[|h p]| |c] st']; try discriminate; cbn [runSteps] in Hr;
        discriminate. }
    rewrite dropWhile_app_solid by exact Hpos. now apply IH.
  - cbn [wfSteps] in Hwf.
    destruct a as [|x t]; [discriminate|]. cbn [app].
    destruct (b =? x)%N; [|discriminate]. now apply IH.
Qed.

Lemma startsWith_app_barrier (p a y : list N) (h : N) :
  existsb (N.eqb h) p = false ->
  startsWith p (a ++ h :: y) = true -> startsWith p a = true.
Proof.
  revert a. induction p as [|x p IH]; intros a Hh; [reflexivity|].
  cbn [existsb] in Hh. apply orb_false_elim in Hh as [Hhx Hh].
  destruct a as [|z a]; cbn [app startsWith].
  - rewrite N.eqb_sym, Hhx. discriminate.
  - intros Hxz. apply andb_prop in Hxz as [Hx Hp]. rewrite Hx. cbn. now apply IH.
Qed.

Lemma dropWhile_app_barrier (p : N -> bool) (a y : list N) (h : N) :
  p h = false -> dropWhile p (a ++ h :: y) = dropWhile p a ++ h :: y.
Proof.
  intros Hh. induction a as [|x a IH]; cbn [app dropWhile].
  - now rewrite Hh.
  - destruct (p x); [exact IH|reflexivity].
Qed.

(** A code unit that no step can consume stops the steps: if they
    succeed, they do so before it. *)
Lemma runSteps_barrier (st : list step) (a y r : list N) (h : N) :
  avoids h st = true ->
  runSteps st (a ++ h :: y) = Some r ->
  exists a', runSteps st a = Some a' /\ r = a' ++ h :: y.
Proof.
  revert a. induction st as [|[p| |b] st IH]; intros a Hav; cbn [runSteps].
  - intros [= <-]. now exists a.
  - cbn [avoids] in Hav. apply andb_prop in Hav as [Hp Hav].
    apply negb_true_iff in Hp.
    destruct (startsWith p (a ++ h :: y)) eqn:E; [|discriminate].
    pose proof (startsWith_app_barrier p a y h Hp E) as Ha. rewrite Ha.
    rewrite skipn_app.
    replace (length p - length a) with 0 by (apply startsWith_length in Ha; lia).
    cbn [skipn]. now apply IH.
  - cbn [avoids] in Hav.
    assert (Hws : isWhiteSpace h = false).
    { clear -Hav. induction st as [|[p| |b] st IH]; cbn [avoids] in Hav.
      - now apply negb_true_iff.
      - apply andb_prop in Hav as [_ Hav]. auto.
      - auto.
      - apply andb_prop in Hav as [_ Hav]. auto. }
    rewrite (dropWhile_app_barrier isWhiteSpace a y h Hws). now apply IH.
  - cbn [avoids] in Hav. apply andb_prop in Hav as [Hb Hav].
    apply negb_true_iff in Hb.
    destruct a as [|x t]; cbn [app].
    + rewrite Hb. discriminate.
    + destruct (b =? x)%N; [|discriminate]. now apply IH.
Qed.

End StepFacts.

(** ** The lazy group up to a closing character *)

Section LazyCut.

Lemma cutAt_split (d : N) (s g rest : list N) :
  cutAt d s = Some (g, rest) ->
  s = g ++ d :: rest /\ existsb (N.eqb d) g = false.
Proof.
  revert g. induction s as [|x s IH]; intros g; cbn [cutAt]; [discriminate|].
  destruct (N.eqb_spec d x) as [->|Hne].
  - intros [= <- <-]. split; reflexivity.
  - destruct (cutAt d s) as [[g' rest']|]; [|discriminate].
    intros [= <- <-]. destruct (IH g' eq_refl) as [-> Hg]. split; [reflexivity|].
    cbn [existsb]. rewrite Hg, orb_false_r. now apply N.eqb_neq.
Qed.

Lemma cutAt_found (d : N) (g rest : list N) :
  existsb (N.eqb d) g = false -> cutAt d (g ++ d :: rest) = Some (g, rest).
Proof.
  induction g as [|x g IH]; cbn [existsb app cutAt].
  - now rewrite N.eqb_refl.
  - intros Hg. apply orb_false_elim in Hg as [Hx Hg]. rewrite Hx. now rewrite IH.
Qed.

Lemma cutAt_member (d : N) (a b : list N) :
  exists g rest, cutAt d (a ++ d :: b) = Some (g, rest).
Proof.
  induction a as [|x a (g & rest & IH)]; cbn [app cutAt].
  - rewrite N.eqb_refl. now exists [], b.
  - destruct (d =? x)%N; [now exists [], (a ++ d :: b)|].
    rewrite IH. now exists (x :: g), rest.
Qed.

(** The lazy star stops at the first place where the rest of the
    pattern matches; [whole] is the input at the start of the group. *)
Lemma starLoop_lazy_cut (i : nat) (d : N) (whole g0 s1 : list N)
    (c : list (nat * list N)) (n : nat) :
  whole = g0 ++ s1 -> length s1 <= n ->
  starLoop
    (fun s c k => matchk (Cls (fun _ => true)) s (clearCaps [] c) k) false
    (fun s' c' =>
       matchk (Chr d) s' ((i, firstn (length whole - length s') whole) :: c')
         (fun s'' c'' => Some (s'', c'')))
    n s1 c
  = match cutAt d s1 with
    | Some (g, rest) => Some (rest, (i, g0 ++ g) :: c)
    | None => None
    end.
Proof.
  intros Hw. revert g0 n c Hw. induction s1 as [|x t IH]; intros g0 n c Hw Hn.
  - destruct n; reflexivity.
  - destruct n as [|n]; [simpl in Hn; lia|].
    cbn [starLoop matchk cutAt].
    assert (Hg0 : firstn (length whole - length (x :: t)) whole = g0).
    { rewrite Hw, length_app.
      replace (length g0 + length (x :: t) - length (x :: t)) with (length g0) by lia.
      apply take_app_length. }
    rewrite Hg0.
    destruct (d =? x)%N; [now rewrite app_nil_r|].
    rewrite clearCaps_nil.
    replace (length t <? length (x :: t)) with true
      by (symmetry; apply Nat.ltb_lt; simpl; lia).
    rewrite (IH (g0 ++ [x])).
    + destruct (cutAt d t) as [[g rest]|]; [|reflexivity].
      now rewrite <- app_assoc.
    + rewrite Hw, <- app_assoc. reflexivity.
    + simpl in Hn. lia.
Qed.

Lemma matchHere_lazy_group (d : N) (s : list N) (c : list (nat * list N)) :
  matchk (Seq (Group 1 (Star false any)) (Chr d)) s c (fun s' c' => Some (s', c'))
  = match cutAt d s with
    | Some (g, rest) => Some (rest, (1, g) :: c)
    | None => None
    end.
Proof.
  exact (starLoop_lazy_cut 1 d s [] s c (length s) eq_refl (Nat.le_refl _)).
Qed.

End LazyCut.

(** ** The pattern for ssr.noExternal *)

Section NoExternalPattern.

Import InitAuth.

Lemma noExternalRegex_steps :
  noExternalRegex
  = stepsRe noExternalSteps (Seq (Group 1 (Star false any)) (Chr (ch "]"))).
Proof. reflexivity. Qed.

Lemma ssrRegex_steps : ssrRegex = stepsRe [SLit (lit "ssr:"); SWs] (Chr (ch "{")).
Proof. reflexivity. Qed.

(** Where the pattern matches: after the steps, up to the first closing
    bracket. *)
Lemma matchHere_noExternal (s : list N) :
  matchHere noExternalRegex s
  = match runSteps noExternalSteps s with
    | Some s1 =>
        match cutAt (ch "]") s1 with
        | Some (g, rest) => Some (rest, [(1, g)])
        | None => None
        end
    | None => None
    end.
Proof.
  unfold matchHere. rewrite noExternalRegex_steps.
  rewrite (matchk_steps false) by (reflexivity || discriminate).
  destruct (runSteps noExternalSteps s) as [s1|]; [|reflexivity].
  apply matchHere_lazy_group.
Qed.

Lemma matchHere_ssr (s : list N) :
  matchHere ssrRegex s
  = match runSteps ssrSteps s with
    | Some rest => Some (rest, [])
    | None => None
    end.
Proof.
  unfold matchHere. rewrite ssrRegex_steps.
  rewrite (matchk_steps true);
    [|reflexivity
     |intros _ x t c' k Hx; apply matchk_Chr_neq; intros <-; discriminate Hx].
  change ssrSteps with ([SLit (lit "ssr:"); SWs] ++ [SChr (ch "{")]).
  rewrite runSteps_app.
  destruct (runSteps [SLit (lit "ssr:"); SWs] s) as [s1|]; [|reflexivity].
  cbn [matchk runSteps]. destruct s1 as [|x t]; [reflexivity|].
  destruct (ch "{" =? x)%N; reflexivity.
Qed.

(** A text that starts with "ssr:" cannot complete an "ssr:" begun
    before it. *)
Lemma ssr_not_straddling (v y : list N) :
  0 < length v -> startsWith (lit "ssr:") y = true ->
  startsWith (lit "ssr:") (v ++ y) = true ->
  startsWith (lit "ssr:") v = true.
Proof.
  intros Hv Hy. apply startsWith_prefix in Hy as [y' ->].
  destruct v as [|a [|b [|c0 [|d v]]]]; cbn [length] in Hv; try lia;
    eval_lits; cbn [app startsWith];
    repeat match goal with
           | |- context [(?n =? ?x)%N] =>
               is_var x; destruct (N.eqb_spec n x) as [<-|]; cbn [andb]
           end; try discriminate; auto.
Qed.

(** The steps of the pattern do not reach into a following "ssr:". *)
Lemma noExternalSteps_local (v y r : list N) :
  0 < length v -> startsWith (lit "ssr:") y = true ->
  runSteps noExternalSteps (v ++ y) = Some r ->
  exists v', runSteps noExternalSteps v = Some v' /\ r = v' ++ y.
Proof.
  intros Hv Hy.
  change noExternalSteps
    with (SLit (lit "ssr:")
          :: [SWs; SChr (ch "{"); SWs; SLit (lit "noExternal:"); SWs; SChr (ch "[")]).
  cbn [runSteps].
  destruct (startsWith (lit "ssr:") (v ++ y)) eqn:E; [|discriminate].
  pose proof (ssr_not_straddling v y Hv Hy E) as Hvs. rewrite Hvs.
  rewrite skipn_app.
  replace (length (lit "ssr:") - length v) with 0
    by (apply startsWith_length in Hvs; lia).
  cbn [skipn].
  destruct (startsWith_prefix _ _ Hy) as [y' ->].
  change (lit "ssr:" ++ y') with (ch "s" :: lit "sr:" ++ y').
  apply (runSteps_barrier
           [SWs; SChr (ch "{"); SWs; SLit (lit "noExternal:"); SWs; SChr (ch "[")]).
  reflexivity.
Qed.

End NoExternalPattern.

(** ** Patching ssr.noExternal twice *)

Section NoExternalTwice.

Import InitAuth.

Lemma indexOf_app_found (p a s : list N) :
  startsWith p s = true -> includes p (a ++ s) = true.
Proof.
  intros Hp. unfold includes. induction a as [|x a IH]; cbn [app].
  - destruct s; cbn [indexOf]; now rewrite Hp.
  - cbn [indexOf]. destruct (startsWith p (x :: a ++ s)); [reflexivity|].
    destruct (indexOf p (a ++ s)); [reflexivity|discriminate].
Qed.

Lemma includes_join_last (sep x : list N) (items : list (list N)) :
  includes x (join sep (items ++ [x])) = true.
Proof.
  rewrite join_snoc. destruct items as [|y items].
  - rewrite <- (app_nil_l x) at 2. apply indexOf_app_found.
    rewrite <- (app_nil_r x) at 2. apply startsWith_app.
  - rewrite app_assoc. apply indexOf_app_found.
    rewrite <- (app_nil_r x) at 2. apply startsWith_app.
Qed.

Lemma skipn_app_short (j : nat) (pre t : list N) :
  j < length pre -> skipn j (pre ++ t) = skipn j pre ++ t /\ 0 < length (skipn j pre).
Proof.
  intros Hj. rewrite skipn_app.
  replace (j - length pre) with 0 by lia. cbn [skipn].
  split; [reflexivity|]. rewrite length_skipn. lia.
Qed.

(** Once the leftmost match of the pattern holds the literal, the
    function returns without writing. *)
Lemma patchNoExternal_satisfied (pre t2 g rest : list N) :
  matchHere noExternalRegex t2 = Some (rest, [(1, g)]) ->
  includes authLiteral g = true ->
  (forall j, j < length pre -> matchHere noExternalRegex (skipn j (pre ++ t2)) = None) ->
  patchNoExternal (pre ++ t2) = None.
Proof.
  intros Hm Hg Hnone. unfold patchNoExternal, exec.
  rewrite (execFrom_found noExternalRegex 0 pre t2 rest [(1, g)] Hm Hnone).
  unfold groupText, group. cbn [groups capture Nat.eqb]. now rewrite Hg.
Qed.

(** A match of the pattern before a text that starts with "ssr:" is a
    match in any other text with a closing bracket after it. *)
Lemma noExternal_earlier (v y t : list N) :
  0 < length v -> startsWith (lit "ssr:") y = true ->
  (exists a b, t = a ++ ch "]" :: b) ->
  matchHere noExternalRegex (v ++ t) = None ->
  matchHere noExternalRegex (v ++ y) = None.
Proof.
  intros Hv Hy (a & b & ->) Hnone.
  rewrite matchHere_noExternal in *.
  destruct (runSteps noExternalSteps (v ++ y)) as [r|] eqn:Er; [|reflexivity].
  destruct (noExternalSteps_local v y r Hv Hy Er) as (v' & Hv' & ->).
  rewrite (runSteps_extend noExternalSteps v v' (a ++ ch "]" :: b) eq_refl Hv') in Hnone.
  rewrite app_assoc in Hnone.
  destruct (cutAt_member (ch "]") (v' ++ a) b) as (g & rest & Hcut).
  rewrite Hcut in Hnone. discriminate.
Qed.

(** ... and a match of /ssr:\s*{/ in any other text. *)
Lemma ssr_earlier (v y t : list N) :
  0 < length v -> startsWith (lit "ssr:") y = true ->
  matchHere ssrRegex (v ++ t) = None ->
  matchHere noExternalRegex (v ++ y) = None.
Proof.
  intros Hv Hy Hnone.
  rewrite matchHere_noExternal. rewrite matchHere_ssr in Hnone.
  destruct (runSteps noExternalSteps (v ++ y)) as [r|] eqn:Er; [|reflexivity].
  destruct (noExternalSteps_local v y r Hv Hy Er) as (v' & Hv' & ->).
  unfold noExternalSteps in Hv'. rewrite runSteps_app in Hv'.
  destruct (runSteps ssrSteps v) as [v1|] eqn:E1; [|discriminate].
  rewrite (runSteps_extend ssrSteps v v1 t eq_refl E1) in Hnone. discriminate.
Qed.

Lemma not_closing_bracket_plain :
  forall g : list N, existsb (N.eqb (ch "]")) g = false ->
    forallb (fun c => negb (c =? ch "]")%N) g = true.
Proof.
  induction g as [|x g IH]; [reflexivity|].
  cbn [existsb forallb]. intros Hg. apply orb_false_elim in Hg as [Hx Hg].
  rewrite N.eqb_sym in Hx. rewrite Hx. cbn. auto.
Qed.

Lemma plain_not_closing_bracket :
  forall g : list N, forallb (fun c => negb (c =? ch "]")%N) g = true ->
    existsb (N.eqb (ch "]")) g = false.
Proof.
  induction g as [|x g IH]; [reflexivity|].
  cbn [existsb forallb]. intros Hg. apply andb_prop in Hg as [Hx Hg].
  apply negb_true_iff in Hx. rewrite N.eqb_sym, Hx. cbn. auto.
Qed.

Lemma runSteps_written (x : list N) :
  runSteps noExternalSteps (lit "ssr: {" ++ nl ++ lit "      noExternal: [" ++ x)
  = Some x.
Proof. reflexivity. Qed.

(** The text written by the function matches the pattern, with the
    items written as the array. *)
Lemma matchHere_written (g rest : list N) :
  existsb (N.eqb (ch "]")) g = false ->
  matchHere noExternalRegex
    ((lit "ssr: {" ++ nl ++ lit "      noExternal: [" ++ g ++ lit "]") ++ rest)
  = Some (rest, [(1, g)]).
Proof.
  intros Hg. rewrite matchHere_noExternal.
  replace ((lit "ssr: {" ++ nl ++ lit "      noExternal: [" ++ g ++ lit "]") ++ rest)
    with (lit "ssr: {" ++ nl ++ lit "      noExternal: [" ++ (g ++ ch "]" :: rest)).
  - rewrite runSteps_written. now rewrite cutAt_found.
  - rewrite <- !app_assoc. reflexivity.
Qed.

(** Case: the array was found without the literal. *)
Lemma noExternal_twice_appended (content : list N) (m : MatchResult) :
  exec noExternalRegex content = Some m ->
  includes authLiteral (groupText m 1) || includes authLiteralDouble (groupText m 1)
  = false ->
  forallb plain (groupText m 1) = true ->
  forall content', patchNoExternal content = Some content' ->
    patchNoExternal content' = None.
Proof.
  intros Hm Hout Hplain content'.
  rewrite (patchNoExternal_absent content m Hm Hout Hplain). intros [= <-].
  destruct (execFrom_inv _ _ _ _ Hm) as (pre & t & t' & -> & Hi & Hmt & Hmd & Hnone).
  cbn [Nat.add] in Hi.
  rewrite matchHere_noExternal in Hmt.
  destruct (runSteps noExternalSteps t) as [s1|] eqn:Es1; [|discriminate].
  destruct (cutAt (ch "]") s1) as [[g rest]|] eqn:Ecut; [|discriminate].
  injection Hmt as <- Hg.
  assert (Hgt : groupText m 1 = g).
  { unfold groupText, group. now rewrite <- Hg. }
  rewrite Hgt in *.
  destruct (cutAt_split _ _ _ _ Ecut) as [-> Hnob].
  destruct (runSteps_suffix _ _ _ Es1) as [u ->].
  assert (Hmlen : length (matched m) = length u + length g + 1).
  { rewrite Hmd, firstn_length_le; rewrite !length_app; simpl; lia. }
  set (itemsStr := join (lit ", ") (itemsOf g ++ [authLiteral])).
  rewrite Hi, take_app_length.
  replace (length pre + length (matched m))
    with (length (pre ++ (u ++ g) ++ [ch "]"])) by (rewrite !length_app; simpl; lia).
  replace (pre ++ u ++ g ++ ch "]" :: rest)
    with ((pre ++ (u ++ g) ++ [ch "]"]) ++ rest)
    by (rewrite <- !app_assoc; reflexivity).
  rewrite drop_app_length.
  apply (patchNoExternal_satisfied pre _ itemsStr rest).
  - apply matchHere_written.
    apply plain_not_closing_bracket. apply forallb_join; [reflexivity|].
    rewrite forallb_app. apply andb_true_intro. split; [|reflexivity].
    apply forallb_filter, forallb_map_trim, forallb_split.
    now apply not_closing_bracket_plain.
  - apply includes_join_last.
  - intros j Hj.
    match goal with
    | |- matchHere _ (skipn j (pre ++ ?X)) = None =>
        destruct (skipn_app_short j pre X Hj) as [-> Hv]
    end.
    apply (noExternal_earlier (skipn j pre) _ (u ++ g ++ ch "]" :: rest) Hv).
    + reflexivity.
    + exists (u ++ g), rest. now rewrite <- app_assoc.
    + destruct (skipn_app_short j pre (u ++ g ++ ch "]" :: rest) Hj) as [<- _].
      now apply Hnone.
Qed.

(** Case: an ssr section without noExternal. *)
Lemma noExternal_twice_ssr (content : list N) (m : MatchResult) :
  exec ssrRegex content = Some m ->
  patchNoExternal
    (replaceStr ssrRegex
       (lit "ssr: {" ++ nl ++ lit "      noExternal: ['@analog-tools/auth'],") content)
  = None.
Proof.
  intros Hm. unfold replaceStr, replaceFn. rewrite Hm.
  rewrite getSubstitution_plain by reflexivity.
  destruct (execFrom_inv _ _ _ _ Hm) as (pre & t & t' & -> & Hi & Hmt & Hmd & Hnone).
  cbn [Nat.add] in Hi.
  rewrite matchHere_ssr in Hmt.
  destruct (runSteps ssrSteps t) as [r|] eqn:Er; [|discriminate].
  injection Hmt as <- _.
  destruct (runSteps_suffix _ _ _ Er) as [u ->].
  assert (Hmlen : length (matched m) = length u).
  { rewrite Hmd, firstn_length_le; rewrite !length_app; lia. }
  rewrite Hi, take_app_length, Hmlen.
  replace (length pre + length u) with (length (pre ++ u)) by (rewrite length_app; lia).
  rewrite (app_assoc pre u r), drop_app_length.
  change (lit "ssr: {" ++ nl ++ lit "      noExternal: ['@analog-tools/auth'],")
    with ((lit "ssr: {" ++ nl ++ lit "      noExternal: [" ++ authLiteral ++ lit "]")
          ++ lit ",").
  rewrite <- List.app_assoc.
  apply (patchNoExternal_satisfied pre _ authLiteral (lit "," ++ r)).
  - now apply matchHere_written.
  - reflexivity.
  - intros j Hj.
    match goal with
    | |- matchHere _ (skipn j (pre ++ ?X)) = None =>
        destruct (skipn_app_short j pre X Hj) as [-> Hv]
    end.
    apply (ssr_earlier (skipn j pre) _ (u ++ r) Hv); [reflexivity|].
    destruct (skipn_app_short j pre (u ++ r) Hj) as [<- _].
    now apply Hnone.
Qed.

Lemma matchHere_noExternal_needs_ssr (s : list N) :
  startsWith (lit "ssr:") s = false -> matchHere noExternalRegex s = None.
Proof.
  intros Hs. rewrite matchHere_noExternal.
  change noExternalSteps
    with (SLit (lit "ssr:")
          :: [SWs; SChr (ch "{"); SWs; SLit (lit "noExternal:"); SWs; SChr (ch "[")]).
  cbn [runSteps]. now rewrite Hs.
Qed.

(** Case: no ssr section, inserted before the build section. *)
Lemma noExternal_twice_build (content : list N) (m : MatchResult) :
  includes (lit "ssr:") content = false ->
  exec buildRegex content = Some m ->
  patchNoExternal
    (sliceTo (index m) content
     ++ (nl ++ lit "    ssr: {" ++ nl ++ lit "      noExternal: ['@analog-tools/auth'],"
         ++ nl ++ lit "    }," ++ nl ++ nl ++ lit "    ")
     ++ substringFrom (index m) content)
  = None.
Proof.
  intros Hno Hm.
  destruct (execFrom_inv _ _ _ _ Hm) as (pre & t & t' & -> & Hi & _).
  cbn [Nat.add] in Hi. unfold sliceTo, substringFrom.
  rewrite Hi, take_app_length, drop_app_length.
  change (nl ++ lit "    ssr: {" ++ nl ++ lit "      noExternal: ['@analog-tools/auth'],"
          ++ nl ++ lit "    }," ++ nl ++ nl ++ lit "    ")
    with ((nl ++ lit "    ")
          ++ (lit "ssr: {" ++ nl ++ lit "      noExternal: [" ++ authLiteral ++ lit "]")
          ++ (lit "," ++ nl ++ lit "    }," ++ nl ++ nl ++ lit "    ")).
  match goal with
  | |- patchNoExternal (pre ++ (?pad ++ ?W ++ ?tl) ++ t) = None =>
      replace (pre ++ (pad ++ W ++ tl) ++ t) with ((pre ++ pad) ++ W ++ (tl ++ t))
        by (rewrite <- !List.app_assoc; reflexivity)
  end.
  apply (patchNoExternal_satisfied (pre ++ nl ++ lit "    ") _ authLiteral
           ((lit "," ++ nl ++ lit "    }," ++ nl ++ nl ++ lit "    ") ++ t)).
  - now apply matchHere_written.
  - reflexivity.
  - intros j Hj. apply matchHere_noExternal_needs_ssr.
    destruct (Nat.lt_ge_cases j (length pre)) as [Hlt|Hge].
    + rewrite <- (app_assoc pre).
      match goal with
      | |- startsWith _ (skipn j (pre ++ ?X)) = false =>
          destruct (skipn_app_short j pre X Hlt) as [-> Hv]
      end.
      destruct (startsWith (lit "ssr:") (skipn j pre ++ _)) eqn:E; [|reflexivity].
      change ((nl ++ lit "    ") ++ ?X) with (10%N :: lit "    " ++ X) in E.
      apply startsWith_app_barrier in E; [|reflexivity].
      assert (Hin : includes (lit "ssr:") (pre ++ t) = true).
      { rewrite <- (take_drop j pre), <- app_assoc.
        apply indexOf_app_found. now apply startsWith_app_long. }
      congruence.
    + rewrite <- (app_assoc pre), skipn_app, skipn_all2 by lia.
      cbn [app]. rewrite length_app in Hj. cbn [length] in Hj.
      remember (j - length pre) as k eqn:Hk.
      assert (Hk5 : k < 5) by (unfold nl in Hj; cbn [length lit] in Hj; simpl in Hj; lia).
      do 5 (destruct k as [|k]; [reflexivity|]). lia.
Qed.

(** Applying the noExternal patch to its own output changes nothing,
    for every text whose captured array holds no replacement pattern
    character. *)
Lemma noExternal_patch_twice (content : list N) :
  (forall m, exec noExternalRegex content = Some m ->
             forallb plain (groupText m 1) = true) ->
  noExternalPatched (noExternalPatched content) = noExternalPatched content.
Proof.
  intros Hplain. unfold noExternalPatched at 2 3.
  destruct (patchNoExternal content) as [content'|] eqn:E.
  - assert (Hfix : patchNoExternal content' = None
                   \/ patchNoExternal content' = Some content').
    { revert E. unfold patchNoExternal at 1.
      destruct (exec noExternalRegex content) as [m|] eqn:Em.
      - destruct (includes authLiteral (groupText m 1)
                  || includes authLiteralDouble (groupText m 1)) eqn:Ein;
          [discriminate|].
        intros E. left.
        apply (noExternal_twice_appended content m Em Ein (Hplain m eq_refl)).
        unfold patchNoExternal. now rewrite Em, Ein.
      - destruct (includes (lit "ssr:") content) eqn:Essr.
        + destruct (exec ssrRegex content) as [m|] eqn:Es.
          * intros [= <-]. left. now apply (noExternal_twice_ssr content m).
          * assert (Hsame : replaceStr ssrRegex
                              (lit "ssr: {" ++ nl
                               ++ lit "      noExternal: ['@analog-tools/auth'],") content
                            = content).
            { unfold replaceStr, replaceFn. now rewrite Es. }
            rewrite Hsame. intros [= <-]. right.
            unfold patchNoExternal. now rewrite Em, Essr, Hsame.
        + destruct (exec buildRegex content) as [m|] eqn:Eb.
          * intros [= <-]. left. now apply noExternal_twice_build.
          * intros [= <-]. right. unfold patchNoExternal. now rewrite Em, Essr, Eb. }
    unfold noExternalPatched. destruct Hfix as [-> | ->]; reflexivity.
  - unfold noExternalPatched. now rewrite E.
Qed.

End NoExternalTwice.

(** ** Running the library edit twice *)

Section AnalogCallTwice.

Variable path_join : list (list N) -> list N.

(** Steps that succeed on a text succeed before a code unit that is not
    white space, and leave it and what follows untouched. *)
Lemma runSteps_before_barrier (st : list step) (a a' y : list N) (h : N) :
  isWhiteSpace h = false ->
  runSteps st a = Some a' -> runSteps st (a ++ h :: y) = Some (a' ++ h :: y).
Proof.
  intros Hh. revert a. induction st as [|[p| |b] st IH]; intros a; cbn [runSteps].
  - now intros [= <-].
  - destruct (startsWith p a) eqn:Hp; [|discriminate].
    rewrite (startsWith_app_long p a (h :: y) Hp), skipn_app.
    replace (length p - length a) with 0 by (apply startsWith_length in Hp; lia).
    cbn [skipn]. apply IH.
  - rewrite (dropWhile_app_barrier isWhiteSpace a y h Hh). apply IH.
  - destruct a as [|x t]; [discriminate|]. cbn [app].
    destruct (b =? x)%N; [apply IH|discriminate].
Qed.

Lemma matchHere_analogCall (s : list N) :
  matchHere analogCallRegex s
  = match runSteps analogCallSteps s with
    | Some rest => Some (rest, [])
    | None => None
    end.
Proof.
  unfold matchHere.
  change analogCallRegex with (stepsRe [SLit (lit "analog"); SWs] (Chr (ch "("))).
  rewrite (matchk_steps true);
    [|reflexivity
     |intros _ x t c' k Hx; apply matchk_Chr_neq; intros <-; discriminate Hx].
  change analogCallSteps with ([SLit (lit "analog"); SWs] ++ [SChr (ch "(")]).
  rewrite runSteps_app.
  destruct (runSteps [SLit (lit "analog"); SWs] s) as [s1|]; [|reflexivity].
  cbn [matchk runSteps]. destruct s1 as [|x t]; [reflexivity|].
  destruct (ch "(" =? x)%N; reflexivity.
Qed.

(** Whether the pattern matches a text that runs up to an opening
    parenthesis does not depend on what follows the parenthesis. *)
Lemma analogCall_local (a x x' : list N) :
  matchHere analogCallRegex (a ++ ch "(" :: x) = None ->
  matchHere analogCallRegex (a ++ ch "(" :: x') = None.
Proof.
  rewrite !matchHere_analogCall.
  change analogCallSteps with ([SLit (lit "analog"); SWs] ++ [SChr (ch "(")]).
  rewrite !runSteps_app. intros Hnone.
  destruct (runSteps [SLit (lit "analog"); SWs] (a ++ ch "(" :: x')) as [r|] eqn:Er;
    [|reflexivity].
  destruct (runSteps_barrier [SLit (lit "analog"); SWs] a x' r (ch "(") eq_refl Er)
    as (a' & Ha & ->).
  rewrite (runSteps_before_barrier _ a a' x (ch "(") eq_refl Ha) in Hnone.
  destruct a' as [|c a']; cbn [app runSteps] in *.
  - rewrite N.eqb_refl in Hnone. discriminate.
  - destruct (ch "(" =? c)%N; [discriminate|reflexivity].
Qed.

(** The first call stays the first call when its arguments are
    rewritten. *)
Lemma exec_analogCall_rewritten (pre x x' : list N) :
  exec analogCallRegex (pre ++ lit "analog(" ++ x)
  = Some (mkMatch (length pre) (lit "analog(") []) ->
  exec analogCallRegex (pre ++ lit "analog(" ++ x')
  = Some (mkMatch (length pre) (lit "analog(") []).
Proof.
  unfold exec. intros Hex.
  destruct (execFrom_inv _ _ _ _ Hex) as (pre0 & t & t' & Hs & Hi & _ & _ & Hnone).
  cbn [index Nat.add] in Hi.
  rewrite (execFrom_found analogCallRegex 0 pre (lit "analog(" ++ x') x' []).
  - cbn [Nat.add]. f_equal. f_equal.
    rewrite length_app.
    replace (length (lit "analog(") + length x' - length x')
      with (length (lit "analog(")) by lia.
    now rewrite take_app_length.
  - rewrite matchHere_analogCall. reflexivity.
  - intros j Hj. assert (Hnone' := Hnone j ltac:(lia)). clear Hnone.
    rename Hnone' into Hnone.
    destruct (skipn_app_short j pre (lit "analog(" ++ x) Hj) as [E _].
    destruct (skipn_app_short j pre (lit "analog(" ++ x') Hj) as [E' _].
    rewrite E in Hnone. rewrite E'.
    change (lit "analog(" ++ x) with (lit "analog" ++ ch "(" :: x) in Hnone.
    change (lit "analog(" ++ x') with (lit "analog" ++ ch "(" :: x').
    rewrite app_assoc in Hnone. rewrite app_assoc.
    exact (analogCall_local _ x x' Hnone).
Qed.

(** The object written into an empty call is left as it is by a run
    that asks for the liveReload key only. *)
Lemma liveReloadObject_kept (pagesDirFormatted apiDirFormatted : list N) :
  forallb inert liveReloadObject = true
  /\ trim liveReloadObject = liveReloadObject
  /\ isEmptyCall liveReloadObject = false
  /\ freshOptions false false pagesDirFormatted apiDirFormatted = liveReloadObject
  /\ extendOptions false false pagesDirFormatted apiDirFormatted liveReloadObject
     = liveReloadObject.
Proof. repeat split; vm_compute; reflexivity. Qed.

(** An empty call populated by a run that asks for the liveReload key
    only is not changed by a second such run. *)
Lemma liveReload_twice (pre args tail libSrcRoot : list N) :
  EmptyArgs args ->
  exec analogCallRegex (pre ++ lit "analog(" ++ args ++ lit ")" ++ tail)
  = Some (mkMatch (length pre) (lit "analog(") []) ->
  updateViteConfig path_join
    (updateViteConfig path_join (pre ++ lit "analog(" ++ args ++ lit ")" ++ tail)
       libSrcRoot liveReloadOnly)
    libSrcRoot liveReloadOnly
  = updateViteConfig path_join (pre ++ lit "analog(" ++ args ++ lit ")" ++ tail)
      libSrcRoot liveReloadOnly.
Proof.
  intros Hargs Hexec.
  set (pagesDirFormatted :=
         lit "'" ++ dirUnder path_join libSrcRoot [lit "pages"] ++ lit "'").
  set (apiDirFormatted :=
         lit "'" ++ dirUnder path_join libSrcRoot [lit "backend"; lit "api"] ++ lit "'").
  destruct (liveReloadObject_kept pagesDirFormatted apiDirFormatted)
    as (Hinert & Htrim & Hfull & Hfresh & Hextend).
  rewrite (updateViteConfig_inert_call path_join pre args tail libSrcRoot liveReloadOnly
             (emptyArgs_inert args Hargs) Hexec).
  rewrite (emptyArgs_isEmptyCall args Hargs).
  cbn [liveReloadOnly addPages addApi notFalse].
  fold pagesDirFormatted. fold apiDirFormatted. rewrite Hfresh.
  rewrite (updateViteConfig_inert_call path_join pre liveReloadObject tail libSrcRoot
             liveReloadOnly Hinert
             (exec_analogCall_rewritten pre _ _ Hexec)).
  rewrite Htrim, Hfull.
  cbn [liveReloadOnly addPages addApi notFalse].
  fold pagesDirFormatted. fold apiDirFormatted. now rewrite Hextend.
Qed.

End AnalogCallTwice.

(** ** Applying an edit twice *)

(** C1 (as amended).  Applying an edit to its own output gives that
    output again in two cases: the ssr.noExternal edit of init-auth, on
    every text whose captured array holds no ['$'] (the replacement
    pattern character); and the library edit that asks for no directory
    ([liveReload] only), on a first call [analog(...)] whose argument
    list is empty.  The directory edits are not covered: they append on
    every run. *)
Theorem patch_twice_same_text :
  (forall content : list N,
     (forall m, exec InitAuth.noExternalRegex content = Some m ->
                forallb plain (InitAuth.groupText m 1) = true) ->
     noExternalPatched (noExternalPatched content) = noExternalPatched content)
  /\ (forall (path_join : list (list N) -> list N) (pre args tail libSrcRoot : list N),
        EmptyArgs args ->
        exec analogCallRegex (pre ++ lit "analog(" ++ args ++ lit ")" ++ tail)
        = Some (mkMatch (length pre) (lit "analog(") []) ->
        updateViteConfig path_join
          (updateViteConfig path_join (pre ++ lit "analog(" ++ args ++ lit ")" ++ tail)
             libSrcRoot liveReloadOnly)
          libSrcRoot liveReloadOnly
        = updateViteConfig path_join (pre ++ lit "analog(" ++ args ++ lit ")" ++ tail)
            libSrcRoot liveReloadOnly).
Proof.
  split.
  - exact noExternal_patch_twice.
  - intros path_join pre args tail libSrcRoot. apply liveReload_twice.
Qed.

(** An array with one item, and an empty object literal as the argument
    of the call. *)
Lemma patch_twice_same_text_witness :
  noExternalPatched (lit "ssr: { noExternal: ['zone.js'] },")
  = lit "ssr: {" ++ nl ++ lit "      noExternal: ['zone.js', '@analog-tools/auth'] },"
  /\ noExternalPatched (noExternalPatched (lit "ssr: { noExternal: ['zone.js'] },"))
     = noExternalPatched (lit "ssr: { noExternal: ['zone.js'] },")
  /\ updateViteConfig joinSegments (lit "plugins: [analog({ })]") (lit "libs/notes/src")
       liveReloadOnly
     = lit "plugins: [analog(" ++ liveReloadObject ++ lit ")]"
  /\ updateViteConfig joinSegments
       (updateViteConfig joinSegments (lit "plugins: [analog({ })]")
          (lit "libs/notes/src") liveReloadOnly)
       (lit "libs/notes/src") liveReloadOnly
     = updateViteConfig joinSegments (lit "plugins: [analog({ })]")
         (lit "libs/notes/src") liveReloadOnly.
Proof.
  split; [vm_compute; reflexivity|]. split; [|split; [vm_compute; reflexivity|]].
  - apply (proj1 patch_twice_same_text (lit "ssr: { noExternal: ['zone.js'] },")).
    intros m Hm. vm_compute in Hm. injection Hm as <-. vm_compute. reflexivity.
  - apply (proj2 patch_twice_same_text joinSegments (lit "plugins: [") (lit "{ }")
             (lit "]") (lit "libs/notes/src")).
    + apply (EmptyArgs_braces [] (lit " ") []); reflexivity.
    + vm_compute. reflexivity.
Defined.

(** C1 (as stated) fails: the second run of the library edit on the call
    it has just populated appends both directories again. *)
Lemma second_run_appends_directories :
  let once :=
    updateViteConfig joinSegments (lit "analog()") (lit "libs/notes/src") noOptions in
  let twice := updateViteConfig joinSegments once (lit "libs/notes/src") noOptions in
  once
  = lit "analog({" ++ nl
    ++ lit "        liveReload: true," ++ nl
    ++ lit "        additionalPagesDirs: ['libs/notes/src/pages']," ++ nl
    ++ lit "        additionalAPIDirs: ['libs/notes/src/backend/api']" ++ nl
    ++ lit "      })"
  /\ twice
     = lit "analog({" ++ nl
       ++ lit "        liveReload: true," ++ nl
       ++ lit "        additionalPagesDirs: ['libs/notes/src/pages', 'libs/notes/src/pages'],"
       ++ nl
       ++ lit "        additionalAPIDirs: ['libs/notes/src/backend/api', 'libs/notes/src/backend/api']"
       ++ nl
       ++ lit "      })"
  /\ twice <> once.
Proof. vm_compute. repeat split. discriminate. Qed.

(** The condition on the captured array cannot be dropped: the pattern
    [$'] in the array is expanded to the text after the match, the
    written array then ends at a bracket of that text, and the second
    run appends the literal once more. *)
Lemma replacement_pattern_expanded_twice :
  let content := lit "ssr: { noExternal: [$'] }, plugins: [] }" in
  noExternalPatched content
  = lit "ssr: {" ++ nl
    ++ lit "      noExternal: [ }, plugins: [] }, '@analog-tools/auth'] }, plugins: [] }"
  /\ noExternalPatched (noExternalPatched content) <> noExternalPatched content.
Proof. vm_compute. split; [reflexivity|discriminate]. Qed.

(** ** Comment removal *)

Section CommentFacts.

Lemma quote_not_backslash (q : N) : isQuote q = true -> (q =? backslash)%N = false.
Proof.
  intros Hq. destruct (N.eqb_spec q backslash) as [->|]; [discriminate Hq|reflexivity].
Qed.

Lemma quote_not_slash (q : N) : isQuote q = true -> (q =? ch "/")%N = false.
Proof.
  intros Hq. destruct (N.eqb_spec q (ch "/")) as [->|]; [discriminate Hq|reflexivity].
Qed.

Lemma removeComments_single (x : N) : removeComments [x] = [x].
Proof.
  cbn [removeComments]. destruct (isQuote x); [reflexivity|].
  eval_lits. cbn [startsWith]. rewrite !andb_false_r. reflexivity.
Qed.

(** Inside a string: one code unit, an escape, the closing quote. *)
Lemma removeComments_quote_unit (q x : N) (l : list N) :
  isQuote q = true -> (x =? backslash)%N = false -> (x =? q)%N = false ->
  removeComments (q :: x :: l) = q :: x :: List.tl (removeComments (q :: l)).
Proof. intros Hq Hb Hx. cbn [removeComments]. rewrite Hq, Hb, Hx. reflexivity. Qed.

Lemma removeComments_quote_escape (q y : N) (l : list N) :
  isQuote q = true ->
  removeComments (q :: backslash :: y :: l)
  = q :: backslash :: y :: List.tl (removeComments (q :: l)).
Proof. intros Hq. cbn [removeComments]. rewrite Hq, N.eqb_refl. reflexivity. Qed.

Lemma removeComments_quote_close (q : N) (l : list N) :
  isQuote q = true -> removeComments (q :: q :: l) = q :: q :: removeComments l.
Proof.
  intros Hq. cbn [removeComments].
  rewrite Hq, (quote_not_backslash q Hq), N.eqb_refl. reflexivity.
Qed.

Lemma removeComments_quote_last_backslash (q : N) :
  isQuote q = true ->
  removeComments [q; backslash] = q :: backslash :: lit "undefined".
Proof. intros Hq. cbn [removeComments]. rewrite Hq, N.eqb_refl. reflexivity. Qed.

(** A string literal is read to its closing quote; without one, to the
    end of the input. *)
Lemma removeComments_string (q : N) (rest : list N) (n : nat) :
  isQuote q = true ->
  forall body, length body <= n -> stringBody q body = true ->
    removeComments (q :: body ++ q :: rest) = q :: body ++ q :: removeComments rest
    /\ removeComments (q :: body) = q :: body
    /\ removeComments (q :: body ++ [backslash])
       = q :: body ++ backslash :: lit "undefined".
Proof.
  intros Hq. induction n as [|n IH]; intros body Hn Hb.
  - destruct body; [|simpl in Hn; lia]. cbn [app].
    rewrite (removeComments_quote_close q rest Hq), (removeComments_single q),
      (removeComments_quote_last_backslash q Hq). auto.
  - destruct body as [|x l].
    + cbn [app].
      rewrite (removeComments_quote_close q rest Hq), (removeComments_single q),
        (removeComments_quote_last_backslash q Hq). auto.
    + cbn [stringBody] in Hb. destruct (N.eqb_spec x backslash) as [->|Hx].
      * destruct l as [|y l']; [discriminate|].
        destruct (IH l') as (H1 & H2 & H3); [simpl in Hn; lia|exact Hb|].
        cbn [app]. rewrite !removeComments_quote_escape by exact Hq.
        rewrite H1, H2, H3. auto.
      * apply andb_prop in Hb as [Hxq Hb]. apply negb_true_iff in Hxq.
        apply N.eqb_neq in Hx.
        destruct (IH l) as (H1 & H2 & H3); [simpl in Hn; lia|exact Hb|].
        cbn [app]. rewrite !removeComments_quote_unit by assumption.
        rewrite H1, H2, H3. auto.
Qed.

(** Text without quotes and slashes is copied. *)
Lemma removeComments_commentFree_app (pre s : list N) :
  commentFree pre = true -> removeComments (pre ++ s) = pre ++ removeComments s.
Proof.
  unfold commentFree. induction pre as [|c pre IH]; [reflexivity|].
  intros Hs. apply andb_prop in Hs as [Hc Hs].
  apply andb_prop in Hc as [Hq Hsl].
  apply negb_true_iff in Hq. apply negb_true_iff in Hsl.
  cbn [app removeComments]. rewrite Hq.
  assert (H1 : startsWith (lit "//") (c :: pre ++ s) = false).
  { eval_lits. simpl. rewrite N.eqb_sym. revert Hsl. eval_lits. now intros ->. }
  assert (H2 : startsWith (lit "/*") (c :: pre ++ s) = false).
  { eval_lits. simpl. rewrite N.eqb_sym. revert Hsl. eval_lits. now intros ->. }
  rewrite H1, H2. now rewrite IH.
Qed.

Lemma removeComments_line_step (x : N) (l : list N) :
  removeComments (ch "/" :: ch "/" :: x :: l)
  = if (x =? 10)%N then 10%N :: removeComments l
    else removeComments (ch "/" :: ch "/" :: l).
Proof. reflexivity. Qed.

(** A line comment runs to the next line feed, which is kept, or to the
    end of the input. *)
Lemma removeComments_line (c rest : list N) :
  existsb (N.eqb 10) c = false ->
  removeComments (lit "//" ++ c ++ 10%N :: rest) = 10%N :: removeComments rest
  /\ removeComments (lit "//" ++ c) = [].
Proof.
  change (lit "//") with [ch "/"; ch "/"]. cbn [app].
  induction c as [|x c IH]; intros Hc.
  - split; reflexivity.
  - cbn [existsb] in Hc. apply orb_false_elim in Hc as [Hx Hc].
    rewrite N.eqb_sym in Hx.
    cbn [app]. rewrite !removeComments_line_step, Hx. now apply IH.
Qed.

Lemma not_block_end (x : N) (c : list N) :
  includes (lit "*/") (x :: c) = false ->
  includes (lit "*/") c = false
  /\ match c with
     | y :: _ => ((x =? ch "*") && (y =? ch "/"))%N = false
     | [] => True
     end.
Proof.
  unfold includes. cbn [indexOf].
  destruct (startsWith (lit "*/") (x :: c)) eqn:Hx; [discriminate|].
  destruct (indexOf (lit "*/") c); [discriminate|]. intros _.
  split; [reflexivity|]. destruct c as [|y c]; [exact I|].
  revert Hx. eval_lits. simpl.
  now rewrite (N.eqb_sym 42 x), (N.eqb_sym 47 y), andb_true_r.
Qed.

(** A block comment runs to the first [*/]. *)
Lemma removeComments_block_app (c rest : list N) :
  includes (lit "*/") c = false ->
  removeComments (lit "/*" ++ c ++ lit "*/" ++ rest) = removeComments rest.
Proof.
  change (lit "/*" ++ c ++ lit "*/" ++ rest)
    with (ch "/" :: ch "*" :: c ++ ch "*" :: ch "/" :: rest).
  induction c as [|x c IH]; intros Hc; [reflexivity|].
  destruct (not_block_end x c Hc) as [Hc' Hx].
  destruct c as [|y c].
  - cbn [app]. rewrite removeComments_block_step.
    change (ch "*" =? ch "/")%N with false. rewrite andb_false_r. reflexivity.
  - cbn [app]. rewrite removeComments_block_step, Hx. now apply IH.
Qed.

Lemma last_cons_head (y x : N) (c : list N) : List.last (y :: c) x = List.last c y.
Proof.
  revert y x. induction c as [|z c IH]; intros y x; [reflexivity|].
  change (List.last (z :: c) x = List.last (z :: c) y). now rewrite !IH.
Qed.

(** Without [*/] the comment runs to the end of the input, except for
    the last code unit: the inner loop stops one short. *)
Lemma removeComments_block_open (x : N) (c : list N) :
  includes (lit "*/") (x :: c) = false ->
  removeComments (lit "/*" ++ x :: c) = [List.last c x].
Proof.
  change (lit "/*" ++ x :: c) with (ch "/" :: ch "*" :: x :: c).
  revert x. induction c as [|y c IH]; intros x Hc.
  - cbn [List.last].
    change (removeComments [ch "/"; ch "*"; x]) with (removeComments [x]).
    apply removeComments_single.
  - destruct (not_block_end x (y :: c) Hc) as [Hc' Hx].
    rewrite removeComments_block_step, Hx.
    rewrite (IH y Hc'). now rewrite last_cons_head.
Qed.

End CommentFacts.

(** X1.  [removeComments] copies a string literal as it is, whatever
    the literal holds (two slashes, a comment opener, escaped quotes),
    and goes on after the closing quote. *)
Theorem removeComments_keeps_string_literal (pre body rest : list N) (q : N) :
  commentFree pre = true -> isQuote q = true -> stringBody q body = true ->
  removeComments (pre ++ q :: body ++ q :: rest)
  = pre ++ q :: body ++ q :: removeComments rest.
Proof.
  intros Hpre Hq Hb. rewrite (removeComments_commentFree_app pre _ Hpre).
  f_equal. exact (proj1 (removeComments_string q rest (length body) Hq body
                           (Nat.le_refl _) Hb)).
Qed.

Lemma removeComments_keeps_string_literal_witness :
  removeComments (lit "url: 'http://a.b/*c\'d', // x")
  = lit "url: 'http://a.b/*c\'d'" ++ removeComments (lit ", // x").
Proof.
  apply (removeComments_keeps_string_literal (lit "url: ") (lit "http://a.b/*c\'d")
           (lit ", // x") (ch "'")); reflexivity.
Defined.

(** X2.  A line comment is removed up to the next line feed, which is
    kept; without a line feed it is removed to the end of the input. *)
Theorem removeComments_drops_line_comment (pre c rest : list N) :
  commentFree pre = true -> existsb (N.eqb 10) c = false ->
  removeComments (pre ++ lit "//" ++ c ++ nl ++ rest) = pre ++ nl ++ removeComments rest
  /\ removeComments (pre ++ lit "//" ++ c) = pre.
Proof.
  intros Hpre Hc. rewrite !(removeComments_commentFree_app pre _ Hpre).
  destruct (removeComments_line c rest Hc) as [H1 H2].
  unfold nl. cbn [app]. rewrite H1, H2, app_nil_r. auto.
Qed.

Lemma removeComments_drops_line_comment_witness :
  removeComments (lit "a: 1, // it's (here)" ++ nl ++ lit "b: 2")
  = lit "a: 1, " ++ nl ++ removeComments (lit "b: 2")
  /\ removeComments (lit "a: 1, // it's (here)") = lit "a: 1, ".
Proof.
  apply (removeComments_drops_line_comment (lit "a: 1, ") (lit " it's (here)")
           (lit "b: 2")); reflexivity.
Defined.

(** X3.  A block comment is removed from its opener to the first [*/]
    after it, line feeds included. *)
Theorem removeComments_drops_block_comment (pre c rest : list N) :
  commentFree pre = true -> includes (lit "*/") c = false ->
  removeComments (pre ++ lit "/*" ++ c ++ lit "*/" ++ rest)
  = pre ++ removeComments rest.
Proof.
  intros Hpre Hc. rewrite (removeComments_commentFree_app pre _ Hpre).
  now rewrite (removeComments_block_app c rest Hc).
Qed.

Lemma removeComments_drops_block_comment_witness :
  removeComments (lit "{ /* it's" ++ nl ++ lit " // off */ a: 1 }")
  = lit "{ " ++ removeComments (lit " a: 1 }").
Proof.
  apply (removeComments_drops_block_comment (lit "{ ") (lit " it's" ++ nl ++ lit " // off ")
           (lit " a: 1 }")); reflexivity.
Defined.

(** X4.  A block comment that is never closed is removed to the end of
    the input, except for the last code unit of the input, which is
    kept. *)
Theorem removeComments_unclosed_block_keeps_last (pre c : list N) (x : N) :
  commentFree pre = true -> includes (lit "*/") (x :: c) = false ->
  removeComments (pre ++ lit "/*" ++ x :: c) = pre ++ [List.last c x].
Proof.
  intros Hpre Hc. rewrite (removeComments_commentFree_app pre _ Hpre).
  now rewrite (removeComments_block_open x c Hc).
Qed.

Lemma removeComments_unclosed_block_keeps_last_witness :
  removeComments (lit "{ a: 1 /* todo }") = lit "{ a: 1 }".
Proof.
  apply (removeComments_unclosed_block_keeps_last (lit "{ a: 1 ") (lit "todo }") (ch " "));
    reflexivity.
Defined.

(** X5.  A string literal that is never closed is copied to the end of
    the input, comments inside it included; when its last code unit is
    a backslash, the text [undefined] is appended to the output. *)
Theorem removeComments_unclosed_string (pre body : list N) (q : N) :
  commentFree pre = true -> isQuote q = true -> stringBody q body = true ->
  removeComments (pre ++ q :: body) = pre ++ q :: body
  /\ removeComments (pre ++ q :: body ++ [backslash])
     = pre ++ q :: body ++ backslash :: lit "undefined".
Proof.
  intros Hpre Hq Hb. rewrite !(removeComments_commentFree_app pre _ Hpre).
  destruct (removeComments_string q [] (length body) Hq body (Nat.le_refl _) Hb)
    as (_ & H2 & H3).
  change (q :: body ++ [backslash]) with ((q :: body) ++ [backslash]) at 1.
  cbn [app]. now rewrite H2, H3.
Qed.

Lemma removeComments_unclosed_string_witness :
  removeComments (lit "a: 'b // c") = lit "a: 'b // c"
  /\ removeComments (lit "a: 'b\") = lit "a: 'b\undefined".
Proof.
  split.
  - apply (removeComments_unclosed_string (lit "a: ") (lit "b // c") (ch "'")); reflexivity.
  - apply (removeComments_unclosed_string (lit "a: ") (lit "b") (ch "'")); reflexivity.
Defined.

(** ** The parenthesis scan: where it stops *)

Section ScanResult.

Lemma scanStep_result (prev : option N) (c : N) (st : ScanState) :
  (0 < depth st)%Z ->
  endPos (scanStep prev c st) = endPos st
  /\ ((depth (scanStep prev c st) = 0%Z
       /\ c = ch ")" /\ inString (scanStep prev c st) = false)
      \/ (0 < depth (scanStep prev c st))%Z).
Proof.
  intros Hd. unfold scanStep.
  set (st1 := if isQuote c && _ then _ else st).
  assert (H1 : endPos st1 = endPos st /\ depth st1 = depth st).
  { unfold st1. destruct (isQuote c && _); [|auto].
    destruct (negb (inString st)); [auto|].
    destruct (match stringChar st with Some q => _ | None => _ end); auto. }
  destruct H1 as [He Hd1].
  destruct (inString st1) eqn:Hs; cbn [negb].
  - rewrite Hs. split; [exact He|]. right. lia.
  - cbn [endPos depth inString]. split; [exact He|].
    destruct (N.eqb_spec c (ch "(")) as [->|Hopen].
    + change (ch "(" =? ch ")")%N with false. right. lia.
    + destruct (N.eqb_spec c (ch ")")) as [->|Hclose].
      * destruct (Z.eq_dec (depth st1 - 1)%Z 0%Z) as [E|E]; [left; auto|right; lia].
      * right. lia.
Qed.

(** The loop either stops at a closing parenthesis outside a string,
    with the depth at zero, or runs to the end of the input with the
    depth above zero and the end position as it was. *)
Lemma scanLoop_result (l : list N) :
  forall (prev : option N) (i : nat) (st : ScanState),
    (0 < depth st)%Z ->
    (depth (scanLoop prev l i st) = 0%Z
     /\ i <= endPos (scanLoop prev l i st) < i + length l
     /\ nth_error l (endPos (scanLoop prev l i st) - i) = Some (ch ")")
     /\ inString (scanLoop prev l i st) = false)
    \/ ((0 < depth (scanLoop prev l i st))%Z
        /\ endPos (scanLoop prev l i st) = endPos st).
Proof.
  induction l as [|c l IH]; intros prev i st Hd; cbn [scanLoop].
  - right. auto.
  - replace (depth st >? 0)%Z with true by (symmetry; apply Z.gtb_lt; lia).
    destruct (scanStep_result prev c st Hd) as [He [(H0 & Hc & Hs) | Hpos]].
    + rewrite H0. cbn [Z.eqb depth endPos inString]. left.
      rewrite Nat.sub_diag. cbn [nth_error length]. subst c.
      repeat split; auto; lia.
    + replace (depth (scanStep prev c st) =? 0)%Z with false
        by (symmetry; apply Z.eqb_neq; lia).
      destruct (IH (Some c) (S i) (scanStep prev c st) Hpos)
        as [(H0 & Hi & Hn & Hs) | (Hp & Hend)].
      * left. repeat split; auto; try (cbn [length]; lia).
        replace (endPos (scanLoop (Some c) l (S i) (scanStep prev c st)) - i)
          with (S (endPos (scanLoop (Some c) l (S i) (scanStep prev c st)) - S i))
          by lia.
        exact Hn.
      * right. split; [exact Hp|]. now rewrite Hend.
Qed.

Lemma scanLoop_paren_open (rest : list N) (prev : option N) (i : nat)
    (st : ScanState) :
  inString st = false -> (0 < depth st)%Z ->
  scanLoop prev (ch "(" :: rest) i st
  = scanLoop (Some (ch "(")) rest (S i)
      (mkScan (depth st + 1) (endPos st) false (stringChar st)).
Proof.
  intros Hs Hd. cbn [scanLoop].
  replace (depth st >? 0)%Z with true by (symmetry; apply Z.gtb_lt; lia).
  unfold scanStep. change (isQuote (ch "(")) with false. cbn [andb].
  rewrite Hs. cbn [negb].
  change (ch "(" =? ch "(")%N with true. change (ch "(" =? ch ")")%N with false.
  cbn [depth endPos inString stringChar].
  replace (depth st + 1 =? 0)%Z with false by (symmetry; apply Z.eqb_neq; lia).
  reflexivity.
Qed.

Lemma scanLoop_paren_close (rest : list N) (prev : option N) (i : nat)
    (st : ScanState) :
  inString st = false -> (1 < depth st)%Z ->
  scanLoop prev (ch ")" :: rest) i st
  = scanLoop (Some (ch ")")) rest (S i)
      (mkScan (depth st - 1) (endPos st) false (stringChar st)).
Proof.
  intros Hs Hd. cbn [scanLoop].
  replace (depth st >? 0)%Z with true by (symmetry; apply Z.gtb_lt; lia).
  unfold scanStep. change (isQuote (ch ")")) with false. cbn [andb].
  rewrite Hs. cbn [negb].
  change (ch ")" =? ch "(")%N with false. change (ch ")" =? ch ")")%N with true.
  cbn [depth endPos inString stringChar].
  replace (depth st - 1 =? 0)%Z with false by (symmetry; apply Z.eqb_neq; lia).
  reflexivity.
Qed.

(** The scan passes over balanced text and comes out in the state in
    which it went in. *)
Lemma scanLoop_balanced (s : list N) :
  Balanced s ->
  forall (prev : option N) (rest : list N) (i : nat) (d : Z) (e : nat),
    (0 < d)%Z -> unescaped prev ->
    exists prev',
      unescaped prev'
      /\ scanLoop prev (s ++ rest) i (mkScan d e false None)
         = scanLoop prev' rest (i + length s) (mkScan d e false None).
Proof.
  induction 1 as [|c s Hc Hs IH|q body s Hq Hb Hs IH|a s Ha IHa Hs IHs];
    intros prev rest i d e Hd Hprev.
  - exists prev. split; [exact Hprev|]. cbn [app length]. now rewrite Nat.add_0_r.
  - assert (Hcb : unescaped (Some c)).
    { unfold unescaped, inert in *. apply andb_prop in Hc as [_ Hc].
      now apply negb_true_iff. }
    destruct (IH (Some c) rest (S i) d e Hd Hcb) as (prev' & Hp' & E).
    exists prev'. split; [exact Hp'|].
    change ((c :: s) ++ rest) with ([c] ++ s ++ rest).
    rewrite scanLoop_inert;
      [|cbn [forallb]; now rewrite Hc|reflexivity|exact Hd].
    cbn [List.map List.last length].
    replace (i + 1) with (S i) by lia. rewrite E. f_equal. lia.
  - assert (Hqb : unescaped (Some q)) by (apply (quote_not_backslash q Hq)).
    destruct (IH (Some q) rest (i + 1 + length body + 1) d e Hd Hqb)
      as (prev' & Hp' & E).
    exists prev'. split; [exact Hp'|].
    cbn [app]. rewrite scanLoop_open; [|exact Hq|exact Hprev|reflexivity|exact Hd].
    rewrite <- app_assoc. cbn [app depth endPos].
    rewrite scanLoop_string_body; [|exact Hq|exact Hb|reflexivity|reflexivity|exact Hd].
    cbn [depth endPos].
    replace (S i + length body + 1) with (i + 1 + length body + 1) by lia.
    rewrite E. f_equal. rewrite length_cons, length_app, length_cons. lia.
  - assert (Hob : unescaped (Some (ch "("))) by reflexivity.
    destruct (IHa (Some (ch "(")) (ch ")" :: s ++ rest) (S i) (d + 1)%Z e
                ltac:(lia) Hob) as (prev1 & _ & E1).
    assert (Hcb : unescaped (Some (ch ")"))) by reflexivity.
    destruct (IHs (Some (ch ")")) rest (S i + length a + 1) d e Hd Hcb)
      as (prev' & Hp' & E2).
    exists prev'. split; [exact Hp'|].
    cbn [app]. rewrite scanLoop_paren_open; [|reflexivity|exact Hd].
    rewrite <- app_assoc. cbn [app depth endPos stringChar].
    rewrite E1.
    rewrite scanLoop_paren_close; [|reflexivity|cbn [depth]; lia].
    cbn [depth endPos stringChar].
    replace (d + 1 - 1)%Z with d by lia.
    replace (S (S i + length a)) with (S i + length a + 1) by lia.
    rewrite E2. f_equal. rewrite length_cons, length_app, length_cons. lia.
Qed.

End ScanResult.

(** Where the scan started by [findClosingParen] stops. *)
Lemma findClosingParen_result (content : list N) (startPos : nat) :
  (depth (findClosingParen content startPos) = 0%Z
   /\ startPos <= endPos (findClosingParen content startPos) < length content
   /\ nth_error content (endPos (findClosingParen content startPos)) = Some (ch ")")
   /\ inString (findClosingParen content startPos) = false)
  \/ ((0 < depth (findClosingParen content startPos))%Z
      /\ endPos (findClosingParen content startPos) = startPos).
Proof.
  unfold findClosingParen.
  set (prev := if 0 <? startPos then _ else _).
  destruct (scanLoop_result (skipn startPos content) prev startPos
              (mkScan 1 startPos false None) ltac:(cbn [depth]; lia))
    as [(H0 & Hi & Hn & Hs) | (Hp & He)].
  - left. rewrite length_skipn in Hi.
    repeat split; auto; try lia.
    rewrite nth_error_skipn in Hn.
    replace (startPos + (endPos (scanLoop prev (skipn startPos content) startPos
                                   (mkScan 1 startPos false None)) - startPos))
      with (endPos (scanLoop prev (skipn startPos content) startPos
                      (mkScan 1 startPos false None))) in Hn by lia.
    exact Hn.
  - right. auto.
Qed.

(** X6.  Where the parenthesis scan stops: either the depth is back at
    zero, and the end position is an index of the text, at or after the
    start, at which a closing parenthesis stands; or the depth is above
    zero and the end position is still the start.  The depth is never
    negative. *)
Theorem findClosingParen_stops_at_parenthesis (content : list N) (startPos : nat) :
  let scan := findClosingParen content startPos in
  (depth scan = 0%Z
   /\ startPos <= endPos scan < length content
   /\ nth_error content (endPos scan) = Some (ch ")"))
  \/ ((0 < depth scan)%Z /\ endPos scan = startPos).
Proof.
  destruct (findClosingParen_result content startPos) as [(H0 & Hi & Hn & _)|H];
    [left|right]; auto.
Qed.

(** The scan finds the closing parenthesis of a call with balanced
    arguments. *)
Lemma findClosingParen_balanced (pre args tail : list N) :
  Balanced args ->
  findClosingParen (pre ++ lit "(" ++ args ++ lit ")" ++ tail) (length pre + 1)
  = mkScan 0 (length pre + 1 + length args) false None.
Proof.
  intros Hargs. unfold findClosingParen.
  replace (0 <? length pre + 1) with true by (symmetry; apply Nat.ltb_lt; lia).
  replace (length pre + 1 - 1) with (length pre) by lia.
  eval_lits.
  rewrite nth_error_app2, Nat.sub_diag by lia. cbn [nth_error].
  replace (pre ++ [40%N] ++ args ++ [41%N] ++ tail)
    with ((pre ++ [40%N]) ++ args ++ [41%N] ++ tail)
    by now rewrite <- app_assoc.
  replace (length pre + 1) with (length (pre ++ [40%N]))
    by (rewrite length_app; reflexivity).
  rewrite drop_app_length.
  destruct (scanLoop_balanced args Hargs (Some 40%N) ([41%N] ++ tail)
              (length (pre ++ [40%N])) 1 (length (pre ++ [40%N]))
              ltac:(lia) eq_refl) as (prev' & _ & E).
  cbn [app] in *. rewrite E.
  now rewrite (scanLoop_close tail) by reflexivity.
Qed.

(** X7.  The scan finds the matching parenthesis of a call whose
    argument text is balanced for the scan: code units other than
    quotes, parentheses and backslashes; strings as the scan delimits
    them (opened by a quote, closed by the next quote of the same kind
    that does not follow a backslash); and nested pairs of parentheses
    around such text, to any depth. *)
Theorem findClosingParen_matches_nested (pre args tail : list N) :
  Balanced args ->
  findClosingParen (pre ++ lit "(" ++ args ++ lit ")" ++ tail) (length pre + 1)
  = mkScan 0 (length pre + 1 + length args) false None.
Proof. exact (findClosingParen_balanced pre args tail). Qed.

Lemma findClosingParen_matches_nested_witness :
  findClosingParen (lit "analog({ a: f(g('x)'), (1)), b: `)` }) // )") 7
  = mkScan 0 37 false None.
Proof.
  apply (findClosingParen_matches_nested (lit "analog")
           (lit "{ a: f(g('x)'), (1)), b: `)` }") (lit " // )")).
  repeat first
    [ apply Balanced_nil
    | apply Balanced_inert; [reflexivity|]
    | apply (Balanced_string (ch "'") (lit "x)")); [reflexivity|reflexivity|]
    | apply (Balanced_string (ch "`") (lit ")")); [reflexivity|reflexivity|]
    | apply (Balanced_nested (lit "g('x)'), (1)")
               (lit ", b: `)` }"))
    | apply (Balanced_nested (lit "'x)'") (lit ", (1)"))
    | apply (Balanced_nested (lit "1") []) ].
Defined.

(** ** The library edit: what it keeps *)

Section LibraryEditFacts.

Variable path_join : list (list N) -> list N.

Lemma matchHere_backslashes (s : list N) :
  matchHere backslashes s
  = match s with
    | y :: t => if (backslash =? y)%N then Some (t, []) else None
    | [] => None
    end.
Proof. destruct s; reflexivity. Qed.

(** Replacing every backslash by a slash, code unit by code unit. *)
Lemma replaceAllFrom_backslashes (whole s : list N) (i : nat) :
  replaceAllFrom backslashes (lit "/") whole 0 i s = List.map slashed s.
Proof.
  revert i. induction s as [|y t IH]; intros i; [reflexivity|].
  cbn [replaceAllFrom List.map]. rewrite matchHere_backslashes.
  unfold slashed at 1. rewrite (N.eqb_sym y backslash).
  destruct (backslash =? y)%N.
  - replace (length (y :: t) - length t) with 1 by (cbn [length]; lia).
    rewrite getSubstitution_plain by reflexivity.
    change (lit "/" ++ replaceAllFrom backslashes (lit "/") whole 0 (S i) t)
      with (ch "/" :: replaceAllFrom backslashes (lit "/") whole 0 (S i) t).
    now rewrite IH.
  - now rewrite IH.
Qed.

Lemma slashed_not_backslash (s : list N) :
  existsb (N.eqb backslash) (List.map slashed s) = false.
Proof.
  induction s as [|c s IH]; [reflexivity|].
  cbn [List.map existsb]. rewrite IH, orb_false_r. unfold slashed.
  destruct (N.eqb_spec c backslash) as [->|Hc]; [reflexivity|].
  apply N.eqb_neq. congruence.
Qed.

(** X8.  The directory written into the options is the joined path with
    every backslash turned into a slash and every other code unit kept:
    it holds no backslash, whatever [path.join] returns. *)
Theorem dirUnder_forward_slashes (libSrcRoot : list N) (segments : list (list N)) :
  dirUnder path_join libSrcRoot segments
  = List.map slashed (path_join (libSrcRoot :: segments))
  /\ existsb (N.eqb backslash) (dirUnder path_join libSrcRoot segments) = false.
Proof.
  assert (E : dirUnder path_join libSrcRoot segments
              = List.map slashed (path_join (libSrcRoot :: segments)))
    by apply replaceAllFrom_backslashes.
  split; [exact E|]. rewrite E. apply slashed_not_backslash.
Qed.

Lemma dropWhile_split (p : N -> bool) (s : list N) :
  exists w, forallb p w = true /\ s = w ++ dropWhile p s.
Proof.
  induction s as [|x s (w & Hw & E)]; [now exists []|].
  cbn [dropWhile]. destruct (p x) eqn:Hx.
  - exists (x :: w). cbn [forallb app]. rewrite Hx, Hw. split; [reflexivity|]. now f_equal.
  - now exists [].
Qed.

(** A match of the call pattern is the word, white space and the
    opening parenthesis. *)
Lemma runSteps_analogCall (t t' : list N) :
  runSteps analogCallSteps t = Some t' ->
  exists w, forallb isWhiteSpace w = true
            /\ t = lit "analog" ++ w ++ lit "(" ++ t'.
Proof.
  unfold analogCallSteps. cbn [runSteps].
  destruct (startsWith (lit "analog") t) eqn:Hp; [|discriminate].
  destruct (startsWith_prefix _ _ Hp) as [t1 ->].
  rewrite drop_app_length.
  destruct (dropWhile_split isWhiteSpace t1) as (w & Hw & E).
  destruct (dropWhile isWhiteSpace t1) as [|x r]; [discriminate|].
  destruct (N.eqb_spec (ch "(") x) as [<-|]; [|discriminate].
  intros [= <-]. exists w. split; [exact Hw|]. now rewrite E at 1.
Qed.

Lemma exec_analogCall_shape (content : list N) (m : MatchResult) :
  exec analogCallRegex content = Some m ->
  exists b w t',
    forallb isWhiteSpace w = true
    /\ content = (b ++ lit "analog" ++ w ++ lit "(") ++ t'
    /\ index m + length (matched m) = length (b ++ lit "analog" ++ w ++ lit "(").
Proof.
  unfold exec. intros Hex.
  destruct (execFrom_inv _ _ _ _ Hex) as (b & t & t' & -> & Hi & Hm & Hmd & _).
  cbn [Nat.add] in Hi. rewrite matchHere_analogCall in Hm.
  destruct (runSteps analogCallSteps t) as [r|] eqn:Er; [|discriminate].
  injection Hm as <- _.
  destruct (runSteps_analogCall t r Er) as (w & Hw & ->).
  exists b, w, r. split; [exact Hw|]. split.
  - rewrite <- !app_assoc. reflexivity.
  - rewrite Hi, Hmd.
    replace (length (lit "analog" ++ w ++ lit "(" ++ r) - length r)
      with (length (lit "analog" ++ w ++ lit "("))
      by (rewrite !length_app; lia).
    replace (lit "analog" ++ w ++ lit "(" ++ r)
      with ((lit "analog" ++ w ++ lit "(") ++ r)
      by (rewrite <- !app_assoc; reflexivity).
    rewrite take_app_length, !length_app. lia.
Qed.

(** X9.  Whatever the options, [updateViteConfig] either returns its
    input, or rewrites only the text between the opening parenthesis of
    a call [analog(] and a closing parenthesis after it: the text up to
    and including [analog(], and the text from that closing parenthesis
    on, are kept as they are. *)
Theorem updateViteConfig_rewrites_arguments_only
    (content libSrcRoot : list N) (options : Options) :
  updateViteConfig path_join content libSrcRoot options = content
  \/ exists b w args new after,
       forallb isWhiteSpace w = true
       /\ content = b ++ lit "analog" ++ w ++ lit "(" ++ args ++ lit ")" ++ after
       /\ updateViteConfig path_join content libSrcRoot options
          = b ++ lit "analog" ++ w ++ lit "(" ++ new ++ lit ")" ++ after.
Proof.
  destruct (exec analogCallRegex content) as [m|] eqn:Hex.
  - destruct (findClosingParen_result content (index m + length (matched m)))
      as [(H0 & Hi & Hn & _) | (Hp & _)].
    + right.
      rewrite (updateViteConfig_found path_join content libSrcRoot options m Hex H0).
      set (new := if isEmptyCall _ then _ else _). clearbody new.
      destruct (exec_analogCall_shape content m Hex) as (b & w & t' & Hw & Hc & Hs).
      rewrite Hs in *. set (before := b ++ lit "analog" ++ w ++ lit "(") in *.
      destruct (nth_error_split _ _ Hn) as (l1 & after & Hl & He).
      rewrite <- He in *. clear He.
      assert (Ht : exists args, l1 = before ++ args).
      { exists (skipn (length before) l1).
        assert (E : firstn (length before) l1 = before).
        { transitivity (firstn (length before) content).
          - rewrite Hl. symmetry. apply take_app_le. lia.
          - rewrite Hc. apply take_app_length. }
        rewrite <- (take_drop (length before) l1) at 1. now rewrite E. }
      destruct Ht as [args ->].
      exists b, w, args, new, after. split; [exact Hw|].
      rewrite Hl. rewrite <- (app_assoc before args).
      rewrite take_app_length.
      rewrite (app_assoc before args), drop_app_length.
      unfold before. rewrite <- !app_assoc. split; reflexivity.
    + left. unfold updateViteConfig. rewrite Hex.
      replace (depth (findClosingParen content (index m + length (matched m))) =? 0)%Z
        with false by (symmetry; apply Z.eqb_neq; lia).
      reflexivity.
  - left. unfold updateViteConfig. now rewrite Hex.
Qed.

End LibraryEditFacts.

(** ** Where the workspace scope comes from *)

Section ScopeOrigin.

Import Workspace.

Context {Tree : Type} `{TreeOps Tree}.
Variable readNxJson : Tree -> result Json.
Variable readJson : Tree -> list N -> result Json.

Lemma indexOf_before (p s : list N) (i : nat) :
  indexOf p s = Some i ->
  startsWith p (skipn i s) = true
  /\ forall j, j < i -> startsWith p (skipn j s) = false.
Proof.
  revert i. induction s as [|x s IH]; intros i; cbn [indexOf].
  - destruct (startsWith p []) eqn:E; [|discriminate].
    intros [= <-]. split; [exact E|]. intros j Hj. lia.
  - destruct (startsWith p (x :: s)) eqn:E.
    + intros [= <-]. split; [exact E|]. intros j Hj. lia.
    + destruct (indexOf p s) as [i'|]; [|discriminate].
      intros [= <-]. destruct (IH i' eq_refl) as [H1 H2].
      split; [exact H1|]. intros [|j] Hj; [exact E|]. apply H2. lia.
Qed.

Lemma includes_false_iff (p s : list N) :
  includes p s = false <-> forall j, startsWith p (skipn j s) = false.
Proof.
  unfold includes. split.
  - induction s as [|x s IH]; cbn [indexOf].
    + destruct (startsWith p []) eqn:E; [discriminate|].
      intros _ j. now rewrite drop_nil.
    + destruct (startsWith p (x :: s)) eqn:E; [discriminate|].
      destruct (indexOf p s); [discriminate|].
      intros _ [|j]; [exact E|]. now apply IH.
  - intros Hall. destruct (indexOf p s) as [i|] eqn:E; [|reflexivity].
    destruct (indexOf_before p s i E) as [H1 _]. now rewrite Hall in H1.
Qed.

(** The text before the first occurrence holds no occurrence. *)
Lemma includes_before_first (p s : list N) (i : nat) :
  0 < length p -> indexOf p s = Some i -> includes p (firstn i s) = false.
Proof.
  intros Hp Hi. destruct (indexOf_before p s i Hi) as [_ Hb].
  apply includes_false_iff. intros j.
  destruct (Nat.lt_ge_cases j i) as [Hj|Hj].
  - destruct (startsWith p (skipn j (firstn i s))) eqn:E; [|reflexivity].
    rewrite <- (Hb j Hj). symmetry.
    rewrite <- (take_drop i s) at 1. rewrite skipn_app.
    now apply startsWith_app_long.
  - rewrite skipn_all2 by (rewrite length_firstn; lia).
    destruct p; [simpl in Hp; lia|reflexivity].
Qed.

Lemma indexOf_decompose (p s : list N) (i : nat) :
  indexOf p s = Some i -> s = firstn i s ++ p ++ skipn (i + length p) s.
Proof.
  intros Hi. destruct (indexOf_before p s i Hi) as [H1 _].
  destruct (startsWith_prefix _ _ H1) as [t Ht].
  rewrite <- (take_drop i s) at 1. f_equal.
  rewrite <- drop_drop, Ht. now rewrite drop_app_length.
Qed.

(** A scope read off a name is the name up to its first slash. *)
Lemma scopeOfName_prefix (name : option Json) (scope : list N) :
  scopeOfName name = Some scope ->
  exists nm rest,
    name = Some (JString nm) /\ nm = scope ++ lit "/" ++ rest
    /\ includes (lit "/") scope = false.
Proof.
  unfold scopeOfName.
  destruct name as [[| | |nm| |]|]; try discriminate.
  destruct (startsWith (lit "@") nm); [|discriminate].
  unfold includes at 1. destruct (indexOf (lit "/") nm) as [i|] eqn:Hi; [|discriminate].
  cbn [andb]. intros [= <-]. rewrite substring_from_zero.
  exists nm, (skipn (i + length (lit "/")) nm). split; [reflexivity|]. split.
  - now apply indexOf_decompose.
  - apply (includes_before_first (lit "/") nm i); [simpl; lia|exact Hi].
Qed.

Lemma scopeOfPackageJson_named (tree : Tree) (p scope : list N) :
  tree_exists tree p = true ->
  scopeOfPackageJson readJson tree p = Some scope -> namedBy readJson tree p scope.
Proof.
  intros Hex. unfold scopeOfPackageJson.
  destruct (readJson tree p) as [packageJson|] eqn:Hr; [|discriminate].
  destruct (getProp packageJson (lit "name")) as [name|] eqn:Hn; [|discriminate].
  intros Hs. destruct (scopeOfName_prefix name scope Hs) as (nm & rest & -> & E & Hno).
  exists packageJson, nm, rest. auto.
Qed.

Lemma scanChildren_named (tree : Tree) (dir : list N) (cs : list (list N))
    (scope : list N) :
  scanChildren readJson tree dir cs = Some scope ->
  exists child, In child cs
                /\ namedBy readJson tree (dir ++ lit "/" ++ child ++ lit "/package.json") scope.
Proof.
  induction cs as [|child cs IH]; cbn [scanChildren]; [discriminate|].
  destruct (tree_exists tree _) eqn:Hex.
  - destruct (scopeOfPackageJson readJson tree _) as [s|] eqn:E.
    + intros [= <-]. exists child. split; [now left|].
      now apply scopeOfPackageJson_named.
    + intros Hs. destruct (IH Hs) as (c & Hc & Hn). exists c. split; [now right|exact Hn].
  - intros Hs. destruct (IH Hs) as (c & Hc & Hn). exists c. split; [now right|exact Hn].
Qed.

Lemma scanPackageDirs_named (tree : Tree) (dirs : list (list N)) (scope : list N) :
  scanPackageDirs readJson tree dirs = Some scope ->
  exists dir child,
    In dir dirs /\ In child (tree_children tree dir)
    /\ namedBy readJson tree (dir ++ lit "/" ++ child ++ lit "/package.json") scope.
Proof.
  induction dirs as [|dir dirs IH]; cbn [scanPackageDirs]; [discriminate|].
  assert (Hrest : scanPackageDirs readJson tree dirs = Some scope ->
                  exists dir0 child,
                    In dir0 (dir :: dirs) /\ In child (tree_children tree dir0)
                    /\ namedBy readJson tree (dir0 ++ lit "/" ++ child ++ lit "/package.json") scope).
  { intros Hs. destruct (IH Hs) as (d & c & Hd & Hc & Hn).
    exists d, c. split; [now right|auto]. }
  destruct (tree_exists tree dir); [|exact Hrest].
  destruct (scanChildren readJson tree dir _) as [s|] eqn:E; [|exact Hrest].
  intros [= <-]. destruct (scanChildren_named tree dir _ s E) as (c & Hc & Hn).
  exists dir, c. split; [now left|auto].
Qed.

(** X10.  Where a scope returned by [getWorkspaceScope] comes from:
    either nx.json holds the string [npmScope], and the scope is that
    string with ['@'] put in front unless it is there already; or the
    scope is the name of a package up to its first slash, the package
    being one whose package.json lies in a child of [packages] or
    [libs], or the root package.json.  In the second case the scope
    holds no slash. *)
Theorem getWorkspaceScope_origin (tree : Tree) (scope : list N) :
  getWorkspaceScope readNxJson readJson tree = Some scope ->
  (exists nxJson npmScope,
     readNxJson tree = Ok nxJson
     /\ getFieldValue nxJson (lit "npmScope") = Ok (Some npmScope)
     /\ scope = if startsWith (lit "@") npmScope then npmScope
                else lit "@" ++ npmScope)
  \/ (exists dir child,
        In dir [lit "packages"; lit "libs"] /\ In child (tree_children tree dir)
        /\ namedBy readJson tree (dir ++ lit "/" ++ child ++ lit "/package.json") scope)
  \/ namedBy readJson tree (lit "package.json") scope.
Proof.
  unfold getWorkspaceScope.
  destruct (readNxJson tree) as [nxJson|e] eqn:Hnx.
  - destruct (getFieldValue nxJson (lit "npmScope")) as [[s|]|e] eqn:Hf.
    + intros [= <-]. left. now exists nxJson, s.
    + destruct (scanPackageDirs readJson tree _) as [s|] eqn:E.
      * intros [= <-]. right. left. now apply scanPackageDirs_named.
      * destruct (tree_exists tree (lit "package.json")) eqn:Hex; [|discriminate].
        intros Hs. right. right.
        now apply scopeOfPackageJson_named.
    + destruct (scanPackageDirs readJson tree _) as [s|] eqn:E.
      * intros [= <-]. right. left. now apply scanPackageDirs_named.
      * destruct (tree_exists tree (lit "package.json")) eqn:Hex; [|discriminate].
        intros Hs. right. right.
        now apply scopeOfPackageJson_named.
  - destruct (scanPackageDirs readJson tree _) as [s|] eqn:E.
    + intros [= <-]. right. left. now apply scanPackageDirs_named.
    + destruct (tree_exists tree (lit "package.json")) eqn:Hex; [|discriminate].
      intros Hs. right. right.
      now apply scopeOfPackageJson_named.
Qed.

End ScopeOrigin.

Lemma getWorkspaceScope_origin_witness :
  (exists nxJson npmScope,
     Ok (JObject []) = Ok nxJson
     /\ Workspace.getFieldValue nxJson (lit "npmScope") = Ok (Some npmScope)
     /\ lit "@analog-tools" = if startsWith (lit "@") npmScope then npmScope
                              else lit "@" ++ npmScope)
  \/ (exists dir child,
        In dir [lit "packages"; lit "libs"]
        /\ In child (tree_children scopedPackages dir)
        /\ namedBy samplePackageJson scopedPackages
             (dir ++ lit "/" ++ child ++ lit "/package.json") (lit "@analog-tools"))
  \/ namedBy samplePackageJson scopedPackages (lit "package.json") (lit "@analog-tools").
Proof.
  apply (getWorkspaceScope_origin (fun _ => Ok (JObject [])) samplePackageJson
           scopedPackages (lit "@analog-tools")).
  vm_compute. reflexivity.
Defined.

(** ** init-auth: packages and the generator version *)

Section PackagesFacts.

Import InitAuth.

Context {Tree : Type} `{TreeOps Tree}.
Variable Task : Type.
Variable readJson : Tree -> list N -> result Json.
Variable readProjectConfiguration : Tree -> list N -> result ProjectConfiguration.
Variable addDependenciesToPackageJson :
  list (list N * Json) -> list (list N * Json) -> Gen Tree Task.
Variable formatFiles : Gen Tree unit.
Variable joinPathFragments : list (list N) -> list N.
Variable JSON_parse : list N -> result Json.

Lemma versionAt_found (tree : Tree) (p : list N) (v : Json) :
  versionAt readJson tree p = Ok (Some v) ->
  truthy (Some v) = true
  /\ tree_exists tree p = true
  /\ exists generatorPackageJson,
       readJson tree p = Ok generatorPackageJson
       /\ getProp generatorPackageJson (lit "version") = Ok (Some v).
Proof.
  unfold versionAt. destruct (tree_exists tree p); [|discriminate].
  destruct (readJson tree p) as [pkg|]; [|discriminate].
  destruct (getProp pkg (lit "version")) as [w|] eqn:Hw; [|discriminate].
  destruct (truthy w) eqn:Ht; [|discriminate].
  intros [= ->]. split; [exact Ht|]. split; [reflexivity|]. now exists pkg.
Qed.

(** X11.  The version returned by [getGeneratorVersion] is never a
    falsy value: it is the text [latest], or the truthy [version] field
    of the generator's package.json under node_modules or, failing
    that, under packages/generator. *)
Theorem getGeneratorVersion_truthy (tree : Tree) :
  truthy (Some (getGeneratorVersion readJson tree)) = true
  /\ (getGeneratorVersion readJson tree = JString (lit "latest")
      \/ exists p generatorPackageJson,
           In p [lit "node_modules/@analog-tools/generator/package.json";
                 lit "packages/generator/package.json"]
           /\ tree_exists tree p = true
           /\ readJson tree p = Ok generatorPackageJson
           /\ getProp generatorPackageJson (lit "version")
              = Ok (Some (getGeneratorVersion readJson tree))).
Proof.
  unfold getGeneratorVersion.
  destruct (versionAt readJson tree (lit "node_modules/@analog-tools/generator/package.json"))
    as [[v|]|e] eqn:E1.
  - destruct (versionAt_found tree _ v E1) as (Ht & Hex & pkg & Hr & Hv).
    split; [exact Ht|]. right.
    exists (lit "node_modules/@analog-tools/generator/package.json"), pkg.
    split; [now left|auto].
  - destruct (versionAt readJson tree (lit "packages/generator/package.json"))
      as [[v|]|e] eqn:E2.
    + destruct (versionAt_found tree _ v E2) as (Ht & Hex & pkg & Hr & Hv).
      split; [exact Ht|]. right.
      exists (lit "packages/generator/package.json"), pkg.
      split; [right; now left|auto].
    + split; [reflexivity|now left].
    + split; [reflexivity|now left].
  - split; [reflexivity|now left].
Qed.

(** X12.  For an application whose root package.json exists but is not
    valid JSON, or is the JSON value [null], [initAuthGenerator] throws
    at step 0 and leaves the tree exactly as it was. *)
Theorem initAuthGenerator_bad_package_json
    (project text : list N) (tree : Tree) (cfg : ProjectConfiguration) :
  readProjectConfiguration tree project = Ok cfg ->
  projectType cfg = Some (lit "application") ->
  tree_exists tree (lit "package.json") = true ->
  tree_read tree (lit "package.json") = Some text ->
  (forall e, JSON_parse text = Throw e ->
     initAuthGenerator Task readJson readProjectConfiguration
       addDependenciesToPackageJson formatFiles joinPathFragments JSON_parse
       project tree
     = (tree, Throw e))
  /\ (JSON_parse text = Ok JNull ->
      initAuthGenerator Task readJson readProjectConfiguration
        addDependenciesToPackageJson formatFiles joinPathFragments JSON_parse
        project tree
      = (tree, Throw (lit "TypeError: Cannot read properties of null"))).
Proof.
  intros Hcfg Hty Hex Hread.
  unfold initAuthGenerator, bind, getTree, liftResult.
  rewrite Hcfg. cbv beta iota. rewrite Hty, str_eqb_refl. cbn [negb].
  unfold initAuthSteps, ensureAuthPackages, readText, bind, getTree, liftResult.
  cbv beta iota. rewrite Hex. cbn [negb]. rewrite Hread.
  split.
  - intros e ->. reflexivity.
  - intros ->. reflexivity.
Qed.

(** The dependencies [ensureAuthPackages] asks for. *)
Lemma missing_packages (dependencies devDependencies : option Json) (version : Json)
    (pkg : list N) (v : Json) :
  In (pkg, v)
     (List.map (fun pkg => (pkg, version))
        (List.filter
           (fun pkg => negb (listed dependencies pkg || listed devDependencies pkg))
           requiredPackages))
  <-> In pkg requiredPackages
      /\ listed dependencies pkg = false /\ listed devDependencies pkg = false
      /\ v = version.
Proof.
  rewrite in_map_iff. split.
  - intros (x & [= <- <-] & Hin). apply filter_In in Hin as [Hin Hl].
    apply negb_true_iff, orb_false_elim in Hl as [H1 H2]. auto.
  - intros (Hin & H1 & H2 & ->). exists pkg. split; [reflexivity|].
    apply filter_In. split; [exact Hin|]. now rewrite H1, H2.
Qed.

(** X13.  What [ensureAuthPackages] does when the root package.json
    parses to an object whose name is not that of the analog-tools
    repository: it leaves the tree alone and returns [null] when the
    four required packages are all listed (with a truthy value) under
    [dependencies] or [devDependencies]; otherwise it hands to
    [addDependenciesToPackageJson] exactly the required packages that
    are listed under neither, each at the generator version, and no
    development dependency. *)
Theorem ensureAuthPackages_asks_for_missing
    (tree : Tree) (text : list N) (fields : list (list N * Json)) :
  tree_exists tree (lit "package.json") = true ->
  tree_read tree (lit "package.json") = Some text ->
  JSON_parse text = Ok (JObject fields) ->
  jsonIs (lookupField (lit "name") fields) (lit "analog-tools") = false ->
  jsonIs (lookupField (lit "name") fields) (lit "@analog-tools/root") = false ->
  let dependencies := lookupField (lit "dependencies") fields in
  let devDependencies := lookupField (lit "devDependencies") fields in
  (forallb (fun pkg => listed dependencies pkg || listed devDependencies pkg)
     requiredPackages = true
   /\ ensureAuthPackages Task readJson addDependenciesToPackageJson JSON_parse tree
      = (tree, Ok None))
  \/ (exists deps,
        deps <> []
        /\ (forall pkg v,
              In (pkg, v) deps
              <-> In pkg requiredPackages
                  /\ listed dependencies pkg = false
                  /\ listed devDependencies pkg = false
                  /\ v = getGeneratorVersion readJson tree)
        /\ ensureAuthPackages Task readJson addDependenciesToPackageJson JSON_parse tree
           = match addDependenciesToPackageJson deps [] tree with
             | (tree', Ok task) => (tree', Ok (Some task))
             | (tree', Throw e) => (tree', Throw e)
             end).
Proof.
  intros Hex Hread Hparse Hn1 Hn2 dependencies devDependencies.
  unfold ensureAuthPackages, readText, bind, getTree, liftResult, ret.
  cbv beta iota. rewrite Hex. cbn [negb]. rewrite Hread, Hparse.
  cbn [getProp ownProperty]. rewrite Hn1, Hn2. cbn [orb].
  fold dependencies. fold devDependencies.
  set (missingPackages :=
         List.filter
           (fun pkg => negb (listed dependencies pkg || listed devDependencies pkg))
           requiredPackages).
  destruct missingPackages as [|pkg0 rest] eqn:Hm.
  - left. split; [|reflexivity].
    apply forallb_forall. intros pkg Hin.
    destruct (listed dependencies pkg || listed devDependencies pkg) eqn:E; [reflexivity|].
    assert (Hin' : In pkg missingPackages).
    { apply filter_In. split; [exact Hin|]. now rewrite E. }
    rewrite Hm in Hin'. destruct Hin'.
  - right. rewrite <- Hm.
    exists (List.map (fun pkg => (pkg, getGeneratorVersion readJson tree)) missingPackages).
    split; [rewrite Hm; discriminate|]. split.
    + intros pkg v. apply missing_packages.
    + replace (length missingPackages =? 0) with false by now rewrite Hm.
      destruct (addDependenciesToPackageJson _ [] tree) as [tree' [task|e]]; reflexivity.
Qed.

End PackagesFacts.

Lemma initAuthGenerator_bad_package_json_witness :
  InitAuth.initAuthGenerator unit (fun _ _ => Throw []) sampleProjects
    MemTree.addDependenciesToPackageJson MemTree.formatFiles
    MemTree.joinPathFragments (fun _ => Throw (lit "SyntaxError")) (lit "web")
    brokenPackageTree
  = (brokenPackageTree, Throw (lit "SyntaxError"))
  /\ InitAuth.initAuthGenerator unit (fun _ _ => Throw []) sampleProjects
       MemTree.addDependenciesToPackageJson MemTree.formatFiles
       MemTree.joinPathFragments (fun _ => Ok JNull) (lit "web") brokenPackageTree
     = (brokenPackageTree, Throw (lit "TypeError: Cannot read properties of null")).
Proof.
  split.
  - apply (initAuthGenerator_bad_package_json unit (fun _ _ => Throw [])
             sampleProjects MemTree.addDependenciesToPackageJson
             MemTree.formatFiles MemTree.joinPathFragments
             (fun _ => Throw (lit "SyntaxError")) (lit "web") (lit "{")
             brokenPackageTree
             (mkProject (lit "apps/web") (Some (lit "application"))));
      try reflexivity; vm_compute; reflexivity.
  - apply (initAuthGenerator_bad_package_json unit (fun _ _ => Throw [])
             sampleProjects MemTree.addDependenciesToPackageJson
             MemTree.formatFiles MemTree.joinPathFragments
             (fun _ => Ok JNull) (lit "web") (lit "{")
             brokenPackageTree
             (mkProject (lit "apps/web") (Some (lit "application"))));
      try reflexivity; vm_compute; reflexivity.
Defined.

Lemma ensureAuthPackages_asks_for_missing_witness :
  let dependencies := lookupField (lit "dependencies") partlyInstalled in
  let devDependencies := lookupField (lit "devDependencies") partlyInstalled in
  (forallb (fun pkg => InitAuth.listed dependencies pkg
                       || InitAuth.listed devDependencies pkg)
     InitAuth.requiredPackages = true
   /\ InitAuth.ensureAuthPackages unit (fun _ _ => Throw [])
        MemTree.addDependenciesToPackageJson (fun _ => Ok (JObject partlyInstalled))
        brokenPackageTree
      = (brokenPackageTree, Ok None))
  \/ (exists deps,
        deps <> []
        /\ (forall pkg v,
              In (pkg, v) deps
              <-> In pkg InitAuth.requiredPackages
                  /\ InitAuth.listed dependencies pkg = false
                  /\ InitAuth.listed devDependencies pkg = false
                  /\ v = InitAuth.getGeneratorVersion (fun _ _ => Throw [])
                           brokenPackageTree)
        /\ InitAuth.ensureAuthPackages unit (fun _ _ => Throw [])
             MemTree.addDependenciesToPackageJson
             (fun _ => Ok (JObject partlyInstalled)) brokenPackageTree
           = match MemTree.addDependenciesToPackageJson deps [] brokenPackageTree with
             | (tree', Ok task) => (tree', Ok (Some task))
             | (tree', Throw e) => (tree', Throw e)
             end).
Proof.
  apply (ensureAuthPackages_asks_for_missing unit (fun _ _ => Throw [])
           MemTree.addDependenciesToPackageJson (fun _ => Ok (JObject partlyInstalled))
           brokenPackageTree (lit "{") partlyInstalled);
    try reflexivity; vm_compute; reflexivity.
Defined.

(** ** Finding vite.config *)

Section FinderFacts.

Context {Tree : Type} `{TreeOps Tree}.
Variable path_join : list (list N) -> list N.
Variable joinPathFragments : list (list N) -> list N.
Variable readProjectConfiguration : Tree -> list N -> result ProjectConfiguration.

(** [find] returns the first element that passes the test. *)
Lemma find_first {A : Type} (f : A -> bool) (l : list A) :
  match List.find f l with
  | Some x => exists before after,
                l = before ++ x :: after /\ f x = true
                /\ forallb (fun y => negb (f y)) before = true
  | None => forallb (fun y => negb (f y)) l = true
  end.
Proof.
  induction l as [|a l IH]; cbn [List.find]; [reflexivity|].
  destruct (f a) eqn:Ha.
  - exists [], l. auto.
  - destruct (List.find f l) as [x|].
    + destruct IH as (before & after & -> & Hx & Hb).
      exists (a :: before), after. cbn [forallb app]. rewrite Ha, Hb. auto.
    + cbn [forallb]. now rewrite Ha, IH.
Qed.

(** X14.  The library generator's [findViteConfigPath] does not fail
    when the project configuration cannot be read: it then returns the
    first of the twelve standard paths that exists in the tree.  When
    the configuration is read and its root is not the empty string, the
    four paths under the project root come first: the result is the
    first that exists among these four followed by the standard ones.
    With an empty root only the standard paths are tried.  In each case
    [null] is returned only when none of the paths tried exists. *)
Theorem findViteConfigPath_first_candidate (tree : Tree) (projectName : list N) :
  let found := ViteConfigPath.findViteConfigPath path_join readProjectConfiguration
                 tree projectName in
  (forall e,
     readProjectConfiguration tree projectName = Throw e ->
     firstExisting tree (ViteConfigPath.standardPaths projectName) found)
  /\ (forall projectConfig,
        readProjectConfiguration tree projectName = Ok projectConfig ->
        root projectConfig <> [] ->
        firstExisting tree
          (ViteConfigPath.projectRootPaths path_join (root projectConfig)
           ++ ViteConfigPath.standardPaths projectName) found)
  /\ (forall projectConfig,
        readProjectConfiguration tree projectName = Ok projectConfig ->
        root projectConfig = [] ->
        firstExisting tree (ViteConfigPath.standardPaths projectName) found).
Proof.
  intros found. unfold found, ViteConfigPath.findViteConfigPath,
    ViteConfigPath.possiblePaths, firstExisting.
  repeat split.
  - intros e ->. apply (find_first (fun p => tree_exists tree p)).
  - intros cfg -> Hroot. destruct (root cfg) as [|c r]; [contradiction|].
    cbn [length Nat.ltb Nat.leb]. apply (find_first (fun p => tree_exists tree p)).
  - intros cfg -> ->. cbn [length Nat.ltb Nat.leb].
    apply (find_first (fun p => tree_exists tree p)).
Qed.

(** X15.  The init-auth generator's [findViteConfigPath] returns the
    first of [vite.config.ts], [.mts], [.js], [.mjs] under the project
    root that exists in the tree; it returns [null] when none exists,
    and also when the first that exists is the empty path. *)
Theorem initAuth_findViteConfigPath_first_candidate
    (tree : Tree) (projectRoot : list N) :
  let candidates :=
    [ joinPathFragments [projectRoot; lit "vite.config.ts"];
      joinPathFragments [projectRoot; lit "vite.config.mts"];
      joinPathFragments [projectRoot; lit "vite.config.js"];
      joinPathFragments [projectRoot; lit "vite.config.mjs"] ] in
  match InitAuth.findViteConfigPath joinPathFragments tree projectRoot with
  | Some p =>
      exists before after,
        candidates = before ++ p :: after /\ tree_exists tree p = true
        /\ forallb (fun q => negb (tree_exists tree q)) before = true
        /\ p <> []
  | None =>
      forallb (fun q => negb (tree_exists tree q)) candidates = true
      \/ exists before after,
           candidates = before ++ [] :: after /\ tree_exists tree [] = true
           /\ forallb (fun q => negb (tree_exists tree q)) before = true
  end.
Proof.
  intros candidates. unfold InitAuth.findViteConfigPath. fold candidates.
  pose proof (find_first (fun p => tree_exists tree p) candidates) as Hf.
  destruct (List.find (fun p => tree_exists tree p) candidates) as [p|].
  - destruct Hf as (before & after & E & Hp & Hb).
    destruct p as [|c p].
    + right. now exists before, after.
    + exists before, after. repeat split; auto.
  - now left.
Qed.

(** X16.  The two generators do not look for vite.config in the same
    order: with no [vite.config.ts] in the project root, and both
    [vite.config.js] and [vite.config.mts] there, the library
    generator picks the [.js] file and the init-auth generator the
    [.mts] file. *)
Theorem finders_disagree_on_js_and_mts
    (tree : Tree) (projectName : list N) (projectConfig : ProjectConfiguration) :
  readProjectConfiguration tree projectName = Ok projectConfig ->
  root projectConfig <> [] ->
  (forall file, path_join [root projectConfig; file]
                = joinPathFragments [root projectConfig; file]) ->
  joinPathFragments [root projectConfig; lit "vite.config.mts"] <> [] ->
  tree_exists tree (joinPathFragments [root projectConfig; lit "vite.config.ts"]) = false ->
  tree_exists tree (joinPathFragments [root projectConfig; lit "vite.config.js"]) = true ->
  tree_exists tree (joinPathFragments [root projectConfig; lit "vite.config.mts"]) = true ->
  ViteConfigPath.findViteConfigPath path_join readProjectConfiguration tree projectName
  = Some (joinPathFragments [root projectConfig; lit "vite.config.js"])
  /\ InitAuth.findViteConfigPath joinPathFragments tree (root projectConfig)
     = Some (joinPathFragments [root projectConfig; lit "vite.config.mts"]).
Proof.
  intros Hcfg Hroot Hjoin Hne Hts Hjs Hmts. split.
  - unfold ViteConfigPath.findViteConfigPath, ViteConfigPath.possiblePaths.
    rewrite Hcfg.
    destruct (root projectConfig) as [|c r] eqn:Er; [contradiction|].
    cbn [length Nat.ltb Nat.leb]. unfold ViteConfigPath.projectRootPaths.
    rewrite !Hjoin. cbn [app List.find]. now rewrite Hts, Hjs.
  - unfold InitAuth.findViteConfigPath. cbn [List.find]. rewrite Hts, Hmts.
    destruct (joinPathFragments [root projectConfig; lit "vite.config.mts"]);
      [contradiction|reflexivity].
Qed.

End FinderFacts.

Lemma finders_disagree_on_js_and_mts_witness :
  ViteConfigPath.findViteConfigPath MemTree.joinPathFragments sampleProjects
    twoConfigsTree (lit "web")
  = Some (lit "apps/web/vite.config.js")
  /\ InitAuth.findViteConfigPath MemTree.joinPathFragments twoConfigsTree (lit "apps/web")
     = Some (lit "apps/web/vite.config.mts").
Proof.
  apply (finders_disagree_on_js_and_mts MemTree.joinPathFragments
           MemTree.joinPathFragments sampleProjects twoConfigsTree (lit "web")
           (mkProject (lit "apps/web") (Some (lit "application"))));
    try reflexivity; try discriminate; vm_compute; reflexivity.
Defined.

(** The library project [ui] has its root at libs/ui: its own
    vite.config.mts is found although the vite.config.ts at the root of
    the workspace comes first among the standard paths.  For a project
    whose configuration cannot be read, the standard paths are tried and
    the one at the root of the workspace is found. *)
Lemma findViteConfigPath_first_candidate_witness :
  (ViteConfigPath.findViteConfigPath MemTree.joinPathFragments sampleProjects
     libraryConfigTree (lit "ui")
   = Some (lit "libs/ui/vite.config.mts")
   /\ firstExisting libraryConfigTree
        (ViteConfigPath.projectRootPaths MemTree.joinPathFragments (lit "libs/ui")
         ++ ViteConfigPath.standardPaths (lit "ui"))
        (ViteConfigPath.findViteConfigPath MemTree.joinPathFragments sampleProjects
           libraryConfigTree (lit "ui")))
  /\ (ViteConfigPath.findViteConfigPath MemTree.joinPathFragments sampleProjects
        libraryConfigTree (lit "docs")
      = Some (lit "vite.config.ts")
      /\ firstExisting libraryConfigTree (ViteConfigPath.standardPaths (lit "docs"))
           (ViteConfigPath.findViteConfigPath MemTree.joinPathFragments sampleProjects
              libraryConfigTree (lit "docs"))).
Proof.
  split; split; try (vm_compute; reflexivity).
  - apply (proj1 (proj2 (findViteConfigPath_first_candidate
                           MemTree.joinPathFragments sampleProjects
                           libraryConfigTree (lit "ui")))
             (mkProject (lit "libs/ui") (Some (lit "library"))));
      [vm_compute; reflexivity|discriminate].
  - apply (proj1 (findViteConfigPath_first_candidate
                    MemTree.joinPathFragments sampleProjects
                    libraryConfigTree (lit "docs"))
             (lit "Cannot find configuration for the project")).
    vm_compute. reflexivity.
Defined.

(** ** The noExternal edit: what it establishes, and when it gives up *)

Section NoExternalOutcome.

Import InitAuth.

Lemma execFrom_all_None (r : re) (s : list N) (i : nat) :
  (forall j, matchHere r (skipn j s) = None) -> execFrom r i s = None.
Proof.
  revert i. induction s as [|x s IH]; intros i Hall; cbn [execFrom].
  - pose proof (Hall 0) as H0. cbn [skipn] in H0. now rewrite H0.
  - pose proof (Hall 0) as H0. cbn [skipn] in H0. rewrite H0.
    apply IH. intros j. exact (Hall (S j)).
Qed.

Lemma matchHere_ssr_needs_ssr (s : list N) :
  startsWith (lit "ssr:") s = false -> matchHere ssrRegex s = None.
Proof.
  intros Hs. rewrite matchHere_ssr. unfold ssrSteps. cbn [runSteps]. now rewrite Hs.
Qed.

(** Without the text "ssr:" neither pattern matches. *)
Lemma no_ssr_no_match (content : list N) :
  includes (lit "ssr:") content = false ->
  exec noExternalRegex content = None /\ exec ssrRegex content = None.
Proof.
  intros Hno. pose proof (proj1 (includes_false_iff _ _) Hno) as Hall.
  split; apply execFrom_all_None; intros j.
  - now apply matchHere_noExternal_needs_ssr.
  - now apply matchHere_ssr_needs_ssr.
Qed.

Lemma exec_ssr_includes (content : list N) (m : MatchResult) :
  exec ssrRegex content = Some m -> includes (lit "ssr:") content = true.
Proof.
  intros Hm. destruct (includes (lit "ssr:") content) eqn:E; [reflexivity|].
  destruct (no_ssr_no_match content E) as [_ Hn]. congruence.
Qed.

(** The ssr.noExternal pattern begins with the ssr pattern. *)
Lemma matchHere_noExternal_needs_ssr_open (s : list N) :
  matchHere ssrRegex s = None -> matchHere noExternalRegex s = None.
Proof.
  rewrite matchHere_ssr, matchHere_noExternal. unfold noExternalSteps.
  rewrite runSteps_app. now destruct (runSteps ssrSteps s).
Qed.

Lemma no_ssr_open_no_match (content : list N) :
  exec ssrRegex content = None -> exec noExternalRegex content = None.
Proof.
  intros Hn. apply execFrom_all_None. intros j.
  apply matchHere_noExternal_needs_ssr_open.
  now apply (execFrom_None ssrRegex 0 content).
Qed.

Lemma patchNoExternal_None (content : list N) :
  patchNoExternal content = None -> listsAuth content.
Proof.
  unfold patchNoExternal, listsAuth.
  destruct (exec noExternalRegex content) as [m|].
  - destruct (includes authLiteral (groupText m 1)) eqn:E1.
    + intros _. exists m. auto.
    + destruct (includes authLiteralDouble (groupText m 1)) eqn:E2; [|discriminate].
      intros _. exists m. auto.
  - destruct (includes (lit "ssr:") content); [discriminate|].
    destruct (exec buildRegex content); discriminate.
Qed.

(** X17.  What the noExternal edit establishes.  When the text has an
    ssr.noExternal array (without ['$'] in it), or an [ssr: {] section
    without such an array, or no text [ssr:] at all and a [build: {]
    section, then after the edit the leftmost ssr.noExternal array of
    the text lists the auth package. *)
Theorem noExternal_patch_lists_package (content : list N) :
  (exists m, exec noExternalRegex content = Some m
             /\ forallb plain (groupText m 1) = true)
  \/ (exec noExternalRegex content = None
      /\ exists m, exec ssrRegex content = Some m)
  \/ (includes (lit "ssr:") content = false
      /\ exists m, exec buildRegex content = Some m) ->
  listsAuth (noExternalPatched content).
Proof.
  intros [(m & Hm & Hplain) | [(Hnone & m & Hm) | (Hno & m & Hm)]].
  - destruct (includes authLiteral (groupText m 1)
              || includes authLiteralDouble (groupText m 1)) eqn:Hin.
    + assert (E : patchNoExternal content = None)
        by (unfold patchNoExternal; now rewrite Hm, Hin).
      unfold noExternalPatched. rewrite E. now apply patchNoExternal_None.
    + pose proof (patchNoExternal_absent content m Hm Hin Hplain) as E.
      unfold noExternalPatched. rewrite E. apply patchNoExternal_None.
      now apply (noExternal_twice_appended content m Hm Hin Hplain).
  - assert (E : patchNoExternal content
                = Some (replaceStr ssrRegex
                          (lit "ssr: {" ++ nl
                           ++ lit "      noExternal: ['@analog-tools/auth'],") content)).
    { unfold patchNoExternal. now rewrite Hnone, (exec_ssr_includes content m Hm). }
    unfold noExternalPatched. rewrite E. apply patchNoExternal_None.
    now apply (noExternal_twice_ssr content m).
  - destruct (no_ssr_no_match content Hno) as [Hnone _].
    assert (E : patchNoExternal content
                = Some (sliceTo (index m) content
                        ++ (nl ++ lit "    ssr: {" ++ nl
                            ++ lit "      noExternal: ['@analog-tools/auth'],"
                            ++ nl ++ lit "    }," ++ nl ++ nl ++ lit "    ")
                        ++ substringFrom (index m) content)).
    { unfold patchNoExternal. now rewrite Hnone, Hno, Hm. }
    unfold noExternalPatched. rewrite E. apply patchNoExternal_None.
    now apply noExternal_twice_build.
Qed.

(** X18.  When the edit gives up.  A text in which [ssr:] occurs but is
    nowhere followed by an opening brace, and a text with neither
    [ssr:] nor a [build: {] section, are handed back for writing
    exactly as they were: the package is not added, and no
    ssr.noExternal array exists afterwards. *)
Theorem noExternal_patch_gives_up (content : list N) :
  (includes (lit "ssr:") content = true /\ exec ssrRegex content = None)
  \/ (includes (lit "ssr:") content = false /\ exec buildRegex content = None) ->
  patchNoExternal content = Some content
  /\ exec noExternalRegex (noExternalPatched content) = None.
Proof.
  intros Hcase.
  assert (Hnone : exec noExternalRegex content = None).
  { destruct Hcase as [[_ Hs] | [Hno _]].
    - now apply no_ssr_open_no_match.
    - now apply no_ssr_no_match. }
  assert (E : patchNoExternal content = Some content).
  { unfold patchNoExternal. rewrite Hnone.
    destruct Hcase as [[Hin Hs] | [Hno Hb]].
    - rewrite Hin. unfold replaceStr, replaceFn. now rewrite Hs.
    - now rewrite Hno, Hb. }
  split; [exact E|]. unfold noExternalPatched. now rewrite E.
Qed.

End NoExternalOutcome.

Lemma noExternal_patch_lists_package_witness :
  listsAuth (noExternalPatched (lit "export default { ssr: { noExternal: ['zone.js'] } }"))
  /\ listsAuth (noExternalPatched (lit "export default { ssr: { target: 'node' } }"))
  /\ listsAuth (noExternalPatched (lit "export default { build: { target: 'es2020' } }")).
Proof.
  repeat split.
  - apply noExternal_patch_lists_package. left.
    exists (mkMatch 17 (lit "ssr: { noExternal: ['zone.js']") [(1, lit "'zone.js'")]).
    split; vm_compute; reflexivity.
  - apply noExternal_patch_lists_package. right. left.
    split; [vm_compute; reflexivity|].
    exists (mkMatch 17 (lit "ssr: {") []). vm_compute. reflexivity.
  - apply noExternal_patch_lists_package. right. right.
    split; [vm_compute; reflexivity|].
    exists (mkMatch 17 (lit "build: {") []). vm_compute. reflexivity.
Defined.

Lemma noExternal_patch_gives_up_witness :
  InitAuth.patchNoExternal (lit "export default { ssr: true }")
  = Some (lit "export default { ssr: true }")
  /\ InitAuth.patchNoExternal (lit "export default { plugins: [analog()] }")
     = Some (lit "export default { plugins: [analog()] }").
Proof.
  split.
  - apply (noExternal_patch_gives_up (lit "export default { ssr: true }")).
    left. split; vm_compute; reflexivity.
  - apply (noExternal_patch_gives_up (lit "export default { plugins: [analog()] }")).
    right. split; vm_compute; reflexivity.
Defined.

(** ** app.config.ts: the interceptor list *)

Section InterceptorFacts.

Import InitAuth.

(** A pattern whose first code unit does not occur again in it cannot
    begin before a text that begins with that code unit and end inside
    it. *)
Lemma startsWith_not_straddling (h : N) (p v y : list N) :
  existsb (N.eqb h) p = false -> 0 < length v ->
  startsWith (h :: p) (v ++ h :: y) = true -> startsWith (h :: p) v = true.
Proof.
  intros Hp Hv. destruct v as [|x v]; [simpl in Hv; lia|].
  cbn [app startsWith]. intros Hs. apply andb_prop in Hs as [Hx Hs].
  rewrite Hx. cbn [andb]. now apply (startsWith_app_barrier p v y h).
Qed.

Lemma noneOf_bracket_run (g rest : list N) :
  existsb (N.eqb (ch "]")) g = false ->
  dropWhile (fun c => negb (existsb (N.eqb c) (lit "]"))) (g ++ ch "]" :: rest)
  = ch "]" :: rest.
Proof.
  intros Hg. rewrite dropWhile_run; [reflexivity|].
  induction g as [|x g IH]; [reflexivity|].
  cbn [existsb] in Hg. apply orb_false_elim in Hg as [Hx Hg].
  cbn [forallb]. rewrite (IH Hg), andb_true_r.
  change (existsb (N.eqb x) (lit "]")) with ((x =? ch "]")%N || false).
  now rewrite orb_false_r, N.eqb_sym, Hx.
Qed.

Lemma matchk_Group {R : Type} (i : nat) (a : re) (s : list N)
    (c : list (nat * list N)) (k : list N -> list (nat * list N) -> option R) :
  matchk (Group i a) s c k
  = matchk a s c (fun s' c' => k s' ((i, firstn (length s - length s') s) :: c')).
Proof. reflexivity. Qed.

(** Where the interceptors pattern matches: the list up to the first
    closing bracket, when a closing parenthesis follows it. *)
Lemma matchHere_interceptors (g post : list N) :
  existsb (N.eqb (ch "]")) g = false ->
  matchHere interceptorsRegex (lit "withInterceptors([" ++ g ++ lit "])" ++ post)
  = Some (post, [(1, g)]).
Proof.
  intros Hg. unfold matchHere, interceptorsRegex.
  rewrite matchk_Seq, matchk_Lit_app. cbv beta.
  rewrite matchk_Seq, matchk_Group.
  unfold noneOf. rewrite matchk_star_class.
  - change (g ++ lit "])" ++ post) with (g ++ ch "]" :: ch ")" :: post).
    rewrite (noneOf_bracket_run g (ch ")" :: post) Hg).
    change (ch "]" :: ch ")" :: post) with (lit "])" ++ post).
    rewrite matchk_Lit_app. f_equal. f_equal. f_equal. f_equal.
    rewrite !length_app.
    replace (length g + (length (lit "])") + length post)
             - length post) with (length g + 2) by (cbn [length lit]; simpl; lia).
    replace (length g + (length (lit "])") + length post)
             - (length (lit "])") + length post)) with (length g) by lia.
    now rewrite take_app_length.
  - intros x t c' Hx _.
    change (Lit (lit "])")) with (Seq (Chr (ch "]")) (Lit (lit ")"))).
    rewrite matchk_Seq. apply matchk_Chr_neq. intros <-. discriminate Hx.
Qed.

Lemma exec_interceptors (pre g post : list N) :
  includes (lit "withInterceptors([") pre = false ->
  existsb (N.eqb (ch "]")) g = false ->
  exec interceptorsRegex (pre ++ lit "withInterceptors([" ++ g ++ lit "])" ++ post)
  = Some (mkMatch (length pre) (lit "withInterceptors([" ++ g ++ lit "])") [(1, g)]).
Proof.
  intros Hpre Hg. unfold exec.
  rewrite (execFrom_found interceptorsRegex 0 pre
             (lit "withInterceptors([" ++ g ++ lit "])" ++ post) post [(1, g)]).
  - cbn [Nat.add]. f_equal. f_equal.
    replace (lit "withInterceptors([" ++ g ++ lit "])" ++ post)
      with ((lit "withInterceptors([" ++ g ++ lit "])") ++ post)
      by (rewrite <- !app_assoc; reflexivity).
    rewrite length_app.
    replace (length (lit "withInterceptors([" ++ g ++ lit "])") + length post
             - length post)
      with (length (lit "withInterceptors([" ++ g ++ lit "])")) by lia.
    now rewrite take_app_length.
  - now apply matchHere_interceptors.
  - intros j Hj.
    destruct (skipn_app_short j pre
                (lit "withInterceptors([" ++ g ++ lit "])" ++ post) Hj) as [-> Hv].
    unfold matchHere, interceptorsRegex. rewrite matchk_Seq, matchk_Lit.
    destruct (startsWith (lit "withInterceptors([")
                (skipn j pre ++ lit "withInterceptors([" ++ g ++ lit "])" ++ post))
      eqn:E; [|reflexivity].
    exfalso.
    pose proof (proj1 (includes_false_iff _ _) Hpre j) as Hj'.
    pose proof (startsWith_not_straddling (ch "w") (lit "ithInterceptors([")
                  (skipn j pre) (lit "ithInterceptors([" ++ g ++ lit "])" ++ post)
                  eq_refl Hv E) as Hs.
    change (ch "w" :: lit "ithInterceptors([") with (lit "withInterceptors([") in Hs.
    congruence.
Qed.

(** X19.  The interceptor list of app.config.ts.  For the first call
    [withInterceptors([...])] of the text, whose list holds no ['$']:
    when the list does not mention [authInterceptor], the edit puts it
    at the end of the trimmed list, after [", "] when the list holds
    something; when the list mentions it, the text is not changed.
    Everything outside the list is kept. *)
Theorem addAuthInterceptor_appends_once (pre g post : list N) :
  includes (lit "withInterceptors([") pre = false ->
  existsb (N.eqb (ch "]")) g = false ->
  forallb plain g = true ->
  addAuthInterceptor (pre ++ lit "withInterceptors([" ++ g ++ lit "])" ++ post)
  = if includes (lit "authInterceptor") g
    then pre ++ lit "withInterceptors([" ++ g ++ lit "])" ++ post
    else pre ++ lit "withInterceptors(["
         ++ (if 0 <? length (trim g) then trim g ++ lit ", authInterceptor"
             else lit "authInterceptor")
         ++ lit "])" ++ post.
Proof.
  intros Hpre Hg Hplain. unfold addAuthInterceptor.
  rewrite (exec_interceptors pre g post Hpre Hg).
  unfold groupText, group. cbn [groups capture Nat.eqb].
  destruct (includes (lit "authInterceptor") g); cbn [negb]; [reflexivity|].
  unfold replaceStr, replaceFn.
  rewrite (exec_interceptors pre g post Hpre Hg). cbn [index matched groups].
  rewrite getSubstitution_plain.
  - rewrite take_app_length.
    replace (pre ++ lit "withInterceptors([" ++ g ++ lit "])" ++ post)
      with ((pre ++ lit "withInterceptors([" ++ g ++ lit "])") ++ post)
      by (rewrite <- !app_assoc; reflexivity).
    replace (length pre + length (lit "withInterceptors([" ++ g ++ lit "])"))
      with (length (pre ++ lit "withInterceptors([" ++ g ++ lit "])"))
      by (rewrite length_app; reflexivity).
    rewrite drop_app_length. rewrite <- !app_assoc. reflexivity.
  - rewrite !forallb_app.
    destruct (0 <? length (trim g)).
    + rewrite forallb_app, (forallb_trim plain g Hplain). reflexivity.
    + reflexivity.
Qed.

End InterceptorFacts.

Lemma addAuthInterceptor_appends_once_witness :
  InitAuth.addAuthInterceptor
    (lit "provideHttpClient(withFetch(), withInterceptors([ logging ])),")
  = lit "provideHttpClient(withFetch(), withInterceptors([logging, authInterceptor])),"
  /\ InitAuth.addAuthInterceptor (lit "provideHttpClient(withInterceptors([])),")
     = lit "provideHttpClient(withInterceptors([authInterceptor])),".
Proof.
  split.
  - apply (addAuthInterceptor_appends_once (lit "provideHttpClient(withFetch(), ")
             (lit " logging ") (lit "),")); reflexivity.
  - apply (addAuthInterceptor_appends_once (lit "provideHttpClient(") [] (lit "),"));
      reflexivity.
Defined.

(** ** app.config.ts: the providers array *)

Section ProvidersFacts.

Import InitAuth.

(** White space and then a code unit that the text does not hold. *)
Lemma starLoop_ws_then_absent {R : Type} (a : N) (r : re)
    (k : list N -> list (nat * list N) -> option R) (n : nat) :
  forall (s : list N) (c : list (nat * list N)),
    existsb (N.eqb a) s = false ->
    starLoop (fun s c k => matchk ws s (clearCaps (groupsOf ws) c) k) true
      (fun s' c' => matchk (Seq (Chr a) r) s' c' k) n s c = None.
Proof.
  induction n as [|n IH]; intros s c Hs; cbn [starLoop].
  - destruct s as [|y t]; [reflexivity|].
    cbn [existsb] in Hs. apply orb_false_elim in Hs as [Hy _].
    rewrite matchk_Seq. apply matchk_Chr_neq. intros <-. now rewrite N.eqb_refl in Hy.
  - assert (Hk : matchk (Seq (Chr a) r) s c k = None).
    { destruct s as [|y t]; [reflexivity|].
      cbn [existsb] in Hs. apply orb_false_elim in Hs as [Hy _].
      rewrite matchk_Seq. apply matchk_Chr_neq. intros <-. now rewrite N.eqb_refl in Hy. }
    rewrite Hk. unfold ws at 1. cbn [matchk].
    destruct s as [|y t]; [reflexivity|].
    destruct (isWhiteSpace y); [|reflexivity].
    destruct (length t <? length (y :: t)); [|reflexivity].
    cbn [existsb] in Hs. apply orb_false_elim in Hs as [_ Ht].
    now rewrite IH.
Qed.

Lemma existsb_skipn (a : N) (s : list N) (j : nat) :
  existsb (N.eqb a) s = false -> existsb (N.eqb a) (skipn j s) = false.
Proof.
  revert j. induction s as [|x s IH]; intros j Hs.
  - now rewrite drop_nil.
  - destruct j as [|j]; [exact Hs|].
    cbn [existsb] in Hs. apply orb_false_elim in Hs as [_ Hs]. cbn [skipn].
    now apply IH.
Qed.

(** The last-provider pattern needs a line feed. *)
Lemma lastProvider_needs_line_feed (g : list N) :
  existsb (N.eqb 10%N) g = false -> exec lastProviderRegex g = None.
Proof.
  intros Hg. apply execFrom_all_None. intros j.
  unfold matchHere, lastProviderRegex. rewrite matchk_Seq.
  destruct (skipn j g) as [|y t] eqn:E; [reflexivity|].
  destruct (N.eqb_spec (ch ",") y) as [<-|Hy]; [|now apply matchk_Chr_neq].
  rewrite matchk_Chr_eq, matchk_Seq.
  assert (Ht : existsb (N.eqb 10%N) t = false).
  { pose proof (existsb_skipn 10%N g j Hg) as Hj. rewrite E in Hj.
    cbn [existsb] in Hj. now apply orb_false_elim in Hj as [_ Hj]. }
  refine (starLoop_ws_then_absent 10%N _ _ (length t) t [] Ht).
Qed.

Lemma matchHere_providersOpen (s : list N) :
  matchHere providersOpenRegex s
  = match runSteps [SLit (lit "providers:"); SWs; SChr (ch "[")] s with
    | Some rest => Some (rest, [])
    | None => None
    end.
Proof.
  unfold matchHere.
  change providersOpenRegex
    with (stepsRe [SLit (lit "providers:"); SWs] (Chr (ch "["))).
  rewrite (matchk_steps true);
    [|reflexivity
     |intros _ x t c' k Hx; apply matchk_Chr_neq; intros <-; discriminate Hx].
  change [SLit (lit "providers:"); SWs; SChr (ch "[")]
    with ([SLit (lit "providers:"); SWs] ++ [SChr (ch "[")]).
  rewrite runSteps_app.
  destruct (runSteps [SLit (lit "providers:"); SWs] s) as [s1|]; [|reflexivity].
  cbn [matchk runSteps]. destruct s1 as [|x t]; [reflexivity|].
  destruct (ch "[" =? x)%N; reflexivity.
Qed.

Lemma exec_providersOpen (pre w rest : list N) :
  includes (lit "providers:") pre = false ->
  forallb isWhiteSpace w = true ->
  exec providersOpenRegex (pre ++ lit "providers:" ++ w ++ lit "[" ++ rest)
  = Some (mkMatch (length pre) (lit "providers:" ++ w ++ lit "[") []).
Proof.
  intros Hpre Hw. unfold exec.
  rewrite (execFrom_found providersOpenRegex 0 pre
             (lit "providers:" ++ w ++ lit "[" ++ rest) rest []).
  - cbn [Nat.add]. f_equal. f_equal.
    replace (lit "providers:" ++ w ++ lit "[" ++ rest)
      with ((lit "providers:" ++ w ++ lit "[") ++ rest)
      by (rewrite <- !app_assoc; reflexivity).
    rewrite length_app.
    replace (length (lit "providers:" ++ w ++ lit "[") + length rest - length rest)
      with (length (lit "providers:" ++ w ++ lit "[")) by lia.
    now rewrite take_app_length.
  - rewrite matchHere_providersOpen. cbn [runSteps].
    rewrite startsWith_app, drop_app_length.
    change (w ++ lit "[" ++ rest) with (w ++ ch "[" :: rest).
    rewrite dropWhile_run by exact Hw.
    reflexivity.
  - intros j Hj.
    destruct (skipn_app_short j pre (lit "providers:" ++ w ++ lit "[" ++ rest) Hj)
      as [-> Hv].
    rewrite matchHere_providersOpen. cbn [runSteps].
    destruct (startsWith (lit "providers:")
                (skipn j pre ++ lit "providers:" ++ w ++ lit "[" ++ rest))
      eqn:E; [|reflexivity].
    exfalso.
    pose proof (proj1 (includes_false_iff _ _) Hpre j) as Hj'.
    pose proof (startsWith_not_straddling (ch "p") (lit "roviders:")
                  (skipn j pre) (lit "roviders:" ++ w ++ lit "[" ++ rest)
                  eq_refl Hv E) as Hs.
    change (ch "p" :: lit "roviders:") with (lit "providers:") in Hs.
    congruence.
Qed.

(** X20.  The providers array of app.config.ts.  When the text of the
    array holds no line feed (an empty array, or an array written on
    one line) and does not mention [provideAuthClient], the call
    [provideAuthClient()] is put first in the array, on a line of its
    own right after the opening bracket of the first [providers:] of
    the file, and the white space between the colon and the bracket
    becomes one space; when the text of the array mentions
    [provideAuthClient], nothing is changed. *)
Theorem addProvideAuthClient_single_line (providersContent pre w rest : list N) :
  includes (lit "providers:") pre = false ->
  forallb isWhiteSpace w = true ->
  existsb (N.eqb 10%N) providersContent = false ->
  addProvideAuthClient providersContent
    (pre ++ lit "providers:" ++ w ++ lit "[" ++ rest)
  = if includes (lit "provideAuthClient") providersContent
    then pre ++ lit "providers:" ++ w ++ lit "[" ++ rest
    else pre ++ lit "providers: [" ++ nl ++ lit "    provideAuthClient()," ++ rest.
Proof.
  intros Hpre Hw Hg. unfold addProvideAuthClient.
  destruct (includes (lit "provideAuthClient") providersContent); cbn [negb];
    [reflexivity|].
  assert (E : replaceStr lastProviderRegex
                (lit "," ++ nl ++ lit "    $1," ++ nl ++ lit "    provideAuthClient(),")
                providersContent = providersContent).
  { unfold replaceStr, replaceFn.
    now rewrite (lastProvider_needs_line_feed providersContent Hg). }
  rewrite E, str_eqb_refl.
  unfold replaceStr, replaceFn.
  rewrite (exec_providersOpen pre w rest Hpre Hw). cbn [index matched groups].
  rewrite getSubstitution_plain by reflexivity.
  rewrite take_app_length.
  replace (pre ++ lit "providers:" ++ w ++ lit "[" ++ rest)
    with ((pre ++ lit "providers:" ++ w ++ lit "[") ++ rest)
    by (rewrite <- !app_assoc; reflexivity).
  replace (length pre + length (lit "providers:" ++ w ++ lit "["))
    with (length (pre ++ lit "providers:" ++ w ++ lit "["))
    by (rewrite length_app; reflexivity).
  rewrite drop_app_length. rewrite <- !app_assoc. reflexivity.
Qed.

End ProvidersFacts.

Lemma addProvideAuthClient_single_line_witness :
  InitAuth.addProvideAuthClient (lit "provideRouter(routes)")
    (lit "export const appConfig = { providers:  [provideRouter(routes)] };")
  = lit "export const appConfig = { providers: [" ++ nl
    ++ lit "    provideAuthClient(),provideRouter(routes)] };".
Proof.
  apply (addProvideAuthClient_single_line (lit "provideRouter(routes)")
           (lit "export const appConfig = { ") (lit "  ")
           (lit "provideRouter(routes)] };")); reflexivity.
Defined.

(** ** The library edit on an object without the keys *)

Section NewKeys.

Lemma endsWith_app (p s : list N) : endsWith p (s ++ p) = true.
Proof. unfold endsWith. rewrite rev_app_distr. apply startsWith_app. Qed.

Lemma hasBraces_braces (x : list N) : hasBraces (lit "{" ++ x ++ lit "}") = true.
Proof.
  unfold hasBraces. rewrite (app_assoc (lit "{") x (lit "}")), endsWith_app.
  reflexivity.
Qed.

Lemma stripBraces_braces (x : list N) : stripBraces (lit "{" ++ x ++ lit "}") = x.
Proof.
  unfold stripBraces, substring.
  replace (length (lit "{" ++ x ++ lit "}") - 1) with (S (length x))
    by (rewrite !length_app; cbn [length lit]; simpl; lia).
  rewrite Nat.max_r, Nat.min_l by lia.
  replace (S (length x) - 1) with (length x) by lia.
  change (skipn 1 (lit "{" ++ x ++ lit "}")) with (x ++ lit "}").
  now rewrite take_app_length.
Qed.

(** Trimming a text that ends with a code unit that is not white space,
    followed by white space. *)
Lemma trim_ends_solid (a w : list N) (y : N) :
  isWhiteSpace y = false -> forallb isWhiteSpace w = true ->
  exists a', trim (a ++ y :: w) = a' ++ [y].
Proof.
  intros Hy Hw. unfold trim, trimStart.
  induction a as [|x a IH].
  - exists []. cbn [app dropWhile]. rewrite Hy.
    apply (trimEnd_solid_blank [] w y Hy Hw).
  - cbn [app dropWhile]. destruct (isWhiteSpace x); [exact IH|].
    exists (x :: a). apply (trimEnd_solid_blank (x :: a) w y Hy Hw).
Qed.

Lemma needsCommaAfter_solid (a w : list N) (y : N) :
  isWhiteSpace y = false -> (y =? ch ",")%N = false ->
  forallb isWhiteSpace w = true ->
  needsCommaAfter (a ++ y :: w) = true.
Proof.
  intros Hy Hc Hw. unfold needsCommaAfter.
  destruct (trim_ends_solid a w y Hy Hw) as [a' ->].
  rewrite length_app. cbn [length].
  replace (0 <? length a' + 1) with true by (symmetry; apply Nat.ltb_lt; lia).
  unfold endsWith. rewrite rev_app_distr. cbn [rev app].
  change (startsWith (rev (lit ",")) (y :: rev a')) with ((ch "," =? y)%N && true).
  now rewrite N.eqb_sym, Hc.
Qed.

Lemma matchHere_closingBrace (s : list N) :
  matchHere closingBraceRegex s
  = match s with
    | x :: t =>
        if (ch "}" =? x)%N
        then match dropWhile isWhiteSpace t with
             | [] => Some ([], [])
             | _ :: _ => None
             end
        else None
    | [] => None
    end.
Proof.
  unfold matchHere.
  change closingBraceRegex with (stepsRe [SChr (ch "}"); SWs] Eoi).
  rewrite (matchk_steps true); [|reflexivity|reflexivity].
  cbn [runSteps]. destruct s as [|x t]; [reflexivity|].
  destruct (ch "}" =? x)%N; [|reflexivity].
  destruct (dropWhile isWhiteSpace t); reflexivity.
Qed.

(** In a text that ends with a closing brace, the pattern for the
    closing brace matches that brace and no other. *)
Lemma exec_closingBrace (body : list N) :
  exec closingBraceRegex (body ++ lit "}")
  = Some (mkMatch (length body) (lit "}") []).
Proof.
  unfold exec.
  rewrite (execFrom_found closingBraceRegex 0 body (lit "}") [] []).
  - reflexivity.
  - reflexivity.
  - intros j Hj. destruct (skipn_app_short j body (lit "}") Hj) as [-> Hv].
    rewrite matchHere_closingBrace.
    destruct (skipn j body) as [|x v]; [simpl in Hv; lia|].
    cbn [app]. destruct (ch "}" =? x)%N; [|reflexivity].
    change (v ++ lit "}") with (v ++ ch "}" :: []).
    rewrite (dropWhile_app_barrier isWhiteSpace v [] (ch "}") eq_refl).
    now destruct (dropWhile isWhiteSpace v).
Qed.

End NewKeys.

(** X21.  The library edit on an object that has none of the three
    keys.  The keys are added in the order liveReload,
    additionalPagesDirs, additionalAPIDirs (the last only when asked
    for), after the text of the object, which is kept as it is.  Each
    later key is added to the text as the earlier edit left it, so its
    comma comes after the indentation that preceded the closing brace,
    at the start of a line. *)
Theorem extendOptions_adds_keys_in_order (inner p a : list N) (shouldAddApi : bool) :
  test hasLiveReloadRegex inner = false ->
  test hasPagesDirRegex inner = false ->
  test hasApiDirRegex inner = false ->
  forallb plain a = true ->
  extendOptions true shouldAddApi p a (lit "{" ++ inner ++ lit "}")
  = lit "{" ++ nl ++ nl ++ inner ++ comma (needsCommaAfter inner) ++ nl
    ++ lit "        liveReload: true" ++ nl ++ lit "      ," ++ nl
    ++ lit "        additionalPagesDirs: [" ++ p ++ lit "]" ++ nl ++ lit "      "
    ++ (if shouldAddApi
        then lit "," ++ nl ++ lit "        additionalAPIDirs: [" ++ a ++ lit "]"
             ++ nl ++ lit "      }"
        else lit "}").
Proof.
  intros Hlive Hpages Hapi Hplain. unfold extendOptions.
  rewrite hasBraces_braces, stripBraces_braces, Hlive, Hpages, Hapi.
  cbn [negb andb].
  set (inner1 := nl ++ inner ++ comma (needsCommaAfter inner) ++ nl
                 ++ lit "        liveReload: true" ++ nl ++ lit "      ").
  assert (E1 : lit "{" ++ nl ++ inner ++ comma (needsCommaAfter inner) ++ nl
               ++ lit "        liveReload: true" ++ nl ++ lit "      }"
               = lit "{" ++ inner1 ++ lit "}").
  { unfold inner1. rewrite <- !app_assoc. reflexivity. }
  rewrite E1, stripBraces_braces.
  assert (Hc1 : needsCommaAfter inner1 = true).
  { unfold inner1.
    replace (nl ++ inner ++ comma (needsCommaAfter inner) ++ nl
             ++ lit "        liveReload: true" ++ nl ++ lit "      ")
      with ((nl ++ inner ++ comma (needsCommaAfter inner) ++ nl
             ++ lit "        liveReload: tru") ++ ch "e" :: nl ++ lit "      ")
      by (rewrite <- !app_assoc; reflexivity).
    now apply needsCommaAfter_solid. }
  rewrite Hc1. cbn [comma].
  set (inner2 := inner1 ++ lit "," ++ nl ++ lit "        additionalPagesDirs: ["
                 ++ p ++ lit "]" ++ nl ++ lit "      ").
  assert (E2 : lit "{" ++ nl ++ inner1 ++ lit "," ++ nl
               ++ lit "        additionalPagesDirs: [" ++ p ++ lit "]" ++ nl
               ++ lit "      }"
               = lit "{" ++ (nl ++ inner2) ++ lit "}").
  { unfold inner2. rewrite <- !app_assoc. reflexivity. }
  rewrite E2, hasBraces_braces, stripBraces_braces.
  assert (Hfinal : lit "{" ++ (nl ++ inner2)
                   = lit "{" ++ nl ++ nl ++ inner ++ comma (needsCommaAfter inner) ++ nl
                     ++ lit "        liveReload: true" ++ nl ++ lit "      ," ++ nl
                     ++ lit "        additionalPagesDirs: [" ++ p ++ lit "]" ++ nl
                     ++ lit "      ").
  { unfold inner2, inner1. rewrite <- !app_assoc. reflexivity. }
  destruct shouldAddApi; cbn [andb].
  - change (startsWith (lit "{") (lit "{" ++ (nl ++ inner2) ++ lit "}")) with true.
    cbv iota.
    assert (Hc2 : needsCommaAfter (nl ++ inner2) = true).
    { unfold inner2.
      replace (nl ++ inner1 ++ lit "," ++ nl ++ lit "        additionalPagesDirs: ["
               ++ p ++ lit "]" ++ nl ++ lit "      ")
        with ((nl ++ inner1 ++ lit "," ++ nl ++ lit "        additionalPagesDirs: ["
               ++ p) ++ ch "]" :: nl ++ lit "      ")
        by (rewrite <- !app_assoc; reflexivity).
      now apply needsCommaAfter_solid. }
    rewrite Hc2. cbn [comma].
    unfold replaceStr, replaceFn.
    rewrite (app_assoc (lit "{") (nl ++ inner2) (lit "}")).
    set (B := lit "{" ++ nl ++ inner2) in *.
    rewrite exec_closingBrace. cbn [index matched groups].
    rewrite getSubstitution_plain
      by (rewrite !forallb_app, Hplain; reflexivity).
    rewrite take_app_length.
    replace (length B + length (lit "}")) with (length (B ++ lit "}"))
      by (rewrite length_app; reflexivity).
    rewrite drop_all, app_nil_r, Hfinal. rewrite <- !app_assoc. reflexivity.
  - rewrite (app_assoc (lit "{") (nl ++ inner2) (lit "}")), Hfinal.
    rewrite <- !app_assoc. reflexivity.
Qed.

Lemma extendOptions_adds_keys_in_order_witness :
  extendOptions true true (lit "'libs/a/src/pages'") (lit "'libs/a/src/backend/api'")
    (lit "{ vite: { ssr: true } }")
  = lit "{" ++ nl ++ nl ++ lit " vite: { ssr: true } ," ++ nl
    ++ lit "        liveReload: true" ++ nl ++ lit "      ," ++ nl
    ++ lit "        additionalPagesDirs: ['libs/a/src/pages']" ++ nl ++ lit "      ,"
    ++ nl ++ lit "        additionalAPIDirs: ['libs/a/src/backend/api']" ++ nl
    ++ lit "      }".
Proof.
  apply (extendOptions_adds_keys_in_order (lit " vite: { ssr: true } ")
           (lit "'libs/a/src/pages'") (lit "'libs/a/src/backend/api'") true);
    reflexivity.
Defined.

(** ** The library edit on an existing array *)

Section ExistingArray.

(** A pattern whose last code unit occurs nowhere else in it cannot
    begin before a copy of itself and end inside that copy. *)
Lemma startsWith_short_of_last (s0 t0 r : list N) (z : N) :
  existsb (N.eqb z) t0 = false -> length s0 < length t0 ->
  startsWith (s0 ++ [z]) (t0 ++ r) = false.
Proof.
  revert t0. induction s0 as [|s s0 IH]; intros [|t t0] Ht Hl;
    try (simpl in Hl; lia).
  - cbn [existsb] in Ht. apply orb_false_elim in Ht as [Hz _].
    cbn [app startsWith]. now rewrite Hz.
  - cbn [existsb] in Ht. apply orb_false_elim in Ht as [_ Ht].
    cbn [app startsWith]. rewrite (IH t0 Ht) by (simpl in Hl; lia).
    apply andb_false_r.
Qed.

Lemma startsWith_not_straddling_last (s0 t0 v y : list N) (z : N) :
  existsb (N.eqb z) t0 = false -> length s0 < length v + length t0 ->
  startsWith (s0 ++ [z]) (v ++ t0 ++ z :: y) = true ->
  startsWith (s0 ++ [z]) v = true.
Proof.
  intros Ht. revert s0. induction v as [|x v IH]; intros s0 Hl.
  - cbn [app length Nat.add] in *.
    now rewrite (startsWith_short_of_last s0 t0 (z :: y) z Ht Hl).
  - destruct s0 as [|s s0]; cbn [app startsWith].
    + now rewrite !andb_true_r.
    + intros Hs. apply andb_prop in Hs as [Hx Hs]. rewrite Hx. cbn [andb].
      apply IH; [simpl in Hl; lia|exact Hs].
Qed.

Lemma execFrom_exists (r : re) (pre t : list N) (i : nat) :
  matchHere r t <> None -> execFrom r i (pre ++ t) <> None.
Proof.
  intros Hm. revert i. induction pre as [|x pre IH]; intros i.
  - cbn [app]. destruct t as [|y t]; cbn [execFrom];
      destruct (matchHere r _) as [[s' c]|]; congruence.
  - cbn [app execFrom].
    destruct (matchHere r (x :: pre ++ t)) as [[s' c]|]; [discriminate|]. apply IH.
Qed.

Lemma matchHere_pagesDirsArray (w dirs post : list N) :
  forallb isWhiteSpace w = true -> existsb (N.eqb (ch "]")) dirs = false ->
  matchHere pagesDirsArrayRegex
    (lit "additionalPagesDirs:" ++ w ++ lit "[" ++ dirs ++ lit "]" ++ post)
  = Some (post, [(1, dirs)]).
Proof.
  intros Hw Hd. unfold matchHere.
  change pagesDirsArrayRegex
    with (stepsRe [SLit (lit "additionalPagesDirs:"); SWs; SChr (ch "[")]
            (Seq (Group 1 (Star true (noneOf (lit "]")))) (Chr (ch "]")))).
  rewrite (matchk_steps false); [|reflexivity|discriminate].
  assert (Hrun : runSteps [SLit (lit "additionalPagesDirs:"); SWs; SChr (ch "[")]
                   (lit "additionalPagesDirs:" ++ w ++ lit "[" ++ dirs ++ lit "]" ++ post)
                 = Some (dirs ++ lit "]" ++ post)).
  { cbn [runSteps]. rewrite startsWith_app, drop_app_length.
    change (w ++ lit "[" ++ dirs ++ lit "]" ++ post)
      with (w ++ ch "[" :: dirs ++ lit "]" ++ post).
    rewrite dropWhile_run by exact Hw. reflexivity. }
  rewrite Hrun.
  rewrite matchk_Seq, matchk_Group. unfold noneOf. rewrite matchk_star_class.
  - change (dirs ++ lit "]" ++ post) with (dirs ++ ch "]" :: post).
    rewrite (noneOf_bracket_run dirs post Hd), matchk_Chr_eq.
    f_equal. f_equal. f_equal. f_equal.
    rewrite length_app. cbn [length].
    replace (length dirs + S (length post) - length post) with (length dirs + 1) by lia.
    replace (length dirs + S (length post) - S (length post)) with (length dirs) by lia.
    now rewrite take_app_length.
  - intros x t c' Hx _. apply matchk_Chr_neq. intros <-. discriminate Hx.
Qed.

Lemma exec_pagesDirsArray (pre w dirs post : list N) :
  includes (lit "additionalPagesDirs:") pre = false ->
  forallb isWhiteSpace w = true -> existsb (N.eqb (ch "]")) dirs = false ->
  exec pagesDirsArrayRegex
    (pre ++ lit "additionalPagesDirs:" ++ w ++ lit "[" ++ dirs ++ lit "]" ++ post)
  = Some (mkMatch (length pre)
            (lit "additionalPagesDirs:" ++ w ++ lit "[" ++ dirs ++ lit "]")
            [(1, dirs)]).
Proof.
  intros Hpre Hw Hd. unfold exec.
  rewrite (execFrom_found pagesDirsArrayRegex 0 pre
             (lit "additionalPagesDirs:" ++ w ++ lit "[" ++ dirs ++ lit "]" ++ post)
             post [(1, dirs)]).
  - cbn [Nat.add]. f_equal. f_equal.
    replace (lit "additionalPagesDirs:" ++ w ++ lit "[" ++ dirs ++ lit "]" ++ post)
      with ((lit "additionalPagesDirs:" ++ w ++ lit "[" ++ dirs ++ lit "]") ++ post)
      by (rewrite <- !app_assoc; reflexivity).
    rewrite length_app.
    replace (length (lit "additionalPagesDirs:" ++ w ++ lit "[" ++ dirs ++ lit "]")
             + length post - length post)
      with (length (lit "additionalPagesDirs:" ++ w ++ lit "[" ++ dirs ++ lit "]"))
      by lia.
    now rewrite take_app_length.
  - now apply matchHere_pagesDirsArray.
  - intros j Hj.
    destruct (skipn_app_short j pre
                (lit "additionalPagesDirs:" ++ w ++ lit "[" ++ dirs ++ lit "]" ++ post)
                Hj) as [-> Hv].
    unfold matchHere, pagesDirsArrayRegex. rewrite matchk_Seq, matchk_Lit.
    destruct (startsWith (lit "additionalPagesDirs:") _) eqn:E; [|reflexivity].
    exfalso.
    pose proof (proj1 (includes_false_iff _ _) Hpre j) as Hj'.
    pose proof (startsWith_not_straddling_last (lit "additionalPagesDirs")
                  (lit "additionalPagesDirs") (skipn j pre)
                  (w ++ lit "[" ++ dirs ++ lit "]" ++ post) (ch ":") eq_refl
                  ltac:(lia)) as Hs.
    change (lit "additionalPagesDirs" ++ [ch ":"])
      with (lit "additionalPagesDirs:") in Hs.
    change (lit "additionalPagesDirs" ++ ch ":" :: w ++ lit "[" ++ dirs ++ lit "]" ++ post)
      with (lit "additionalPagesDirs:" ++ w ++ lit "[" ++ dirs ++ lit "]" ++ post) in Hs.
    rewrite (Hs E) in Hj'. discriminate.
Qed.

Lemma test_hasPagesDir (pre w post : list N) :
  forallb isWhiteSpace w = true ->
  test hasPagesDirRegex (pre ++ lit "additionalPagesDirs" ++ w ++ lit ":" ++ post) = true.
Proof.
  intros Hw. unfold test, exec.
  pose proof (execFrom_exists hasPagesDirRegex pre
                (lit "additionalPagesDirs" ++ w ++ lit ":" ++ post) 0) as Hex.
  destruct (execFrom hasPagesDirRegex 0 _); [reflexivity|].
  exfalso. apply Hex; [|reflexivity].
  unfold matchHere.
  change hasPagesDirRegex
    with (stepsRe [SLit (lit "additionalPagesDirs"); SWs] (Chr (ch ":"))).
  rewrite (matchk_steps true);
    [|reflexivity
     |intros _ x t c' k Hx; apply matchk_Chr_neq; intros <-; discriminate Hx].
  assert (Hrun : runSteps [SLit (lit "additionalPagesDirs"); SWs]
                   (lit "additionalPagesDirs" ++ w ++ lit ":" ++ post)
                 = Some (ch ":" :: post)).
  { cbn [runSteps]. rewrite startsWith_app, drop_app_length.
    change (w ++ lit ":" ++ post) with (w ++ ch ":" :: post).
    rewrite dropWhile_run by exact Hw. reflexivity. }
  rewrite Hrun, matchk_Chr_eq. discriminate.
Qed.

(** X22.  Adding the pages directory to an object that already has the
    array (the API directory not being asked for): the directory is put
    at the end of the first [additionalPagesDirs: [...]], after the
    trimmed text of the array and [", "], or alone when the array holds
    only white space; the array is rewritten with one space after the
    colon, the rest of the object is kept, and the directory is
    inserted as it is (a ['$'] in it is not expanded). *)
Theorem extendOptions_appends_pages_dir (pre w dirs post p a : list N) :
  includes (lit "additionalPagesDirs:") (lit "{" ++ pre) = false ->
  forallb isWhiteSpace w = true -> existsb (N.eqb (ch "]")) dirs = false ->
  extendOptions true false p a
    (lit "{" ++ pre ++ lit "additionalPagesDirs:" ++ w ++ lit "[" ++ dirs ++ lit "]"
     ++ post ++ lit "}")
  = lit "{" ++ pre ++ lit "additionalPagesDirs: ["
    ++ (if 0 <? length (trim dirs) then trim dirs ++ lit ", " else [])
    ++ p ++ lit "]" ++ post ++ lit "}".
Proof.
  intros Hpre Hw Hd. unfold extendOptions.
  replace (lit "{" ++ pre ++ lit "additionalPagesDirs:" ++ w ++ lit "[" ++ dirs
           ++ lit "]" ++ post ++ lit "}")
    with (lit "{" ++ (pre ++ lit "additionalPagesDirs:" ++ w ++ lit "[" ++ dirs
                      ++ lit "]" ++ post) ++ lit "}")
    by (rewrite <- !app_assoc; reflexivity).
  rewrite hasBraces_braces, stripBraces_braces.
  assert (Ht : test hasPagesDirRegex
                 (pre ++ lit "additionalPagesDirs:" ++ w ++ lit "[" ++ dirs
                  ++ lit "]" ++ post) = true).
  { change (lit "additionalPagesDirs:" ++ w ++ lit "[" ++ dirs ++ lit "]" ++ post)
      with (lit "additionalPagesDirs" ++ [] ++ lit ":"
            ++ (w ++ lit "[" ++ dirs ++ lit "]" ++ post)).
    now apply test_hasPagesDir. }
  rewrite Ht. cbn [andb negb].
  set (result := replaceFn pagesDirsArrayRegex _ _).
  assert (Hr : result
               = lit "{" ++ pre ++ lit "additionalPagesDirs: ["
                 ++ (if 0 <? length (trim dirs) then trim dirs ++ lit ", " else [])
                 ++ p ++ lit "]" ++ post ++ lit "}").
  { unfold result, replaceFn.
    replace (lit "{" ++ (pre ++ lit "additionalPagesDirs:" ++ w ++ lit "[" ++ dirs
                         ++ lit "]" ++ post) ++ lit "}")
      with ((lit "{" ++ pre) ++ lit "additionalPagesDirs:" ++ w ++ lit "[" ++ dirs
            ++ lit "]" ++ (post ++ lit "}"))
      by (rewrite <- !app_assoc; reflexivity).
    rewrite (exec_pagesDirsArray (lit "{" ++ pre) w dirs (post ++ lit "}") Hpre Hw Hd).
    cbn [index matched]. unfold appendDir, group. cbn [groups capture Nat.eqb].
    rewrite take_app_length.
    replace ((lit "{" ++ pre) ++ lit "additionalPagesDirs:" ++ w ++ lit "[" ++ dirs
             ++ lit "]" ++ post ++ lit "}")
      with (((lit "{" ++ pre) ++ lit "additionalPagesDirs:" ++ w ++ lit "[" ++ dirs
             ++ lit "]") ++ post ++ lit "}")
      by (rewrite <- !app_assoc; reflexivity).
    replace (length (lit "{" ++ pre)
             + length (lit "additionalPagesDirs:" ++ w ++ lit "[" ++ dirs ++ lit "]"))
      with (length ((lit "{" ++ pre) ++ lit "additionalPagesDirs:" ++ w ++ lit "["
                    ++ dirs ++ lit "]"))
      by (rewrite length_app; reflexivity).
    rewrite drop_app_length. rewrite <- !app_assoc. reflexivity. }
  destruct (negb (test hasLiveReloadRegex _)); exact Hr.
Qed.

(** X23.  A key written with white space before its colon.  The test
    for the key accepts it, the pattern that rewrites the array does
    not: when [additionalPagesDirs:] occurs nowhere in the object, but
    [additionalPagesDirs] followed by white space and a colon does, the
    edit that adds the pages directory returns the object as it was; no
    directory is added, and no liveReload key either. *)
Theorem extendOptions_spaced_key_unchanged (pre w post p a : list N) :
  forallb isWhiteSpace w = true ->
  includes (lit "additionalPagesDirs:")
    (lit "{" ++ pre ++ lit "additionalPagesDirs" ++ w ++ lit ":" ++ post ++ lit "}")
  = false ->
  extendOptions true false p a
    (lit "{" ++ pre ++ lit "additionalPagesDirs" ++ w ++ lit ":" ++ post ++ lit "}")
  = lit "{" ++ pre ++ lit "additionalPagesDirs" ++ w ++ lit ":" ++ post ++ lit "}".
Proof.
  intros Hw Hno.
  assert (Hb : lit "{" ++ pre ++ lit "additionalPagesDirs" ++ w ++ lit ":" ++ post
               ++ lit "}"
               = lit "{" ++ (pre ++ lit "additionalPagesDirs" ++ w ++ lit ":" ++ post)
                 ++ lit "}")
    by (rewrite <- !app_assoc; reflexivity).
  rewrite Hb in *. unfold extendOptions.
  rewrite hasBraces_braces, stripBraces_braces.
  rewrite (test_hasPagesDir pre w post Hw). cbn [andb negb].
  assert (Hr : replaceFn pagesDirsArrayRegex
                 (appendDir (lit "additionalPagesDirs") p)
                 (lit "{" ++ (pre ++ lit "additionalPagesDirs" ++ w ++ lit ":" ++ post)
                  ++ lit "}")
               = lit "{" ++ (pre ++ lit "additionalPagesDirs" ++ w ++ lit ":" ++ post)
                 ++ lit "}").
  { unfold replaceFn, exec.
    rewrite execFrom_all_None; [reflexivity|].
    intros j. unfold matchHere, pagesDirsArrayRegex. rewrite matchk_Seq, matchk_Lit.
    now rewrite (proj1 (includes_false_iff _ _) Hno j). }
  rewrite Hr. destruct (negb (test hasLiveReloadRegex _)); reflexivity.
Qed.

End ExistingArray.

Lemma extendOptions_appends_pages_dir_witness :
  extendOptions true false (lit "'libs/a/src/pages'") []
    (lit "{ liveReload: true, additionalPagesDirs:  [ 'x' ] }")
  = lit "{ liveReload: true, additionalPagesDirs: ['x', 'libs/a/src/pages'] }".
Proof.
  apply (extendOptions_appends_pages_dir (lit " liveReload: true, ") (lit "  ")
           (lit " 'x' ") (lit " ") (lit "'libs/a/src/pages'") []); reflexivity.
Defined.

Lemma extendOptions_spaced_key_unchanged_witness :
  extendOptions true false (lit "'libs/a/src/pages'") []
    (lit "{ additionalPagesDirs : ['x'] }")
  = lit "{ additionalPagesDirs : ['x'] }".
Proof.
  apply (extendOptions_spaced_key_unchanged (lit " ") (lit " ") (lit " ['x'] ")
           (lit "'libs/a/src/pages'") []); reflexivity.
Defined.

(** ** init-auth: the steps in order *)

Section StepsInOrder.

Import InitAuth.

Context {Tree : Type} `{TreeOps Tree}.
Variable Task : Type.
Variable readJson : Tree -> list N -> result Json.
Variable addDependenciesToPackageJson :
  list (list N * Json) -> list (list N * Json) -> Gen Tree Task.
Variable formatFiles : Gen Tree unit.
Variable joinPathFragments : list (list N) -> list N.
Variable JSON_parse : list N -> result Json.

(** The steps of the generator, one after the other. *)
Lemma initAuthSteps_unfold (projectRoot : list N) (tree : Tree) :
  initAuthSteps Task readJson addDependenciesToPackageJson formatFiles
    joinPathFragments JSON_parse projectRoot tree
  = match ensureAuthPackages Task readJson addDependenciesToPackageJson JSON_parse tree with
    | (t1, Ok installTask) =>
        let t2 :=
          tree_write
            (tree_write t1 (joinPathFragments [projectRoot; lit "src/auth.config.ts"])
               authConfigContent)
            (joinPathFragments
               [joinPathFragments [projectRoot; lit "src/server/middleware"];
                lit "auth.ts"])
            authMiddlewareContent in
        match updateAppConfig
                (joinPathFragments [projectRoot; lit "src/app/app.config.ts"]) t2 with
        | (t3, Ok _) =>
            match (match InitAuth.findViteConfigPath joinPathFragments t3 projectRoot with
                   | Some viteConfigPath => InitAuth.updateViteConfig viteConfigPath
                   | None => ret tt
                   end) t3 with
            | (t4, Ok _) =>
                match formatFiles t4 with
                | (t5, Ok _) => (t5, Ok installTask)
                | (t5, Throw e) => (t5, Throw e)
                end
            | (t4, Throw e) => (t4, Throw e)
            end
        | (t3, Throw e) => (t3, Throw e)
        end
    | (t1, Throw e) => (t1, Throw e)
    end.
Proof.
  unfold initAuthSteps, bind.
  destruct (ensureAuthPackages _ _ _ _ tree) as [t1 [installTask|e]]; [|reflexivity].
  unfold write at 1 2. cbv beta iota zeta.
  destruct (updateAppConfig _ _) as [t3 [[]|e]]; [|reflexivity].
  unfold getTree. cbv beta iota.
  destruct (match InitAuth.findViteConfigPath joinPathFragments t3 projectRoot with
            | Some viteConfigPath => InitAuth.updateViteConfig viteConfigPath
            | None => ret tt
            end t3) as [t4 [[]|e]]; [|reflexivity].
  destruct (formatFiles t4) as [t5 [[]|e]]; reflexivity.
Qed.

(** X25.  After the project type check the generator is not atomic:
    when src/app/app.config.ts exists in the tree but cannot be read
    (the path is a directory), step 3 throws a TypeError, and the tree
    is left with auth.config.ts and the middleware auth.ts of steps 1
    and 2 written; [formatFiles] is not run. *)
Theorem initAuthSteps_throws_after_writing
    (projectRoot : list N) (tree t1 : Tree) (installTask : option Task) :
  ensureAuthPackages Task readJson addDependenciesToPackageJson JSON_parse tree
  = (t1, Ok installTask) ->
  let t2 :=
    tree_write
      (tree_write t1 (joinPathFragments [projectRoot; lit "src/auth.config.ts"])
         authConfigContent)
      (joinPathFragments
         [joinPathFragments [projectRoot; lit "src/server/middleware"]; lit "auth.ts"])
      authMiddlewareContent in
  tree_exists t2 (joinPathFragments [projectRoot; lit "src/app/app.config.ts"]) = true ->
  tree_read t2 (joinPathFragments [projectRoot; lit "src/app/app.config.ts"]) = None ->
  initAuthSteps Task readJson addDependenciesToPackageJson formatFiles
    joinPathFragments JSON_parse projectRoot tree
  = (t2, Throw (lit "TypeError: Cannot read properties of null")).
Proof.
  intros Hens t2 Hex Hread.
  rewrite initAuthSteps_unfold, Hens. cbv zeta. fold t2.
  unfold updateAppConfig, bind, getTree, readText. cbv beta iota.
  rewrite Hex. cbn [negb]. cbv beta iota. now rewrite Hread.
Qed.

End StepsInOrder.

Lemma initAuthSteps_throws_after_writing_witness :
  InitAuth.initAuthSteps unit (fun _ _ => Throw [])
    MemTree.addDependenciesToPackageJson MemTree.formatFiles
    MemTree.joinPathFragments (fun _ => Throw []) (lit "apps/web") appConfigDirectory
  = (tree_write
       (tree_write appConfigDirectory
          (MemTree.joinPathFragments [lit "apps/web"; lit "src/auth.config.ts"])
          InitAuth.authConfigContent)
       (MemTree.joinPathFragments
          [MemTree.joinPathFragments [lit "apps/web"; lit "src/server/middleware"];
           lit "auth.ts"])
       InitAuth.authMiddlewareContent,
     Throw (lit "TypeError: Cannot read properties of null")).
Proof.
  apply (initAuthSteps_throws_after_writing unit (fun _ _ => Throw [])
           MemTree.addDependenciesToPackageJson MemTree.formatFiles
           MemTree.joinPathFragments (fun _ => Throw []) (lit "apps/web")
           appConfigDirectory appConfigDirectory None);
    vm_compute; reflexivity.
Defined.

(** ** init-auth: the files it writes *)

Section WrittenFiles.

Import InitAuth.

Variable Task : Type.
Variable readJson : gmap (list N) (list N) -> list N -> result Json.
Variable addDependenciesToPackageJson :
  list (list N * Json) -> list (list N * Json) -> Gen (gmap (list N) (list N)) Task.
Variable formatFiles : Gen (gmap (list N) (list N)) unit.
Variable joinPathFragments : list (list N) -> list N.
Variable JSON_parse : list N -> result Json.

Lemma sameElsewhere_refl (paths : list (list N)) (t : gmap (list N) (list N)) :
  sameElsewhere paths t t.
Proof. intros q _. reflexivity. Qed.

Lemma sameElsewhere_write (paths : list (list N)) (t t' : gmap (list N) (list N))
    (p content : list N) :
  In p paths -> sameElsewhere paths t t' ->
  sameElsewhere paths t (tree_write t' p content).
Proof.
  intros Hp Ht q Hq. cbn [tree_write MemTree.memTreeOps].
  rewrite lookup_insert_ne; [now apply Ht|]. intros ->. contradiction.
Qed.

Lemma updateAppConfig_frame (paths : list (list N)) (p : list N)
    (t0 t : gmap (list N) (list N)) :
  In p paths -> sameElsewhere paths t0 t ->
  exists t', sameElsewhere paths t0 t' /\ leaves (updateAppConfig p) t t'.
Proof.
  intros Hp Ht. unfold leaves, updateAppConfig, bind, getTree, readText, ret, write.
  cbv beta iota.
  destruct (tree_exists t p); cbn [negb]; [|exists t; eauto].
  destruct (tree_read t p) as [content|]; [|exists t; eauto].
  destruct (includes (lit "@analog-tools/auth/angular") content); [exists t; eauto|].
  exists (tree_write t p (patchAppConfig content)).
  split; [now apply sameElsewhere_write|eauto].
Qed.

Lemma updateViteConfig_frame (paths : list (list N)) (p : list N)
    (t0 t : gmap (list N) (list N)) :
  In p paths -> sameElsewhere paths t0 t ->
  exists t', sameElsewhere paths t0 t' /\ leaves (InitAuth.updateViteConfig p) t t'.
Proof.
  intros Hp Ht.
  unfold leaves, InitAuth.updateViteConfig, bind, getTree, readText, ret, write.
  cbv beta iota.
  destruct (tree_exists t p); cbn [negb]; [|exists t; eauto].
  destruct (tree_read t p) as [content|]; [|exists t; eauto].
  destruct (patchNoExternal content) as [content'|]; [|exists t; eauto].
  exists (tree_write t p content').
  split; [now apply sameElsewhere_write|eauto].
Qed.

Lemma findViteConfigPath_candidate (t : gmap (list N) (list N)) (projectRoot p : list N) :
  InitAuth.findViteConfigPath joinPathFragments t projectRoot = Some p ->
  In p [ joinPathFragments [projectRoot; lit "vite.config.ts"];
         joinPathFragments [projectRoot; lit "vite.config.mts"];
         joinPathFragments [projectRoot; lit "vite.config.js"];
         joinPathFragments [projectRoot; lit "vite.config.mjs"] ].
Proof.
  unfold InitAuth.findViteConfigPath.
  destruct (List.find _ _) as [x|] eqn:E; [|discriminate].
  apply find_some in E as [Hin _].
  destruct (0 <? length x); [|discriminate]. now intros [= <-].
Qed.

(** X24.  The files the init-auth generator writes.  On an in-memory
    tree, once [ensureAuthPackages] has returned, steps 1 to 4 change
    no file other than auth.config.ts, the middleware auth.ts,
    app.config.ts and the vite.config candidates under the project
    root; the generator then either has thrown, with the tree in that
    state, or hands that tree to [formatFiles] and returns the install
    task of step 0. *)
Theorem initAuthSteps_written_files
    (projectRoot : list N) (tree t1 : gmap (list N) (list N)) (installTask : option Task) :
  ensureAuthPackages Task readJson addDependenciesToPackageJson JSON_parse tree
  = (t1, Ok installTask) ->
  exists t4,
    sameElsewhere
      [ joinPathFragments [projectRoot; lit "src/auth.config.ts"];
        joinPathFragments [joinPathFragments [projectRoot; lit "src/server/middleware"];
                           lit "auth.ts"];
        joinPathFragments [projectRoot; lit "src/app/app.config.ts"];
        joinPathFragments [projectRoot; lit "vite.config.ts"];
        joinPathFragments [projectRoot; lit "vite.config.mts"];
        joinPathFragments [projectRoot; lit "vite.config.js"];
        joinPathFragments [projectRoot; lit "vite.config.mjs"] ] t1 t4
    /\ ((exists e,
           initAuthSteps Task readJson addDependenciesToPackageJson formatFiles
             joinPathFragments JSON_parse projectRoot tree
           = (t4, Throw e))
        \/ initAuthSteps Task readJson addDependenciesToPackageJson formatFiles
             joinPathFragments JSON_parse projectRoot tree
           = match formatFiles t4 with
             | (t5, Ok _) => (t5, Ok installTask)
             | (t5, Throw e) => (t5, Throw e)
             end).
Proof.
  intros Hens.
  set (paths := [ joinPathFragments [projectRoot; lit "src/auth.config.ts"]; _; _; _; _; _; _ ]).
  set (t2 := tree_write
               (tree_write t1 (joinPathFragments [projectRoot; lit "src/auth.config.ts"])
                  authConfigContent)
               (joinPathFragments
                  [joinPathFragments [projectRoot; lit "src/server/middleware"];
                   lit "auth.ts"])
               authMiddlewareContent).
  assert (H2 : sameElsewhere paths t1 t2).
  { apply sameElsewhere_write; [right; now left|].
    apply sameElsewhere_write; [now left|]. apply sameElsewhere_refl. }
  destruct (updateAppConfig_frame paths
              (joinPathFragments [projectRoot; lit "src/app/app.config.ts"]) t1 t2)
    as (t3 & H3 & Happ); [right; right; now left|exact H2|].
  assert (Hvite : exists t4,
             sameElsewhere paths t1 t4
             /\ leaves (match InitAuth.findViteConfigPath joinPathFragments t3 projectRoot with
                        | Some viteConfigPath => InitAuth.updateViteConfig viteConfigPath
                        | None => ret tt
                        end) t3 t4).
  { destruct (InitAuth.findViteConfigPath joinPathFragments t3 projectRoot) as [p|] eqn:Ef.
    - apply (updateViteConfig_frame paths p t1 t3); [|exact H3].
      pose proof (findViteConfigPath_candidate t3 projectRoot p Ef) as Hin.
      unfold paths. cbn [In] in *. tauto.
    - exists t3. split; [exact H3|]. left. now exists tt. }
  destruct Hvite as (t4 & H4 & Hv).
  rewrite initAuthSteps_unfold, Hens. cbv zeta. fold t2.
  destruct Happ as [[[] Eapp] | [e Eapp]]; rewrite Eapp.
  - destruct Hv as [[[] Ev] | [e Ev]]; rewrite Ev.
    + exists t4. split; [exact H4|]. now right.
    + exists t4. split; [exact H4|]. left. now exists e.
  - exists t3. split; [exact H3|]. left. now exists e.
Qed.

End WrittenFiles.

Lemma initAuthSteps_written_files_witness :
  exists t4,
    sameElsewhere
      [ MemTree.joinPathFragments [lit "apps/web"; lit "src/auth.config.ts"];
        MemTree.joinPathFragments
          [MemTree.joinPathFragments [lit "apps/web"; lit "src/server/middleware"];
           lit "auth.ts"];
        MemTree.joinPathFragments [lit "apps/web"; lit "src/app/app.config.ts"];
        MemTree.joinPathFragments [lit "apps/web"; lit "vite.config.ts"];
        MemTree.joinPathFragments [lit "apps/web"; lit "vite.config.mts"];
        MemTree.joinPathFragments [lit "apps/web"; lit "vite.config.js"];
        MemTree.joinPathFragments [lit "apps/web"; lit "vite.config.mjs"] ]
      sampleTree t4
    /\ ((exists e,
           InitAuth.initAuthSteps unit (fun _ _ => Throw [])
             MemTree.addDependenciesToPackageJson MemTree.formatFiles
             MemTree.joinPathFragments (fun _ => Throw []) (lit "apps/web") sampleTree
           = (t4, Throw e))
        \/ InitAuth.initAuthSteps unit (fun _ _ => Throw [])
             MemTree.addDependenciesToPackageJson MemTree.formatFiles
             MemTree.joinPathFragments (fun _ => Throw []) (lit "apps/web") sampleTree
           = match MemTree.formatFiles t4 with
             | (t5, Ok _) => (t5, Ok None)
             | (t5, Throw e) => (t5, Throw e)
             end).
Proof.
  apply (initAuthSteps_written_files unit (fun _ _ => Throw [])
           MemTree.addDependenciesToPackageJson MemTree.formatFiles
           MemTree.joinPathFragments (fun _ => Throw []) (lit "apps/web")
           sampleTree sampleTree None).
  vm_compute. reflexivity.
Defined.

(** ** The emptiness test, and keys found anywhere *)

Section EmptinessAndKeys.

(** Comment removal leaves only the white space of blank text. *)
Lemma removeComments_blank (s : list N) :
  Blank s ->
  forall rest, exists w,
    forallb isWhiteSpace w = true
    /\ removeComments (s ++ rest) = w ++ removeComments rest.
Proof.
  induction 1 as [|c s Hc Hs IH|c s Hc Hs IH|c s Hc Hs IH]; intros rest.
  - now exists [].
  - destruct (IH rest) as (w & Hw & E). exists (c :: w). split.
    + cbn [forallb]. now rewrite Hc, Hw.
    + change ((c :: s) ++ rest) with ([c] ++ s ++ rest).
      rewrite removeComments_commentFree_app.
      * now rewrite E.
      * apply (whitespace_plain [c]). cbn [forallb]. now rewrite Hc.
  - destruct (IH rest) as (w & Hw & E). exists w. split; [exact Hw|].
    rewrite <- !app_assoc. now rewrite (removeComments_block_app c (s ++ rest) Hc).
  - destruct (IH rest) as (w & Hw & E). exists (10%N :: w). split.
    + cbn [forallb]. now rewrite Hw.
    + rewrite <- !app_assoc. change (nl ++ s ++ rest) with (10%N :: s ++ rest).
      rewrite (proj1 (removeComments_line c (s ++ rest) Hc)). now rewrite E.
Qed.

(** X26.  The emptiness test of [updateViteConfig] accepts every
    argument text made only of white space and comments (block
    comments, and line comments ended by a line feed), and every such
    text between the braces of an object literal. *)
Theorem isEmptyCall_blank (s : list N) :
  Blank s ->
  isEmptyCall s = true /\ isEmptyCall (lit "{" ++ s ++ lit "}") = true.
Proof.
  intros Hs. unfold isEmptyCall. split.
  - destruct (removeComments_blank s Hs []) as (w & Hw & E).
    rewrite app_nil_r in E. rewrite E. cbn [removeComments]. rewrite app_nil_r.
    now rewrite strip_whitespace_filter, (filter_blank w Hw).
  - destruct (removeComments_blank s Hs (lit "}")) as (w & Hw & E).
    change (lit "{" ++ s ++ lit "}") with ([ch "{"] ++ s ++ lit "}").
    rewrite removeComments_commentFree_app by reflexivity.
    rewrite E, strip_whitespace_filter.
    change (removeComments (lit "}")) with (lit "}").
    rewrite !List.filter_app, (filter_blank w Hw). reflexivity.
Qed.

Lemma test_hasLiveReload (pre w post : list N) :
  forallb isWhiteSpace w = true ->
  test hasLiveReloadRegex (pre ++ lit "liveReload" ++ w ++ lit ":" ++ post) = true.
Proof.
  intros Hw. unfold test, exec.
  pose proof (execFrom_exists hasLiveReloadRegex pre
                (lit "liveReload" ++ w ++ lit ":" ++ post) 0) as Hex.
  destruct (execFrom hasLiveReloadRegex 0 _); [reflexivity|].
  exfalso. apply Hex; [|reflexivity].
  unfold matchHere.
  change hasLiveReloadRegex
    with (stepsRe [SLit (lit "liveReload"); SWs] (Chr (ch ":"))).
  rewrite (matchk_steps true);
    [|reflexivity
     |intros _ x t c' k Hx; apply matchk_Chr_neq; intros <-; discriminate Hx].
  assert (Hrun : runSteps [SLit (lit "liveReload"); SWs]
                   (lit "liveReload" ++ w ++ lit ":" ++ post)
                 = Some (ch ":" :: post)).
  { cbn [runSteps]. rewrite startsWith_app, drop_app_length.
    change (w ++ lit ":" ++ post) with (w ++ ch ":" :: post).
    rewrite dropWhile_run by exact Hw. reflexivity. }
  rewrite Hrun, matchk_Chr_eq. discriminate.
Qed.

(** X27.  The test for the liveReload key looks at the whole text of
    the object: when [liveReload], white space and a colon occur
    anywhere in it (as a key of the object, of a nested object, or in a
    comment or a string), no liveReload key is added, and an edit that
    asks for no directory returns the object as it was. *)
Theorem extendOptions_liveReload_anywhere (pre w post p a : list N) :
  forallb isWhiteSpace w = true ->
  extendOptions false false p a
    (lit "{" ++ pre ++ lit "liveReload" ++ w ++ lit ":" ++ post ++ lit "}")
  = lit "{" ++ pre ++ lit "liveReload" ++ w ++ lit ":" ++ post ++ lit "}".
Proof.
  intros Hw.
  assert (Hb : lit "{" ++ pre ++ lit "liveReload" ++ w ++ lit ":" ++ post ++ lit "}"
               = lit "{" ++ (pre ++ lit "liveReload" ++ w ++ lit ":" ++ post) ++ lit "}")
    by (rewrite <- !app_assoc; reflexivity).
  rewrite Hb. unfold extendOptions.
  rewrite hasBraces_braces, stripBraces_braces.
  now rewrite (test_hasLiveReload pre w post Hw).
Qed.

End EmptinessAndKeys.

Lemma isEmptyCall_blank_witness :
  isEmptyCall (lit " /* a */ // b" ++ nl ++ lit " ") = true
  /\ isEmptyCall (lit "{" ++ (lit " /* a */ // b" ++ nl ++ lit " ") ++ lit "}") = true.
Proof.
  apply (isEmptyCall_blank (lit " /* a */ // b" ++ nl ++ lit " ")).
  apply Blank_space; [reflexivity|].
  apply (Blank_block (lit " a ") (lit " // b" ++ nl ++ lit " ")); [reflexivity|].
  apply Blank_space; [reflexivity|].
  apply (Blank_line (lit " b") (lit " ")); [reflexivity|].
  apply Blank_space; [reflexivity|]. apply Blank_nil.
Defined.

Lemma extendOptions_liveReload_anywhere_witness :
  extendOptions false false [] [] (lit "{ vite: { server: { liveReload : false } } }")
  = lit "{ vite: { server: { liveReload : false } } }".
Proof.
  apply (extendOptions_liveReload_anywhere (lit " vite: { server: { ") (lit " ")
           (lit " false } } ") [] []); reflexivity.
Defined.

(** ** The library edit on a call with balanced arguments *)

Section BalancedCall.

Variable path_join : list (list N) -> list N.

(** X28.  The library edit from end to end, on the first call
    [analog(] of the file when its argument text is balanced (inert
    code units, string literals, nested parentheses): the text before
    the arguments and the text from the closing parenthesis of the call
    on are kept, and the arguments, trimmed, are replaced by the fresh
    options when they pass the emptiness test, and by the extended
    options otherwise. *)
Theorem updateViteConfig_balanced_call
    (pre args tail libSrcRoot : list N) (options : Options) :
  Balanced args ->
  exec analogCallRegex (pre ++ lit "analog(" ++ args ++ lit ")" ++ tail)
  = Some (mkMatch (length pre) (lit "analog(") []) ->
  updateViteConfig path_join (pre ++ lit "analog(" ++ args ++ lit ")" ++ tail)
    libSrcRoot options
  = pre ++ lit "analog("
    ++ (if isEmptyCall (trim args)
        then freshOptions (notFalse (addPages options)) (notFalse (addApi options))
               (lit "'" ++ dirUnder path_join libSrcRoot [lit "pages"] ++ lit "'")
               (lit "'" ++ dirUnder path_join libSrcRoot [lit "backend"; lit "api"]
                ++ lit "'")
        else extendOptions (notFalse (addPages options)) (notFalse (addApi options))
               (lit "'" ++ dirUnder path_join libSrcRoot [lit "pages"] ++ lit "'")
               (lit "'" ++ dirUnder path_join libSrcRoot [lit "backend"; lit "api"]
                ++ lit "'")
               (trim args))
    ++ lit ")" ++ tail.
Proof.
  intros Hargs Hexec.
  assert (Hscan : findClosingParen (pre ++ lit "analog(" ++ args ++ lit ")" ++ tail)
                    (length pre + length (lit "analog("))
                  = mkScan 0 (length (pre ++ lit "analog(") + length args) false None).
  { replace (pre ++ lit "analog(" ++ args ++ lit ")" ++ tail)
      with ((pre ++ lit "analog") ++ lit "(" ++ args ++ lit ")" ++ tail)
      by (rewrite <- app_assoc; reflexivity).
    replace (length pre + length (lit "analog("))
      with (length (pre ++ lit "analog") + 1)
      by (rewrite length_app; simpl; lia).
    rewrite (findClosingParen_balanced _ args tail Hargs).
    f_equal. rewrite !length_app. simpl. lia. }
  rewrite (updateViteConfig_found path_join _ libSrcRoot options _ Hexec);
    cbn [index matched]; rewrite Hscan; [|reflexivity].
  cbn [endPos].
  replace (length pre + length (lit "analog(")) with (length (pre ++ lit "analog("))
    by (rewrite length_app; reflexivity).
  replace (pre ++ lit "analog(" ++ args ++ lit ")" ++ tail)
    with ((pre ++ lit "analog(") ++ args ++ lit ")" ++ tail)
    by (rewrite <- !app_assoc; reflexivity).
  rewrite substring_middle, take_app_length.
  replace (length (pre ++ lit "analog(") + length args)
    with (length ((pre ++ lit "analog(") ++ args))
    by (rewrite !length_app; reflexivity).
  rewrite (app_assoc (pre ++ lit "analog(") args (lit ")" ++ tail)), drop_app_length.
  rewrite <- !app_assoc. reflexivity.
Qed.

End BalancedCall.

Lemma updateViteConfig_balanced_call_witness :
  updateViteConfig joinSegments
    (lit "plugins: [analog({ liveReload: true, vite: { x: f('a)') } }), b()]")
    (lit "libs/notes/src") liveReloadOnly
  = lit "plugins: [analog({ liveReload: true, vite: { x: f('a)') } }), b()]".
Proof.
  apply (updateViteConfig_balanced_call joinSegments (lit "plugins: [")
           (lit "{ liveReload: true, vite: { x: f('a)') } }") (lit ", b()]")
           (lit "libs/notes/src") liveReloadOnly).
  - repeat first
      [ apply Balanced_nil
      | apply Balanced_inert; [reflexivity|]
      | apply (Balanced_string (ch "'") (lit "a)")); [reflexivity|reflexivity|]
      | apply (Balanced_nested (lit "'a)'") (lit " } }")) ].
  - vm_compute. reflexivity.
Defined.

(** ** app.config.ts: provideHttpClient without interceptors *)

Section HttpClientFacts.

Import InitAuth.

Lemma existsb_app_false (z : N) (a b : list N) :
  existsb (N.eqb z) (a ++ b) = false ->
  existsb (N.eqb z) a = false /\ existsb (N.eqb z) b = false.
Proof. rewrite existsb_app. apply orb_false_elim. Qed.

(** A text without a code unit of the pattern does not include it. *)
Lemma includes_needs_unit (p g : list N) (z : N) :
  existsb (N.eqb z) p = true -> existsb (N.eqb z) g = false ->
  includes p g = false.
Proof.
  intros Hp Hg. apply includes_false_iff. intros j.
  destruct (startsWith p (skipn j g)) eqn:E; [|reflexivity].
  destruct (startsWith_prefix _ _ E) as [t Ht].
  pose proof (existsb_skipn z g j Hg) as Hj. rewrite Ht in Hj.
  apply existsb_app_false in Hj as [Hj _]. congruence.
Qed.

(** The argument text captured by the provideHttpClient pattern ends
    before the first closing parenthesis. *)
Lemma httpClient_group_open (content : list N) (m : MatchResult) :
  exec httpClientRegex content = Some m ->
  existsb (N.eqb (ch ")")) (groupText m 1) = false.
Proof.
  unfold exec. intros Hm.
  destruct (execFrom_inv _ _ _ _ Hm) as (pre & t & t' & _ & _ & Hmt & _ & _).
  revert Hmt. unfold matchHere, httpClientRegex. rewrite matchk_Seq, matchk_Lit.
  destruct (startsWith (lit "provideHttpClient(") t); [|discriminate].
  rewrite matchHere_lazy_group.
  destruct (cutAt (ch ")") _) as [[g rest]|] eqn:Ec; [|discriminate].
  intros [= _ Hg]. unfold groupText, group. rewrite <- Hg. cbn [capture Nat.eqb].
  exact (proj2 (cutAt_split _ _ _ _ Ec)).
Qed.

(** X29.  When the file has no [withInterceptors([...])], the edit of
    the interceptor list changes nothing, whatever
    [provideHttpClient(...)] holds: the argument text captured by the
    pattern ends before the first closing parenthesis, so it never
    contains [withFetch()], and the branch that would write
    [withInterceptors([authInterceptor])] and extend the import from
    [@angular/common/http] is never taken. *)
Theorem addAuthInterceptor_needs_interceptor_list (content : list N) :
  exec interceptorsRegex content = None ->
  addAuthInterceptor content = content.
Proof.
  intros Hno. unfold addAuthInterceptor. rewrite Hno.
  destruct (exec httpClientRegex content) as [m|] eqn:Hm; [|reflexivity].
  now rewrite (includes_needs_unit (lit "withFetch()") (groupText m 1) (ch ")") eq_refl
                 (httpClient_group_open content m Hm)).
Qed.

End HttpClientFacts.

Lemma addAuthInterceptor_needs_interceptor_list_witness :
  InitAuth.addAuthInterceptor (lit "providers: [provideHttpClient(withFetch())]")
  = lit "providers: [provideHttpClient(withFetch())]".
Proof.
  apply (addAuthInterceptor_needs_interceptor_list
           (lit "providers: [provideHttpClient(withFetch())]")).
  vm_compute. reflexivity.
Defined.

(** ** When no workspace scope is found *)

Section NoScope.

Import Workspace.

Context {Tree : Type} `{TreeOps Tree}.
Variable readNxJson : Tree -> result Json.
Variable readJson : Tree -> list N -> result Json.

Lemma scanChildren_none (tree : Tree) (dir : list N) (cs : list (list N)) :
  scanChildren readJson tree dir cs = None ->
  forall child, In child cs ->
    tree_exists tree (dir ++ lit "/" ++ child ++ lit "/package.json") = true ->
    scopeOfPackageJson readJson tree (dir ++ lit "/" ++ child ++ lit "/package.json")
    = None.
Proof.
  induction cs as [|c cs IH]; cbn [scanChildren]; [intros _ child []|].
  destruct (tree_exists tree (dir ++ lit "/" ++ c ++ lit "/package.json")) eqn:Hex.
  - destruct (scopeOfPackageJson readJson tree _) as [s|] eqn:E; [discriminate|].
    intros Hn child [<-|Hin] Hc; [exact E|now apply IH].
  - intros Hn child [<-|Hin] Hc; [congruence|now apply IH].
Qed.

Lemma scanPackageDirs_none (tree : Tree) (dirs : list (list N)) :
  scanPackageDirs readJson tree dirs = None ->
  forall dir, In dir dirs -> tree_exists tree dir = true ->
    scanChildren readJson tree dir (tree_children tree dir) = None.
Proof.
  induction dirs as [|d dirs IH]; cbn [scanPackageDirs]; [intros _ dir []|].
  destruct (tree_exists tree d) eqn:Hex.
  - destruct (scanChildren readJson tree d _) as [s|] eqn:E; [discriminate|].
    intros Hn dir [<-|Hin] Hd; [exact E|now apply IH].
  - intros Hn dir [<-|Hin] Hd; [congruence|now apply IH].
Qed.

Lemma scanChildren_all (tree : Tree) (dir : list N) (cs : list (list N)) :
  (forall child, In child cs ->
     tree_exists tree (dir ++ lit "/" ++ child ++ lit "/package.json") = true ->
     scopeOfPackageJson readJson tree (dir ++ lit "/" ++ child ++ lit "/package.json")
     = None) ->
  scanChildren readJson tree dir cs = None.
Proof.
  induction cs as [|c cs IH]; intros Hall; cbn [scanChildren]; [reflexivity|].
  destruct (tree_exists tree (dir ++ lit "/" ++ c ++ lit "/package.json")) eqn:Hex.
  - rewrite (Hall c (or_introl eq_refl) Hex). apply IH.
    intros child Hin. apply Hall. now right.
  - apply IH. intros child Hin. apply Hall. now right.
Qed.

Lemma scanPackageDirs_all (tree : Tree) (dirs : list (list N)) :
  (forall dir, In dir dirs -> tree_exists tree dir = true ->
     scanChildren readJson tree dir (tree_children tree dir) = None) ->
  scanPackageDirs readJson tree dirs = None.
Proof.
  induction dirs as [|d dirs IH]; intros Hall; cbn [scanPackageDirs]; [reflexivity|].
  destruct (tree_exists tree d) eqn:Hex.
  - rewrite (Hall d (or_introl eq_refl) Hex). apply IH.
    intros dir Hin. apply Hall. now right.
  - apply IH. intros dir Hin. apply Hall. now right.
Qed.

(** The body of the inner [try] gives no scope exactly for a
    package.json that cannot be read or has no scoped name. *)
Lemma scopeOfPackageJson_none (tree : Tree) (p : list N) :
  scopeOfPackageJson readJson tree p = None <-> givesNoScope readJson tree p.
Proof.
  unfold scopeOfPackageJson, givesNoScope. split.
  - intros Hn packageJson nm Hr Hname. rewrite Hr, Hname in Hn.
    cbn [scopeOfName] in Hn.
    destruct (startsWith (lit "@") nm && includes (lit "/") nm);
      [discriminate|reflexivity].
  - intros Hg. destruct (readJson tree p) as [packageJson|]; [|reflexivity].
    destruct (getProp packageJson (lit "name")) as [[[| | |nm| |]|]|] eqn:Hname;
      try reflexivity.
    cbn [scopeOfName]. now rewrite (Hg packageJson nm eq_refl Hname).
Qed.

(** X30.  [getWorkspaceScope] returns [null] exactly when nothing in
    the tree gives a scope: nx.json cannot be read or has no string
    [npmScope]; every package.json found in a child of an existing
    [packages] or [libs] directory cannot be read or has no name that
    is a string beginning with [@] and holding a slash; and the same
    holds for the root package.json when there is one. *)
Theorem getWorkspaceScope_null (tree : Tree) :
  getWorkspaceScope readNxJson readJson tree = None
  <-> (forall nxJson npmScope,
         readNxJson tree = Ok nxJson ->
         getFieldValue nxJson (lit "npmScope") <> Ok (Some npmScope))
      /\ (forall dir child,
            In dir [lit "packages"; lit "libs"] -> tree_exists tree dir = true ->
            In child (tree_children tree dir) ->
            tree_exists tree (dir ++ lit "/" ++ child ++ lit "/package.json") = true ->
            givesNoScope readJson tree (dir ++ lit "/" ++ child ++ lit "/package.json"))
      /\ (tree_exists tree (lit "package.json") = true ->
          givesNoScope readJson tree (lit "package.json")).
Proof.
  unfold getWorkspaceScope.
  set (fromNx := match readNxJson tree with
                 | Ok nxJson =>
                     match getFieldValue nxJson (lit "npmScope") with
                     | Ok v => v
                     | Throw _ => None
                     end
                 | Throw _ => None
                 end).
  match goal with
  | |- _ = None <-> ?P =>
      change (match fromNx with
              | Some scopeFromNx =>
                  Some (if startsWith (lit "@") scopeFromNx then scopeFromNx
                        else lit "@" ++ scopeFromNx)
              | None =>
                  match scanPackageDirs readJson tree [lit "packages"; lit "libs"] with
                  | Some scope => Some scope
                  | None =>
                      if tree_exists tree (lit "package.json")
                      then scopeOfPackageJson readJson tree (lit "package.json")
                      else None
                  end
              end = None <-> P)
  end.
  assert (Hnx : fromNx = None
                <-> forall nxJson npmScope,
                      readNxJson tree = Ok nxJson ->
                      getFieldValue nxJson (lit "npmScope") <> Ok (Some npmScope)).
  { unfold fromNx. split.
    - intros Hn nxJson npmScope Hr Hf. rewrite Hr, Hf in Hn. discriminate.
    - intros Hall. destruct (readNxJson tree) as [nxJson|]; [|reflexivity].
      destruct (getFieldValue nxJson (lit "npmScope")) as [[s|]|] eqn:Hf;
        [|reflexivity|reflexivity].
      now destruct (Hall nxJson s eq_refl). }
  split.
  - intros Hn. destruct fromNx as [s|]; [discriminate|].
    destruct (scanPackageDirs readJson tree [lit "packages"; lit "libs"]) as [s|] eqn:Es;
      [discriminate|].
    split; [now apply Hnx|split].
    + intros dir child Hdir Hex Hchild Hpkg. apply scopeOfPackageJson_none.
      apply (scanChildren_none tree dir (tree_children tree dir)); auto.
      now apply (scanPackageDirs_none tree [lit "packages"; lit "libs"]).
    + intros Hex. rewrite Hex in Hn. now apply scopeOfPackageJson_none.
  - intros (HA & HB & HC). apply Hnx in HA. rewrite HA.
    rewrite scanPackageDirs_all.
    + destruct (tree_exists tree (lit "package.json")); [|reflexivity].
      now apply scopeOfPackageJson_none, HC.
    + intros dir Hdir Hex. apply scanChildren_all. intros child Hchild Hpkg.
      apply scopeOfPackageJson_none. now apply HB.
Qed.

End NoScope.

(** In this workspace both directories exist, two of their children
    have a package.json, and the root has one: none of them names a
    scope, and no scope is found. *)
Lemma getWorkspaceScope_null_witness :
  Workspace.getWorkspaceScope unscopedNxJson unscopedPackageJson unscopedWorkspace = None
  /\ forallb (tree_exists unscopedWorkspace)
       [lit "packages"; lit "libs"; lit "packages/auth/package.json";
        lit "libs/ui/package.json"; lit "package.json"] = true
  /\ existsb (str_eqb (lit "auth")) (tree_children unscopedWorkspace (lit "packages"))
     = true
  /\ existsb (str_eqb (lit "ui")) (tree_children unscopedWorkspace (lit "libs")) = true
  /\ (forall dir child,
        In dir [lit "packages"; lit "libs"] ->
        tree_exists unscopedWorkspace dir = true ->
        In child (tree_children unscopedWorkspace dir) ->
        tree_exists unscopedWorkspace (dir ++ lit "/" ++ child ++ lit "/package.json")
        = true ->
        givesNoScope unscopedPackageJson unscopedWorkspace
          (dir ++ lit "/" ++ child ++ lit "/package.json"))
  /\ (tree_exists unscopedWorkspace (lit "package.json") = true ->
      givesNoScope unscopedPackageJson unscopedWorkspace (lit "package.json")).
Proof.
  repeat (split; [vm_compute; reflexivity|]).
  apply (proj1 (getWorkspaceScope_null unscopedNxJson unscopedPackageJson
                  unscopedWorkspace)).
  vm_compute. reflexivity.
Defined.

(** ** The import pattern on a run of import statements *)

Section ImportRun.

Import InitAuth.







End ImportRun.

Section ImportBlock.

Import InitAuth.












End ImportBlock.




(** The inserted line is not always at the end of the import block of
    the file: an import without braces ends the run, and the line is
    put in front of it. *)
Remark auth_import_inside_import_block :
  InitAuth.addAuthImport
    (lit "import { Component } from '@angular/core';
import routes from './app.routes';
import { provideRouter } from '@angular/router';
")
  = lit "import { Component } from '@angular/core';
import { authInterceptor, provideAuthClient } from '@analog-tools/auth/angular';
import routes from './app.routes';
import { provideRouter } from '@angular/router';
".
Proof. vm_compute. reflexivity. Qed.

(** ** The parenthesis scan and string literals *)

Section LiteralsInArguments.

Lemma endsWith_last (x d : N) (body : list N) :
  endsWith [x] body = false -> (x =? d)%N = false -> (x =? List.last body d)%N = false.
Proof.
  intros He Hd. destruct body as [|y body] using rev_ind; [exact Hd|].
  rewrite last_last. unfold endsWith in He. rewrite rev_app_distr in He.
  cbn [rev app startsWith] in He. now rewrite andb_true_r in He.
Qed.

(** The body of a string literal that does not end in a backslash is
    closed, for the scan, by the quote after it and by no quote inside
    it. *)
Lemma stringBody_closesOnlyAtEnd (q : N) (n : nat) :
  isQuote q = true ->
  forall (body : list N) (prev : N),
    length body <= n -> stringBody q body = true ->
    (backslash =? List.last body prev)%N = false ->
    closesOnlyAtEnd q prev body = true.
Proof.
  intros Hq. induction n as [|n IH]; intros body prev Hn Hb Hlast.
  - destruct body; [|simpl in Hn; lia]. cbn [closesOnlyAtEnd List.last] in *.
    now rewrite N.eqb_sym, Hlast.
  - destruct body as [|x l].
    { cbn [closesOnlyAtEnd List.last] in *. now rewrite N.eqb_sym, Hlast. }
    cbn [stringBody] in Hb. cbn [length] in Hn.
    destruct (N.eqb_spec x backslash) as [->|Hx].
    + destruct l as [|y l']; [discriminate|].
      rewrite !last_cons_head in Hlast.
      cbn [closesOnlyAtEnd]. rewrite N.eqb_refl, orb_true_r.
      rewrite N.eqb_sym, (quote_not_backslash q Hq). cbn [negb orb andb].
      apply IH; [cbn [length] in Hn; lia|exact Hb|exact Hlast].
    + apply andb_prop in Hb as [Hxq Hb].
      rewrite last_cons_head in Hlast.
      cbn [closesOnlyAtEnd]. rewrite Hxq. cbn [orb andb].
      apply IH; [lia|exact Hb|exact Hlast].
Qed.

(** Well-formed argument text is balanced for the scan. *)
Lemma callArguments_balanced (s : list N) : CallArguments s -> Balanced s.
Proof.
  induction 1 as [|c s Hc _ IH|q body s Hq Hb He _ IH|a s _ IHa _ IHs].
  - apply Balanced_nil.
  - now apply Balanced_inert.
  - apply Balanced_string; [exact Hq| |exact IH].
    apply (stringBody_closesOnlyAtEnd q (length body) Hq body q (le_n _) Hb).
    apply endsWith_last; [exact He|].
    rewrite N.eqb_sym. exact (quote_not_backslash q Hq).
  - now apply Balanced_nested.
Qed.

End LiteralsInArguments.

(** C3 (as amended).  Inside a string literal the scan counts nothing:
    for an argument text made of code units other than quotes,
    parentheses and backslashes, of string literals whose body does not
    end in a backslash, and of nested pairs of parentheses around such
    text, the closing parenthesis found is the one of the call itself,
    whatever parentheses the literals hold. *)
Theorem scanner_skips_string_literals (pre args tail : list N) :
  CallArguments args ->
  findClosingParen (pre ++ lit "(" ++ args ++ lit ")" ++ tail) (length pre + 1)
  = mkScan 0 (length pre + 1 + length args) false None.
Proof.
  intros Hargs. apply findClosingParen_balanced. now apply callArguments_balanced.
Qed.

(** The fixture of the specification, and a call with several literals,
    escaped quotes and nested calls: the parentheses inside the
    literals are not counted. *)
Lemma scanner_skips_string_literals_witness :
  findClosingParen (lit "analog('http://a)b')") 7 = mkScan 0 19 false None
  /\ findClosingParen
       (lit "analog({ a: f('it\'s (', g(`)`)), b: ')\\n' }) // )") 7
     = mkScan 0 45 false None.
Proof.
  split.
  - apply (scanner_skips_string_literals (lit "analog") (lit "'http://a)b'") []).
    apply (CallArguments_literal (ch "'") (lit "http://a)b") []);
      [reflexivity|reflexivity|reflexivity|apply CallArguments_nil].
  - apply (scanner_skips_string_literals (lit "analog")
             (lit "{ a: f('it\'s (', g(`)`)), b: ')\\n' }") (lit " // )")).
    repeat first
      [ apply CallArguments_nil
      | apply CallArguments_code; [reflexivity|]
      | apply (CallArguments_literal (ch "'") (lit "it\'s ("));
          [reflexivity|reflexivity|reflexivity|]
      | apply (CallArguments_literal (ch "`") (lit ")"));
          [reflexivity|reflexivity|reflexivity|]
      | apply (CallArguments_literal (ch "'") (lit ")\\n"));
          [reflexivity|reflexivity|reflexivity|]
      | apply (CallArguments_nested (lit "'it\'s (', g(`)`)") (lit ", b: ')\\n' }"))
      | apply (CallArguments_nested (lit "`)`") []) ].
Defined.

(** A literal whose body ends in an escaped backslash is left out of
    the theorem above: the scan takes the quote that closes it for an
    escaped one, goes on inside a string, and here stops at the
    parenthesis inside the next literal (index 23; the call closes at
    index 27). *)
Remark scanner_misses_quote_after_escaped_backslash :
  let content := lit "analog({ a: 'x\\', b: ')' })" in
  substring 12 17 content = lit "'x\\'"
  /\ substring 22 25 content = lit "')'"
  /\ nth_error content 27 = Some (ch ")")
  /\ findClosingParen content 7 = mkScan 0 23 false None.
Proof. vm_compute. repeat split. Qed.
